(** * OpenPGP.js: SEIPD packet, chunked AEAD engine and CMAC

    A shallow embedding of
    - [src/crypto/cmac.js] (AES-CMAC on top of AES-CBC), and
    - [src/packet/sym_encrypted_integrity_protected_data.js]
      (the SEIPD packet codec, its [encrypt]/[decrypt] and [runAEAD]),
    followed by
    - [src/packet/userid.js] (the user ID packet), and
    - [test/general/testInputs.js] (the generator of test messages).

    Bytes are integers ([Z]); a store into a [Uint8Array] wraps modulo 256 and
    is written out as [u8].  Collaborators that are not part of these two
    files (block cipher, AEAD modes, HKDF, SHA-1, the packet-list parser, the
    stream library) are parameters of the development. *)

From stdpp Require Import base list numbers relations.
From Stdlib Require Import ZArith Lia.

Open Scope Z_scope.

(** ** Typed arrays *)

Abbreviation bytes := (list Z).

(** A store into a [Uint8Array] keeps the low eight bits. *)
Definition u8 (x : Z) : Z := x mod 256.

(** [new Uint8Array(n)] *)
Definition zeros (n : nat) : bytes := replicate n 0.

Definition len (a : bytes) : Z := Z.of_nat (length a).

(** [a[i]] under a bitwise operator: an index outside the array reads
    [undefined], which [ToInt32] turns into 0. *)
Definition ta_get (a : bytes) (i : Z) : Z :=
  if i <? 0 then 0 else default 0 (a !! Z.to_nat i).

(** [a[i] = v]: a store outside the array is ignored. *)
Definition ta_set (a : bytes) (i v : Z) : bytes :=
  if i <? 0 then a else <[Z.to_nat i := u8 v]> a.

(** Relative index of [subarray]/[slice]/[fill]: negative counts from the end,
    the result is clamped to [0, len]. *)
Definition rel_index (a : bytes) (i : Z) : nat :=
  Z.to_nat (if i <? 0 then Z.max (len a + i) 0 else Z.min i (len a)).

(** [a.subarray(b, e)] *)
Definition subarray (a : bytes) (b e : Z) : bytes :=
  take (rel_index a e - rel_index a b) (drop (rel_index a b) a).

(** [a.subarray(b)] *)
Definition subarray_from (a : bytes) (b : Z) : bytes :=
  subarray a b (len a).

(** Octet-wise exclusive or of two blocks. *)
Definition xor_block (a b : bytes) : bytes :=
  zip_with (λ x y, u8 (Z.lxor x y)) a b.

(** Big-endian reading and writing of an octet string. *)
Definition be_to_Z (a : bytes) : Z :=
  foldl (λ acc x, acc * 256 + x) 0 a.

Fixpoint Z_to_be (n : nat) (x : Z) : bytes :=
  match n with
  | O => []
  | S n' => Z_to_be n' (x / 256) ++ [x mod 256]
  end.

(** ** crypto/cmac.js *)

Section CMAC_def.

(** The raw AES block encryption [E key block], supplied by Node, WebCrypto
    or noble-ciphers. *)
Context (E : bytes → bytes → bytes).

Definition blockLength : Z := 16.

Definition rightXORMut (data padding : bytes) : bytes :=
  let offset := len data - blockLength in
  foldl (λ d i, ta_set d (i + offset)
                  (Z.lxor (ta_get d (i + offset)) (ta_get padding i)))
        data (seqZ 0 blockLength).

Definition pad (data padding padding2 : bytes) : bytes :=
  if negb (len data =? 0) && (len data mod blockLength =? 0) then
    rightXORMut data padding
  else
    let padded :=
      data ++ zeros (Z.to_nat (blockLength - len data mod blockLength)) in
    let padded := ta_set padded (len data) 128 in
    rightXORMut padded padding2.

Definition zeroBlock : bytes := zeros (Z.to_nat blockLength).

(** The function returned by [CBC(key)]: AES-CBC under a zero IV over the
    complete blocks of [pt], without a padding block ([update] without
    [final] on Node, the padding block cut off on WebCrypto,
    [disablePadding] on noble).  [n] counts the blocks still to encrypt. *)
Fixpoint cbc_from (key : bytes) (n : nat) (prev pt : bytes) : bytes :=
  match n with
  | O => []
  | S n' =>
      let c := E key (xor_block (take 16 pt) prev) in
      c ++ cbc_from key n' c (drop 16 pt)
  end.

Definition CBC (key pt : bytes) : bytes :=
  cbc_from key (length pt / 16)%nat zeroBlock pt.

(** Modelled from the spec: [util.double] (src/util.js is not among the
    sources), doubling in GF(2^128): the block, read as a big-endian
    polynomial, is multiplied by x and reduced by
    x^128 + x^7 + x^2 + x + 1. *)
Definition double (data : bytes) : bytes :=
  let n := length data in
  let x := be_to_Z data in
  let y := (2 * x) mod 2 ^ (8 * Z.of_nat n) in
  Z_to_be n (if Z.testbit x (8 * Z.of_nat n - 1) then Z.lxor y 135 else y).

(** [(await CMAC(key))(data)] *)
Definition CMAC (key data : bytes) : bytes :=
  let cbc := CBC key in
  let padding := double (cbc zeroBlock) in
  let padding2 := double padding in
  subarray_from (cbc (pad data padding padding2)) (- blockLength).

(** *** OMAC1, as the specification words it *)

Fixpoint split_blocks (n : nat) (m : bytes) : list bytes :=
  match n with
  | O => []
  | S n' => take 16 m :: split_blocks n' (drop 16 m)
  end.

(** CBC-MAC under a zero IV: the last ciphertext block. *)
Definition cbc_mac (key : bytes) (blocks : list bytes) : bytes :=
  foldl (λ X M, E key (xor_block M X)) zeroBlock blocks.

Definition omac1_spec (key message : bytes) : bytes :=
  let L := E key zeroBlock in
  let K1 := double L in
  let K2 := double K1 in
  let l := length message in
  let complete := negb (l =? 0)%nat && (l mod 16 =? 0)%nat in
  let full := if complete then (l / 16 - 1)%nat else (l / 16)%nat in
  let body := take (16 * full) message in
  let last := drop (16 * full) message in
  let last' :=
    if complete then xor_block last K1
    else xor_block (last ++ [128] ++ zeros (15 - length last)) K2 in
  cbc_mac key (split_blocks full body ++ [last']).

End CMAC_def.

(** ** JavaScript values, errors, streams *)

(** The values a packet field can hold: [null] after construction, [undefined]
    when a read ran past the end of the input, a number or a byte array. *)
Inductive jsval :=
| JNull
| JUndefined
| JNum (n : Z)
| JBytes (b : bytes).

(** [v === n] for a number literal [n]. *)
Definition js_is (v : jsval) (n : Z) : bool :=
  match v with JNum m => m =? n | _ => false end.

(** [ToUint8]: what a store of [v] into a [Uint8Array] keeps. *)
Definition to_u8 (v : jsval) : Z :=
  match v with JNum n => u8 n | _ => 0 end.

Inductive error :=
| UnsupportedError (version : jsval)
    (* [Version ${version} of the SEIP packet is unsupported.] *)
| UnsupportedSEIPDVersion     (* [Unsupported SEIPD version] *)
| UnexpectedSessionKeySize    (* [Unexpected session key size] *)
| UnexpectedSessionKeyAlgorithm (* [Unexpected session key algorithm] *)
| UnexpectedPacketType        (* [Unexpected packet type] *)
| ModificationDetected        (* [Modification detected.] *)
| RangeError                  (* [DataView.setInt32] outside the buffer *)
| TypeError                   (* a method called on [null] *)
| External (code : Z).        (* raised by a collaborator *)

Notation "'result' A" := (sum error A) (at level 20, A at level 9, only parsing).

Definition result_map {A B} (f : A → B) (r : result A) : result B :=
  match r with inl e => inl e | inr a => inr (f a) end.

(** The three shapes of byte data the stream library tells apart: a
    [Uint8Array], an [ArrayStream], and a web or Node stream.  A stream
    yields its bytes and then either ends or raises [err]. *)
Inductive data :=
| Uint8Array (b : bytes)
| ArrayStream (b : bytes) (err : option error)
| Stream (b : bytes) (err : option error).

Definition isArrayStream (d : data) : bool :=
  match d with ArrayStream _ _ => true | _ => false end.

(** [util.isStream], as a truth value. *)
Definition isStream (d : data) : bool :=
  match d with Uint8Array _ => false | _ => true end.

Definition data_bytes (d : data) : bytes :=
  match d with Uint8Array b | ArrayStream b _ | Stream b _ => b end.

Definition data_err (d : data) : option error :=
  match d with Uint8Array _ => None | ArrayStream _ e | Stream _ e => e end.

(** [streamReadToEnd] *)
Definition streamReadToEnd (d : data) : result bytes :=
  match data_err d with Some e => inl e | None => inr (data_bytes d) end.

(** A byte-wise transformation keeps the shape of its input
    ([streamSlice], [cipherMode.cfb.encrypt], ...). *)
Definition data_map (f : bytes → bytes) (d : data) : data :=
  match d with
  | Uint8Array b => Uint8Array (f b)
  | ArrayStream b e => ArrayStream (f b) e
  | Stream b e => Stream (f b) e
  end.

(** What [streamTransformPair] and [streamParse] return for an input of the
    shape of [d]: a stream for a stream, an [ArrayStream] otherwise. *)
Definition transformed_like (d : data) (b : bytes) (e : option error) : data :=
  match d with Stream _ _ => Stream b e | _ => ArrayStream b e end.

(** [streamConcat([d, tail])] where [tail] is the [ArrayStream] of
    [streamFromAsync]: never a plain array. *)
Definition concat_with_async (d : data) (tail : result bytes) : data :=
  let e := match data_err d, tail with
           | Some e, _ => Some e
           | None, inl e => Some e
           | None, inr _ => None
           end in
  let b := data_bytes d ++ match tail with inr t => t | inl _ => [] end in
  transformed_like d b e.

(** [util.equalsUint8Array] *)
Definition equalsUint8Array (a b : bytes) : bool := bool_decide (a = b).

(** [DataView.prototype.setInt32(off, v)]: [ToInt32 v] in big-endian two's
    complement, a [RangeError] outside the buffer. *)
Definition setInt32 (buf : bytes) (off v : Z) : result bytes :=
  if (off <? 0) || (len buf <? off + 4) then inl RangeError
  else inr (take (Z.to_nat off) buf ++ Z_to_be 4 v
              ++ drop (Z.to_nat off + 4) buf).

(** [a.fill(v, start)] *)
Definition fill (a : bytes) (v start : Z) : bytes :=
  take (rel_index a start) a
    ++ replicate (length a - rel_index a start) (u8 v).

(** ** The reader of the stream library *)

(** The unread input (bytes pushed back by [unshift] included) and the error
    the source raises at its end, if any. *)
Record Reader := { rd_rest : bytes; rd_err : option error }.

Definition getReader (d : data) : Reader :=
  {| rd_rest := data_bytes d; rd_err := data_err d |}.

(** [reader.readByte()]: [undefined] at the end of the input. *)
Definition readByte (r : Reader) : result (jsval * Reader) :=
  match rd_rest r with
  | x :: rest => inr (JNum x, {| rd_rest := rest; rd_err := rd_err r |})
  | [] => match rd_err r with
          | Some e => inl e
          | None => inr (JUndefined, r)
          end
  end.

(** [reader.readBytes(n)] for a length [n >= 0]: up to [n] bytes, fewer at
    the end of the input, [None] ([undefined]) when nothing is left.
    [n = None] is a [NaN] length, which no amount of buffered bytes reaches. *)
Definition readBytes (r : Reader) (n : option Z) : result (option bytes * Reader) :=
  let enough := match n with
                | Some k => k <=? len (rd_rest r)
                | None => false
                end in
  match rd_rest r with
  | [] => match rd_err r with
          | Some e => inl e
          | None => inr (None, r)
          end
  | _ :: _ =>
      if enough then
        let k := Z.to_nat (default 0 n) in
        inr (Some (take k (rd_rest r)),
             {| rd_rest := drop k (rd_rest r); rd_err := rd_err r |})
      else
        match rd_err r with
        | Some e => inl e
        | None => inr (Some (rd_rest r), {| rd_rest := []; rd_err := None |})
        end
  end.

(** [reader.unshift(v)] *)
Definition unshift (r : Reader) (v : bytes) : Reader :=
  {| rd_rest := v ++ rd_rest r; rd_err := rd_err r |}.

(** [reader.remainder()] of [streamParse] over an input of the shape of [d]. *)
Definition remainder (d : data) (r : Reader) : data :=
  transformed_like d (rd_rest r) (rd_err r).

(** ** Collaborators *)

Inductive direction := Encrypt | Decrypt.

(** The object [await mode(cipherAlgorithm, key)] returns. *)
Record ModeInstance := {
  mi_encrypt : bytes → bytes → bytes → result bytes;
  mi_decrypt : bytes → bytes → bytes → result bytes
}.

(** [modeInstance[fn]] *)
Definition mi_run (m : ModeInstance) (fn : direction) :=
  match fn with Encrypt => mi_encrypt m | Decrypt => mi_decrypt m end.

(** An AEAD mode of [cipherMode.getAEADMode]. *)
Record AEADMode := {
  tagLength : Z;
  ivLength : Z;
  mode_new : jsval → bytes → result ModeInstance
}.

(** What the packet code imports from [../crypto] and [../crypto/hkdf]. *)
Class Crypto := {
  (** [getCipherParams(algo)]: [(blockSize, keySize)] *)
  getCipherParams : jsval → result (Z * Z);
  (** [cipherMode.getAEADMode(algo, acceptExperimentalGCM)] *)
  getAEADMode : jsval → bool → result AEADMode;
  (** [computeHKDF(enums.hash.sha256, key, salt, info, length)] *)
  computeHKDF : bytes → jsval → bytes → Z → result bytes;
  (** [computeDigest(enums.hash.sha1, data)] *)
  sha1 : bytes → bytes;
  (** [cipherMode.cfb.encrypt(algo, key, plaintext, iv, config)] *)
  cfb_encrypt : Z → bytes → bytes → bytes → bytes;
  (** [cipherMode.cfb.decrypt(algo, key, ciphertext, iv)] *)
  cfb_decrypt : Z → bytes → bytes → bytes → bytes
}.

(** What it needs from [./packetlist]; [PL] is the type of packet lists. *)
Class PacketList (PL : Type) := {
  (** [packets.write()] *)
  packets_write : PL → data;
  (** [PacketList.fromBinary(bytes, allowedPackets, config,
      new MessageGrammarValidator(), delayErrors)] *)
  fromBinary : data → bool → result PL
}.

(** The calls into the collaborators that do cryptographic work or touch the
    inner packet list, in the order they are made. *)
Inductive event :=
| EvRandom (n : Z)
| EvHKDF (key : bytes) (salt : jsval) (info : bytes) (length : Z)
| EvModeNew (cipher : jsval) (key : bytes)
| EvCrypt (fn : direction) (final : bool) (chunk nonce adata : bytes)
| EvDigest (b : bytes)
| EvCFB (fn : direction) (key input iv : bytes)
| EvPacketsWrite
| EvFromBinary (d : data) (delayErrors : bool).

(** Computations that log their calls and may throw. *)
Definition M (A : Type) : Type := (list event * result A)%type.

Definition ret {A} (a : A) : M A := ([], inr a).
Definition throw {A} (e : error) : M A := ([], inl e).
Definition emit (ev : event) : M unit := ([ev], inr tt).
Definition lift {A} (r : result A) : M A := ([], r).
Definition bind {A B} (m : M A) (k : A → M B) : M B :=
  match m with
  | (t, inl e) => (t, inl e)
  | (t, inr a) => let '(t', r) := k a in (t ++ t', r)
  end.

Notation "'do' x <- m ; k" := (bind m (λ x, k))
  (at level 10, x pattern, m at level 100, k at level 200).
Notation "m ;; k" := (bind m (λ _, k))
  (at level 100, k at level 200, right associativity).

(** ** enums.packet *)

(** The packet type of the class itself, "(Tag 18)" in its header comment. *)
Definition symEncryptedIntegrityProtectedData : Z := 18.

(** Modelled from the spec: [enums.packet.aeadEncryptedData] (src/enums.js is
    not among the sources), the packet type of the "sibling raw-AEAD packet
    family", 20 in the OpenPGP registry. *)
Definition aeadEncryptedData : Z := 20.

(** ** The packet *)

Record Config := {
  aeadChunkSizeByte : jsval;
  allowUnauthenticatedStream : bool
}.

Record SymEncryptedIntegrityProtectedDataPacket (PL : Type) := {
  version : jsval;
  cipherAlgorithm : jsval;
  aeadAlgorithm : jsval;
  chunkSizeByte : jsval;
  salt : jsval;
  encrypted : option data;
  packets : option PL
}.
Arguments version {PL}. Arguments cipherAlgorithm {PL}.
Arguments aeadAlgorithm {PL}. Arguments chunkSizeByte {PL}.
Arguments salt {PL}. Arguments encrypted {PL}. Arguments packets {PL}.

(** [new SymEncryptedIntegrityProtectedDataPacket()] *)
Definition constructor {PL} : SymEncryptedIntegrityProtectedDataPacket PL :=
  {| version := JNull; cipherAlgorithm := JNull; aeadAlgorithm := JNull;
     chunkSizeByte := JNull; salt := JNull; encrypted := None;
     packets := None |}.

(** What [runAEAD] looks at in its [packet] argument: whether it is an
    instance of the SEIPD class, its [constructor.tag], and its fields
    ([iv] exists on the AEAD-encrypted-data packet only). *)
Record Packet := {
  pk_instanceof_SEIPD : bool;
  pk_tag : Z;
  pk_version : jsval;
  pk_cipherAlgorithm : jsval;
  pk_aeadAlgorithm : jsval;
  pk_chunkSizeByte : jsval;
  pk_salt : jsval;
  pk_iv : bytes
}.

(** A SEIPD packet as [runAEAD] sees it. *)
Definition as_packet {PL} (p : SymEncryptedIntegrityProtectedDataPacket PL) : Packet :=
  {| pk_instanceof_SEIPD := true;
     pk_tag := symEncryptedIntegrityProtectedData;
     pk_version := version p;
     pk_cipherAlgorithm := cipherAlgorithm p;
     pk_aeadAlgorithm := aeadAlgorithm p;
     pk_chunkSizeByte := chunkSizeByte p;
     pk_salt := salt p;
     pk_iv := [] |}.

(** ** runAEAD *)

(** [2 ** (chunkSizeByte + 6)]; [None] is [NaN].  Numbers are integers here:
    every length the engine computes stays far below 2^53 or only bounds a
    read from above. *)
Definition chunk_bytes (c : jsval) : option Z :=
  match c with
  | JNum n => Some (2 ^ (n + 6))
  | JNull => Some 64
  | _ => None
  end.

(** The mutable state of one run: the reader, the counters, the two buffers
    that are rewritten in place ([iv] and [adataBuffer]), the sink (whether
    the writer pushes onto the output [ArrayStream], which is the case when
    [util.isStream(readable) === 'array'], or writes to a web stream; the
    chunks written so far; the error it was aborted with) and the log of the
    calls made to the mode instance. *)
Record Engine := {
  reader : Reader;
  chunkIndex : Z;
  cryptedBytes : Z;
  queuedBytes : Z;
  iv : bytes;
  adataBuffer : bytes;
  arrayWriter : bool;
  written : list bytes;
  aborted : option error;
  calls : list event
}.

(** [writer.abort(e)]: the first error stays. *)
Definition abort (e : error) (st : Engine) : Engine :=
  {| reader := reader st; chunkIndex := chunkIndex st;
     cryptedBytes := cryptedBytes st; queuedBytes := queuedBytes st;
     iv := iv st; adataBuffer := adataBuffer st;
     arrayWriter := arrayWriter st; written := written st;
     aborted := match aborted st with Some e0 => Some e0 | None => Some e end;
     calls := calls st |}.

(** One link of [latestPromise]: write the chunk once it is there, abort the
    sink when the mode call failed.  After an abort the writer of an
    [ArrayStream] still pushes the chunk onto the array, while a web stream
    rejects the write, which leads to another [abort] that changes nothing.
    Returns the sink and the number of bytes taken off [queuedBytes]. *)
Definition write_link (array : bool) (crypted : result bytes) (w : list bytes)
    (a : option error) : list bytes * option error * Z :=
  match crypted, a with
  | inr c, None => (w ++ [c], None, len c)
  | inr c, Some e => if array then (w ++ [c], Some e, len c) else (w, Some e, 0)
  | inl e, None => (w, Some e, 0)
  | inl _, Some e0 => (w, Some e0, 0)
  end.

Section RunAEAD.

Context (isSEIPDv2 isAEADP : bool) (fn : direction)
        (mode : AEADMode) (modeInstance : ModeInstance)
        (chunkSize : option Z).

Definition tagLengthIfDecrypting : Z :=
  match fn with Decrypt => tagLength mode | Encrypt => 0 end.
Definition tagLengthIfEncrypting : Z :=
  match fn with Encrypt => tagLength mode | Decrypt => 0 end.
Definition chunkIndexSizeIfAEADEP : Z := if isAEADP then 8 else 0.

(** [new Uint8Array(adataBuffer, 0, 5 + chunkIndexSizeIfAEADEP)] *)
Definition adataArray (buf : bytes) : bytes :=
  take (Z.to_nat (5 + chunkIndexSizeIfAEADEP)) buf.
(** [new Uint8Array(adataBuffer)] *)
Definition adataTagArray (buf : bytes) : bytes := buf.
(** [new Uint8Array(adataBuffer, 5, 8)] *)
Definition chunkIndexArray (buf : bytes) : bytes := take 8 (drop 5 buf).

(** The nonce of the chunk about to be processed. *)
Definition chunk_nonce (st : Engine) : bytes :=
  if isSEIPDv2 then iv st
  else
    foldl (λ nonce i,
             ta_set nonce (len (iv st) - 8 + i)
               (Z.lxor (ta_get nonce (len (iv st) - 8 + i))
                       (ta_get (chunkIndexArray (adataBuffer st)) i)))
          (iv st) (seqZ 0 8).

(** One turn of the [while (true)] loop.  The boolean tells whether the
    loop goes on. *)
Definition loop_body (st : Engine) : Engine * bool :=
  match readBytes (reader st)
          (fmap (λ n, n + tagLengthIfDecrypting) chunkSize) with
  | inl e => (abort e st, false)
  | inr (read, rd) =>
      let chunk0 := default [] read in
      let finalChunk :=
        subarray_from chunk0 (len chunk0 - tagLengthIfDecrypting) in
      let chunk := subarray chunk0 0 (len chunk0 - tagLengthIfDecrypting) in
      let nonce := chunk_nonce st in
      if (chunkIndex st =? 0) || negb (len chunk =? 0) then
        let rd := unshift rd finalChunk in
        let adata := adataArray (adataBuffer st) in
        let crypted := mi_run modeInstance fn chunk nonce adata in
        let queued := queuedBytes st + (len chunk - tagLengthIfDecrypting
                                        + tagLengthIfEncrypting) in
        let cryptedB := cryptedBytes st + (len chunk - tagLengthIfDecrypting) in
        let '(w, a, n) :=
          write_link (arrayWriter st) crypted (written st) (aborted st) in
        let st1 :=
          {| reader := rd; chunkIndex := chunkIndex st;
             cryptedBytes := cryptedB; queuedBytes := queued - n;
             iv := iv st; adataBuffer := adataBuffer st;
             arrayWriter := arrayWriter st; written := w; aborted := a;
             calls := calls st ++ [EvCrypt fn false chunk nonce adata] |} in
        let index := chunkIndex st + 1 in
        if isSEIPDv2 then
          match setInt32 (iv st) (len (iv st) - 4) index with
          | inl e => (abort e st1, false)
          | inr iv' =>
              ({| reader := rd; chunkIndex := index;
                  cryptedBytes := cryptedB; queuedBytes := queued - n;
                  iv := iv'; adataBuffer := adataBuffer st;
                  arrayWriter := arrayWriter st; written := w; aborted := a;
                  calls := calls st1 |}, true)
          end
        else
          match setInt32 (adataBuffer st) (5 + 4) index with
          | inl e => (abort e st1, false)
          | inr buf' =>
              ({| reader := rd; chunkIndex := index;
                  cryptedBytes := cryptedB; queuedBytes := queued - n;
                  iv := iv st; adataBuffer := buf';
                  arrayWriter := arrayWriter st; written := w; aborted := a;
                  calls := calls st1 |}, true)
          end
      else
        match setInt32 (adataBuffer st) (5 + chunkIndexSizeIfAEADEP + 4)
                (cryptedBytes st) with
        | inl e => (abort e st, false)
        | inr buf' =>
            let adata := adataTagArray buf' in
            let crypted := mi_run modeInstance fn finalChunk nonce adata in
            let queued := queuedBytes st + tagLengthIfEncrypting in
            let cryptedB :=
              cryptedBytes st + (len chunk - tagLengthIfDecrypting) in
            let '(w, a, n) :=
          write_link (arrayWriter st) crypted (written st) (aborted st) in
            ({| reader := rd; chunkIndex := chunkIndex st;
                cryptedBytes := cryptedB; queuedBytes := queued - n;
                iv := iv st; adataBuffer := buf';
                arrayWriter := arrayWriter st; written := w; aborted := a;
                calls := calls st ++ [EvCrypt fn true finalChunk nonce adata] |},
             false)
        end
  end.

(** The loop; [fuel] bounds the number of turns. [None]: out of fuel. *)
Fixpoint loop (fuel : nat) (st : Engine) : option Engine :=
  match fuel with
  | O => None
  | S fuel' =>
      let '(st', continue) := loop_body st in
      if continue then loop fuel' st' else Some st'
  end.

End RunAEAD.

(** The five octets every chunk is authenticated with:
    [0xC0 | tag, version, cipherAlgorithm, aeadAlgorithm, chunkSizeByte]. *)
Definition adata_header (packet : Packet) : bytes :=
  [ u8 (Z.lor 192 (pk_tag packet)); to_u8 (pk_version packet);
    to_u8 (pk_cipherAlgorithm packet); to_u8 (pk_aeadAlgorithm packet);
    to_u8 (pk_chunkSizeByte packet) ].

(** The state [runAEAD] enters its loop with. *)
Definition new_engine (d : data) (iv adataBuffer : bytes) : Engine :=
  {| reader := getReader d; chunkIndex := 0; cryptedBytes := 0;
     queuedBytes := 0; iv := iv; adataBuffer := adataBuffer;
     arrayWriter := match d with Stream _ _ => false | _ => true end;
     written := []; aborted := None; calls := [] |}.

Section Packet_def.

Context `{Crypto} {PL : Type} `{PacketList PL}.

(** [runAEAD(packet, fn, key, data)] *)
Definition runAEAD (packet : Packet) (fn : direction) (key : bytes)
    (d : data) : M data :=
  let isSEIPDv2 :=
    pk_instanceof_SEIPD packet && js_is (pk_version packet) 2 in
  let isAEADP := negb isSEIPDv2 && (pk_tag packet =? aeadEncryptedData) in
  if negb isSEIPDv2 && negb isAEADP then throw UnexpectedPacketType
  else
    do mode <- lift (getAEADMode (pk_aeadAlgorithm packet) isAEADP);
    let chunkSize :=
      fmap (λ n, n + tagLengthIfDecrypting fn mode)
           (chunk_bytes (pk_chunkSizeByte packet)) in
    let adataBuffer :=
      adata_header packet
        ++ zeros (Z.to_nat (8 + chunkIndexSizeIfAEADEP isAEADP)) in
    do keyiv <-
      (if isSEIPDv2 then
         do ps <- lift (getCipherParams (pk_cipherAlgorithm packet));
         let keySize := snd ps in
         let info := take 5 adataBuffer in
         emit (EvHKDF key (pk_salt packet) info (keySize + ivLength mode));;
         do derived <- lift (computeHKDF key (pk_salt packet) info
                               (keySize + ivLength mode));
         let iv := subarray_from derived keySize in
         ret (subarray derived 0 keySize, fill iv 0 (len iv - 8))
       else ret (key, pk_iv packet));
    emit (EvModeNew (pk_cipherAlgorithm packet) (fst keyiv));;
    do modeInstance <-
      lift (mode_new mode (pk_cipherAlgorithm packet) (fst keyiv));
    let st0 := new_engine d (snd keyiv) adataBuffer in
    match loop isSEIPDv2 isAEADP fn mode modeInstance chunkSize
            (S (S (length (data_bytes d)))) st0 with
    | Some st =>
        (calls st, inr (transformed_like d (concat (written st)) (aborted st)))
    | None => (calls st0, inr (transformed_like d [] None))
    end.

(** *** SymEncryptedIntegrityProtectedDataPacket *)

Abbreviation SEIPD := (SymEncryptedIntegrityProtectedDataPacket PL).

(** What a method leaves behind: the calls it made, the packet as it is
    afterwards, and what it returned or threw. *)
Record Outcome (A : Type) := {
  trace : list event;
  this_after : SEIPD;
  returned : result A
}.
Arguments trace {A}. Arguments this_after {A}. Arguments returned {A}.

Definition set_version (this : SEIPD) (v : jsval) : SEIPD :=
  {| version := v; cipherAlgorithm := cipherAlgorithm this;
     aeadAlgorithm := aeadAlgorithm this; chunkSizeByte := chunkSizeByte this;
     salt := salt this; encrypted := encrypted this;
     packets := packets this |}.
Definition set_cipherAlgorithm (this : SEIPD) (v : jsval) : SEIPD :=
  {| version := version this; cipherAlgorithm := v;
     aeadAlgorithm := aeadAlgorithm this; chunkSizeByte := chunkSizeByte this;
     salt := salt this; encrypted := encrypted this;
     packets := packets this |}.
Definition set_aeadAlgorithm (this : SEIPD) (v : jsval) : SEIPD :=
  {| version := version this; cipherAlgorithm := cipherAlgorithm this;
     aeadAlgorithm := v; chunkSizeByte := chunkSizeByte this;
     salt := salt this; encrypted := encrypted this;
     packets := packets this |}.
Definition set_chunkSizeByte (this : SEIPD) (v : jsval) : SEIPD :=
  {| version := version this; cipherAlgorithm := cipherAlgorithm this;
     aeadAlgorithm := aeadAlgorithm this; chunkSizeByte := v;
     salt := salt this; encrypted := encrypted this;
     packets := packets this |}.
Definition set_salt (this : SEIPD) (v : jsval) : SEIPD :=
  {| version := version this; cipherAlgorithm := cipherAlgorithm this;
     aeadAlgorithm := aeadAlgorithm this; chunkSizeByte := chunkSizeByte this;
     salt := v; encrypted := encrypted this; packets := packets this |}.
Definition set_encrypted (this : SEIPD) (d : data) : SEIPD :=
  {| version := version this; cipherAlgorithm := cipherAlgorithm this;
     aeadAlgorithm := aeadAlgorithm this; chunkSizeByte := chunkSizeByte this;
     salt := salt this; encrypted := Some d; packets := packets this |}.
Definition set_packets (this : SEIPD) (pl : PL) : SEIPD :=
  {| version := version this; cipherAlgorithm := cipherAlgorithm this;
     aeadAlgorithm := aeadAlgorithm this; chunkSizeByte := chunkSizeByte this;
     salt := salt this; encrypted := encrypted this; packets := Some pl |}.

(** [SymEncryptedIntegrityProtectedDataPacket.fromObject] *)
Definition fromObject (v aead : jsval) : result SEIPD :=
  if negb (js_is v 1) && negb (js_is v 2) then inl UnsupportedSEIPDVersion
  else
    let seip := set_version constructor v in
    inr (if js_is v 2 then set_aeadAlgorithm seip aead else seip).

(** [read(bytes)] *)
Definition read (this : SEIPD) (input : data) : Outcome unit :=
  let fail this e : Outcome unit :=
    {| trace := []; this_after := this; returned := inl e |} in
  let r := getReader input in
  match readByte r with
  | inl e => fail this e
  | inr (v, r) =>
      let this := set_version this v in
      if negb (js_is v 1) && negb (js_is v 2) then
        fail this (UnsupportedError v)
      else if js_is v 2 then
        match readByte r with
        | inl e => fail this e
        | inr (c, r) =>
            let this := set_cipherAlgorithm this c in
            match readByte r with
            | inl e => fail this e
            | inr (a, r) =>
                let this := set_aeadAlgorithm this a in
                match readByte r with
                | inl e => fail this e
                | inr (k, r) =>
                    let this := set_chunkSizeByte this k in
                    match readBytes r (Some 32) with
                    | inl e => fail this e
                    | inr (s, r) =>
                        let this :=
                          set_salt this
                            (from_option JBytes JUndefined s) in
                        {| trace := [];
                           this_after := set_encrypted this (remainder input r);
                           returned := inr tt |}
                    end
                end
            end
        end
      else
        {| trace := [];
           this_after := set_encrypted this (remainder input r);
           returned := inr tt |}
  end.

(** [write()]; [util.concat] needs every part to be there. *)
Definition write (this : SEIPD) : result data :=
  match encrypted this with
  | None => inl TypeError
  | Some enc =>
      if js_is (version this) 2 then
        match salt this with
        | JBytes s =>
            inr (data_map
                   (λ e, [to_u8 (version this); to_u8 (cipherAlgorithm this);
                          to_u8 (aeadAlgorithm this);
                          to_u8 (chunkSizeByte this)] ++ s ++ e) enc)
        | _ => inl TypeError
        end
      else inr (data_map (λ e, [to_u8 (version this)] ++ e) enc)
  end.

(** Modelled from the spec: [cipherMode.cfb.getPrefixRandom]
    (src/crypto/cipherMode/cfb.js is not among the sources): "draw a random
    block-length prefix, re-inject two bytes of the prefix".  [rnd] is the
    random source of the call. *)
Definition getPrefixRandom (rnd : Z → bytes) (blockSize : Z) : bytes :=
  let prefixrandom := rnd blockSize in
  prefixrandom ++ [ta_get prefixrandom (len prefixrandom - 2);
                   ta_get prefixrandom (len prefixrandom - 1)].

(** [encrypt(sessionKeyAlgorithm, key, config)]; [rnd n] is what
    [getRandomBytes(n)] returns during the call. *)
Definition encrypt (this : SEIPD) (sessionKeyAlgorithm : Z) (key : bytes)
    (config : Config) (rnd : Z → bytes) : Outcome bool :=
  let fail t this e : Outcome bool :=
    {| trace := t; this_after := this; returned := inl e |} in
  match getCipherParams (JNum sessionKeyAlgorithm) with
  | inl e => fail [] this e
  | inr (blockSize, keySize) =>
      if negb (len key =? keySize) then fail [] this UnexpectedSessionKeySize
      else
        match packets this with
        | None => fail [] this TypeError
        | Some pl =>
            let t := [EvPacketsWrite] in
            let bytes := packets_write pl in
            match (if isArrayStream bytes
                   then result_map Uint8Array (streamReadToEnd bytes)
                   else inr bytes) with
            | inl e => fail t this e
            | inr bytes =>
                if js_is (version this) 2 then
                  let this :=
                    set_cipherAlgorithm this (JNum sessionKeyAlgorithm) in
                  let this := set_salt this (JBytes (rnd 32)) in
                  let this :=
                    set_chunkSizeByte this (aeadChunkSizeByte config) in
                  let t := t ++ [EvRandom 32] in
                  match runAEAD (as_packet this) Encrypt key bytes with
                  | (t', inl e) => fail (t ++ t') this e
                  | (t', inr enc) =>
                      {| trace := t ++ t';
                         this_after := set_encrypted this enc;
                         returned := inr true |}
                  end
                else
                  let prefix := getPrefixRandom rnd blockSize in
                  let mdc := [211; 20] in
                  let tohash b := prefix ++ b ++ mdc in
                  let plaintext b := tohash b ++ sha1 (tohash b) in
                  let iv := zeros (Z.to_nat blockSize) in
                  {| trace :=
                       t ++ [EvRandom blockSize;
                             EvDigest (tohash (data_bytes bytes));
                             EvCFB Encrypt key
                               (plaintext (data_bytes bytes)) iv];
                     this_after :=
                       set_encrypted this
                         (data_map
                            (λ b, cfb_encrypt sessionKeyAlgorithm key
                                    (plaintext b) iv) bytes);
                     returned := inr true |}
            end
        end
  end.

(** The part of [decrypt] before [PacketList.fromBinary]: the bytes handed
    to the parser and the [delayErrors] flag. *)
Definition decrypt_payload (this : SEIPD) (sessionKeyAlgorithm : Z)
    (key : bytes) (config : Config) : M (data * bool) :=
  do ps <- lift (getCipherParams (JNum sessionKeyAlgorithm));
  if negb (len key =? snd ps) then throw UnexpectedSessionKeySize
  else
    do encrypted <- lift (match encrypted this with
                          | None => inl TypeError
                          | Some enc => inr enc
                          end);
    do encrypted <- lift (if isArrayStream encrypted
                          then result_map Uint8Array (streamReadToEnd encrypted)
                          else inr encrypted);
    if js_is (version this) 2 then
      if negb (js_is (cipherAlgorithm this) sessionKeyAlgorithm) then
        throw UnexpectedSessionKeyAlgorithm
      else
        do packetbytes <- runAEAD (as_packet this) Decrypt key encrypted;
        ret (packetbytes, false)
    else
      let blockSize := fst ps in
      let iv := zeros (Z.to_nat blockSize) in
      emit (EvCFB Decrypt key (data_bytes encrypted) iv);;
      let decrypted :=
        data_map (λ b, cfb_decrypt sessionKeyAlgorithm key b iv) encrypted in
      let realHash := data_map (λ b, subarray_from b (-20)) decrypted in
      let tohash := data_map (λ b, subarray b 0 (-20)) decrypted in
      emit (EvDigest (data_bytes tohash));;
      let verifyHash : result bytes :=
        match data_err encrypted with
        | Some e => inl e
        | None =>
            if negb (equalsUint8Array (sha1 (data_bytes tohash))
                       (data_bytes realHash))
            then inl ModificationDetected
            else inr []
        end in
      let bytes := data_map (λ b, subarray_from b (blockSize + 2)) tohash in
      let packetbytes := data_map (λ b, subarray b 0 (-2)) bytes in
      let packetbytes := concat_with_async packetbytes verifyHash in
      if isStream encrypted && allowUnauthenticatedStream config then
        ret (packetbytes, true)
      else
        do b <- lift (streamReadToEnd packetbytes);
        ret (Uint8Array b, false).

(** [decrypt(sessionKeyAlgorithm, key, config)] *)
Definition decrypt (this : SEIPD) (sessionKeyAlgorithm : Z) (key : bytes)
    (config : Config) : Outcome bool :=
  match decrypt_payload this sessionKeyAlgorithm key config with
  | (t, inl e) => {| trace := t; this_after := this; returned := inl e |}
  | (t, inr (packetbytes, delayErrors)) =>
      let t := t ++ [EvFromBinary packetbytes delayErrors] in
      match fromBinary packetbytes delayErrors with
      | inl e => {| trace := t; this_after := this; returned := inl e |}
      | inr pl =>
          {| trace := t; this_after := set_packets this pl;
             returned := inr true |}
      end
  end.

End Packet_def.

Arguments trace {PL A}. Arguments this_after {PL A}. Arguments returned {PL A}.

(** ** Vocabulary of the statements *)

(** The calls to the mode instance among the events of a run. *)
Fixpoint crypt_calls (evs : list event) : list event :=
  match evs with
  | [] => []
  | EvCrypt fn final chunk nonce adata :: evs' =>
      EvCrypt fn final chunk nonce adata :: crypt_calls evs'
  | _ :: evs' => crypt_calls evs'
  end.

(** The plaintext bytes of the data chunks of a run whose tags are [t]
    bytes long: [chunk.length - tagLengthIfDecrypting], summed. *)
Definition plain_count (t : Z) (evs : list event) : Z :=
  foldr (λ ev acc, match ev with
                   | EvCrypt _ false c _ _ => len c - t + acc
                   | _ => acc
                   end) 0 evs.

(** The eight-octet counter field as the code fills it, by [setInt32] into
    its low half, and as an eight-octet big-endian number. *)
Definition counter32 (j : Z) : bytes := zeros 4 ++ Z_to_be 4 j.
Definition counter64 (j : Z) : bytes := Z_to_be 8 j.

(** What an AEAD mode instance with tags of [t] bytes owes its callers. *)
Definition aead_expands (t : Z) (inst : ModeInstance) : Prop :=
  ∀ pt nonce ad, ∃ ct,
    mi_encrypt inst pt nonce ad = inr ct ∧ len ct = len pt + t.
Definition aead_shrinks (t : Z) (inst : ModeInstance) : Prop :=
  ∀ ct nonce ad pt,
    mi_decrypt inst ct nonce ad = inr pt -> len ct = len pt + t.
Definition aead_correct (t : Z) (inst : ModeInstance) : Prop :=
  ∀ pt nonce ad, ∃ ct,
    mi_encrypt inst pt nonce ad = inr ct ∧ len ct = len pt + t
    ∧ mi_decrypt inst ct nonce ad = inr pt.

(** Whether each call is the closing one, and the chunk it is given. *)
Definition call_chunks (evs : list event) : list (bool * bytes) :=
  omap (λ ev, match ev with
              | EvCrypt _ final chunk _ _ => Some (final, chunk)
              | _ => None
              end) evs.

(** The preparation of a run of [runAEAD] on a version 2 SEIPD packet goes
    through with [mode] and [inst]: the algorithms are known, HKDF returns as
    many bytes as it is asked for, and the mode accepts the derived key. *)
Definition v2_setup `{Crypto} (packet : Packet) (key : bytes)
    (mode : AEADMode) (inst : ModeInstance) : Prop :=
  ∃ ps derived,
    getAEADMode (pk_aeadAlgorithm packet) false = inr mode
    ∧ getCipherParams (pk_cipherAlgorithm packet) = inr ps
    ∧ 0 <= snd ps
    ∧ computeHKDF key (pk_salt packet) (adata_header packet)
        (snd ps + ivLength mode) = inr derived
    ∧ len derived = snd ps + ivLength mode
    ∧ mode_new mode (pk_cipherAlgorithm packet) (subarray derived 0 (snd ps))
      = inr inst.

Section Laws.
Context `{Crypto} {PL : Type} `{PacketList PL}.

(** What the legacy path needs of its collaborators: the random prefix has
    the block length, SHA-1 digests have 20 bytes, and CFB decryption undoes
    CFB encryption. *)
Definition v1_laws (alg : Z) (key : bytes) (bs : Z) (rnd : Z → bytes) : Prop :=
  0 <= bs ∧ len (rnd bs) = bs ∧ (∀ b, len (sha1 b) = 20)
  ∧ ∀ pt iv, cfb_decrypt alg key (cfb_encrypt alg key pt iv) iv = pt.

(** The packet as [encrypt] has filled it in when it calls [runAEAD]. *)
Definition v2_filled (this : SymEncryptedIntegrityProtectedDataPacket PL)
    (alg : Z) (config : Config) (rnd : Z → bytes) :
    SymEncryptedIntegrityProtectedDataPacket PL :=
  set_chunkSizeByte
    (set_salt (set_cipherAlgorithm this (JNum alg)) (JBytes (rnd 32)))
    (aeadChunkSizeByte config).

(** What the chunked path needs: a chunk size byte [c >= 0], a preparation
    that goes through, an IV that holds the 32-bit counter, and a correct
    mode instance. *)
Definition v2_laws (this : SymEncryptedIntegrityProtectedDataPacket PL)
    (alg : Z) (key : bytes) (config : Config) (rnd : Z → bytes) : Prop :=
  ∃ mode inst c,
    aeadChunkSizeByte config = JNum c ∧ 0 <= c
    ∧ v2_setup (as_packet (v2_filled this alg config rnd)) key mode inst
    ∧ 4 <= ivLength mode ∧ 0 <= tagLength mode
    ∧ aead_correct (tagLength mode) inst.

(** What [read] leaves in a version 2 packet whose header is complete. *)
Definition v2_parsed (this : SymEncryptedIntegrityProtectedDataPacket PL)
    (input : data) (c a k : Z) (s rest : bytes) :
    SymEncryptedIntegrityProtectedDataPacket PL :=
  {| version := JNum 2; cipherAlgorithm := JNum c; aeadAlgorithm := JNum a;
     chunkSizeByte := JNum k; salt := JBytes s;
     encrypted := Some (transformed_like input rest None);
     packets := packets this |}.

(** What it leaves in a version 2 packet whose input ends inside the header,
    [rest] being what follows the version octet: a field past the end of the
    input is [undefined], the salt is what is left after the three octets,
    and nothing remains for the ciphertext. *)
Definition v2_parsed_short (this : SymEncryptedIntegrityProtectedDataPacket PL)
    (input : data) (rest : bytes) :
    SymEncryptedIntegrityProtectedDataPacket PL :=
  {| version := JNum 2;
     cipherAlgorithm := from_option JNum JUndefined (rest !! 0%nat);
     aeadAlgorithm := from_option JNum JUndefined (rest !! 1%nat);
     chunkSizeByte := from_option JNum JUndefined (rest !! 2%nat);
     salt := match drop 3 rest with [] => JUndefined | s => JBytes s end;
     encrypted := Some (transformed_like input [] None);
     packets := packets this |}.

End Laws.

(** ** Invariants of the loop *)

(** The IV of a version 2 run before its first chunk, and the chunk size
    [runAEAD] computes. *)
Definition v2_iv (derived : bytes) (ks : Z) : bytes :=
  fill (subarray_from derived ks) 0 (len (subarray_from derived ks) - 8).

Definition v2_chunkSize (fn : direction) (mode : AEADMode) (packet : Packet) :
    option Z :=
  (λ n, n + tagLengthIfDecrypting fn mode) <$> chunk_bytes (pk_chunkSizeByte packet).

Definition is_crypt (ev : event) : Prop :=
  match ev with EvCrypt _ _ _ _ _ => True | _ => False end.

(** The associated data of the closing chunk and the IV of the next chunk,
    as [setInt32] leaves them. *)
Definition final_adata (st : Engine) : bytes :=
  take 9 (adataBuffer st) ++ Z_to_be 4 (cryptedBytes st)
    ++ drop 13 (adataBuffer st).

Definition next_iv (st : Engine) : bytes :=
  take (Z.to_nat (len (iv st) - 4)) (iv st) ++ Z_to_be 4 (chunkIndex st + 1)
    ++ drop (Z.to_nat (len (iv st) - 4) + 4) (iv st).

(** A state from which a version 2 run meets no error of its own. *)
Record good (st : Engine) : Prop := {
  good_rderr : rd_err (reader st) = None;
  good_sink : aborted st = None;
  good_index : 0 <= chunkIndex st;
  good_iv : 4 <= len (iv st);
  good_buf : length (adataBuffer st) = 13%nat
}.

(** An encrypting and a decrypting state at the same chunk. *)
Record matching (ste std : Engine) : Prop := {
  m_iv : iv std = iv ste;
  m_buf : adataBuffer std = adataBuffer ste;
  m_index : chunkIndex std = chunkIndex ste;
  m_count : cryptedBytes std = cryptedBytes ste;
  m_rderr : rd_err (reader std) = None;
  m_sink : aborted std = None
}.

Section V2_invariant.
Context (fn : direction) (mode : AEADMode) (inst : ModeInstance)
        (chunkSize : option Z) (iv0 buf0 : bytes) (rderr0 : option error)
        (total0 : Z).

(** Every read asks for at least one byte. *)
Definition reads_positive : Prop :=
  ∀ k, chunkSize = Some k -> 0 < k + tagLengthIfDecrypting fn mode.

(** The nonce of chunk [j] of a run that started from the IV [iv0]. *)
Definition nonce_at (j : Z) : bytes :=
  if j =? 0 then iv0 else take (length iv0 - 4) iv0 ++ Z_to_be 4 j.

Definition data_calls_ok (pre : list event) : Prop :=
  ∀ (j : nat) ev, pre !! j = Some ev ->
    ∃ c, ev = EvCrypt fn false c (nonce_at (Z.of_nat j)) (take 5 buf0).

(** What holds whenever the loop of a version 2 run is about to read. *)
Record Running (st : Engine) : Prop := {
  run_index : chunkIndex st = Z.of_nat (length (calls st));
  run_iv : iv st = nonce_at (chunkIndex st);
  run_buf : adataBuffer st = buf0;
  run_count :
    cryptedBytes st = plain_count (tagLengthIfDecrypting fn mode) (calls st);
  run_calls : data_calls_ok (calls st);
  run_rderr : rd_err (reader st) = rderr0;
  run_len : chunkIndex st ≠ 0 -> 4 <= len iv0;
  run_enc : fn = Encrypt -> cryptedBytes st + len (rd_rest (reader st)) = total0;
  run_dec : fn = Decrypt -> aead_shrinks (tagLength mode) inst ->
            aborted st = None -> len (concat (written st)) = cryptedBytes st
}.

(** What holds when it has left the loop. *)
Definition Post (st : Engine) : Prop :=
  ∃ pre, data_calls_ok pre ∧
    ((calls st = pre ∧ (rderr0 ≠ None ∨ len iv0 < 4)) ∨
     (∃ c, calls st
           = pre ++ [EvCrypt fn true c (nonce_at (Z.of_nat (length pre)))
                       (take 9 buf0
                          ++ Z_to_be 4 (plain_count (tagLengthIfDecrypting fn mode) pre))]
           ∧ (fn = Encrypt -> reads_positive ->
              plain_count (tagLengthIfDecrypting fn mode) pre = total0)
           ∧ (fn = Decrypt -> 0 <= tagLength mode ->
              aead_shrinks (tagLength mode) inst -> aborted st = None ->
              len (concat (written st))
              = plain_count (tagLengthIfDecrypting fn mode) pre))).

End V2_invariant.

Section AEADP_invariant.
Context (fn : direction) (hdr : bytes).

Definition calls_okA (evs : list event) : Prop :=
  ∀ (j : nat) ev, evs !! j = Some ev ->
    ∃ fin c n a, ev = EvCrypt fn fin c n a
                 ∧ take 13 a = hdr ++ counter32 (Z.of_nat j).

(** What holds whenever the loop of a run on an AEAD-encrypted-data packet is
    about to read. *)
Record RunningA (st : Engine) : Prop := {
  runA_index : chunkIndex st = Z.of_nat (length (calls st));
  runA_buf : adataBuffer st = hdr ++ counter32 (chunkIndex st) ++ zeros 8;
  runA_calls : calls_okA (calls st)
}.

End AEADP_invariant.

(** ** The write chain of [runAEAD]

    One turn of the loop makes the mode call of its chunk ([cryptedPromise])
    and appends a link to [latestPromise]:
    [latestPromise.then(() => cryptedPromise).then(write).catch(abort)].
    The loop then goes on to the next chunk without waiting, unless
    [done || queuedBytes > writer.desiredSize], in which case it sits in
    [await latestPromise].  The mode calls return in any order; a link runs
    once its own call has returned and the links before it have run.  The
    calls are numbered in the order the loop makes them. *)

(** How a turn of the loop ends: it goes on to the next chunk, it was the
    closing one ([done]), or it threw. *)
Inductive turn_end :=
| Goes_on
| Closes
| Throws (e : error).

Section Pipeline_def.

Context (isSEIPDv2 isAEADP : bool) (fn : direction)
        (mode : AEADMode) (modeInstance : ModeInstance)
        (chunkSize : option Z).

(** What a turn of the [while (true)] loop does itself, the link it appends
    to [latestPromise] left aside: the state it leaves, the mode call it
    made, if it came that far, and how it ends. *)
Definition turn (st : Engine) : Engine * option event * turn_end :=
  match readBytes (reader st)
          (fmap (λ n, n + tagLengthIfDecrypting fn mode) chunkSize) with
  | inl e => (st, None, Throws e)
  | inr (read, rd) =>
      let chunk0 := default [] read in
      let finalChunk :=
        subarray_from chunk0 (len chunk0 - tagLengthIfDecrypting fn mode) in
      let chunk :=
        subarray chunk0 0 (len chunk0 - tagLengthIfDecrypting fn mode) in
      let nonce := chunk_nonce isSEIPDv2 st in
      if (chunkIndex st =? 0) || negb (len chunk =? 0) then
        let rd := unshift rd finalChunk in
        let adata := adataArray isAEADP (adataBuffer st) in
        let call := EvCrypt fn false chunk nonce adata in
        let queued := queuedBytes st + (len chunk - tagLengthIfDecrypting fn mode
                                        + tagLengthIfEncrypting fn mode) in
        let cryptedB :=
          cryptedBytes st + (len chunk - tagLengthIfDecrypting fn mode) in
        let index := chunkIndex st + 1 in
        let st1 iv' buf' index' :=
          {| reader := rd; chunkIndex := index';
             cryptedBytes := cryptedB; queuedBytes := queued;
             iv := iv'; adataBuffer := buf';
             arrayWriter := arrayWriter st; written := written st;
             aborted := aborted st; calls := calls st ++ [call] |} in
        if isSEIPDv2 then
          match setInt32 (iv st) (len (iv st) - 4) index with
          | inl e =>
              (st1 (iv st) (adataBuffer st) (chunkIndex st), Some call, Throws e)
          | inr iv' => (st1 iv' (adataBuffer st) index, Some call, Goes_on)
          end
        else
          match setInt32 (adataBuffer st) (5 + 4) index with
          | inl e =>
              (st1 (iv st) (adataBuffer st) (chunkIndex st), Some call, Throws e)
          | inr buf' => (st1 (iv st) buf' index, Some call, Goes_on)
          end
      else
        match setInt32 (adataBuffer st)
                (5 + chunkIndexSizeIfAEADEP isAEADP + 4) (cryptedBytes st) with
        | inl e => (st, None, Throws e)
        | inr buf' =>
            let adata := adataTagArray buf' in
            let call := EvCrypt fn true finalChunk nonce adata in
            ({| reader := rd; chunkIndex := chunkIndex st;
                cryptedBytes :=
                  cryptedBytes st + (len chunk - tagLengthIfDecrypting fn mode);
                queuedBytes := queuedBytes st + tagLengthIfEncrypting fn mode;
                iv := iv st; adataBuffer := buf';
                arrayWriter := arrayWriter st; written := written st;
                aborted := aborted st; calls := calls st ++ [call] |},
             Some call, Closes)
        end
  end.

(** What the mode call [ev] returns. *)
Definition crypted_of (ev : event) : option (result bytes) :=
  match ev with
  | EvCrypt fn final chunk nonce adata =>
      Some (mi_run modeInstance fn chunk nonce adata)
  | _ => None
  end.

(** What it writes when its link runs without a failure. *)
Definition written_by (ev : event) : option bytes :=
  match crypted_of ev with Some (inr c) => Some c | _ => None end.

(** The link of a mode call runs: [write_link] on the sink of the run. *)
Definition run_link (crypted : result bytes) (st : Engine) : Engine :=
  let '(w, a, n) :=
    write_link (arrayWriter st) crypted (written st) (aborted st) in
  {| reader := reader st; chunkIndex := chunkIndex st;
     cryptedBytes := cryptedBytes st; queuedBytes := queuedBytes st - n;
     iv := iv st; adataBuffer := adataBuffer st;
     arrayWriter := arrayWriter st; written := w; aborted := a;
     calls := calls st |}.

(** Where the loop is. *)
Inductive loop_status :=
| Reading                 (* about to read the next chunk *)
| Awaiting (done : bool)  (* in [await latestPromise] *)
| Caught (e : error)      (* in the [catch] block, before [writer.abort(e)] *)
| Left.                   (* the function has returned *)

Record Pipeline := {
  eng : Engine;           (* the variables of the run and its sink *)
  status : loop_status;
  settled : list nat;     (* the mode calls that have returned *)
  links : nat;            (* the links of [latestPromise] that have run *)
  closed : bool           (* [writer.close()] was called *)
}.

Definition pipeline_start (st : Engine) : Pipeline :=
  {| eng := st; status := Reading; settled := []; links := 0; closed := false |}.

Inductive pstep : Pipeline → Pipeline → Prop :=
| step_turn s st1 call e (wait : bool) :
    (* the loop takes a turn; whether it then waits for [latestPromise]
       depends on [writer.desiredSize], except after the closing chunk *)
    status s = Reading -> turn (eng s) = (st1, call, e) ->
    pstep s {| eng := st1;
               status := match e with
                         | Goes_on => if wait then Awaiting false else Reading
                         | Closes => Awaiting true
                         | Throws e => Caught e
                         end;
               settled := settled s; links := links s; closed := closed s |}
| step_settle s (n : nat) :
    (* the mode call number [n] returns *)
    (n < length (calls (eng s)))%nat -> n ∉ settled s ->
    pstep s {| eng := eng s; status := status s;
               settled := settled s ++ [n]; links := links s;
               closed := closed s |}
| step_link s ev crypted :
    (* the next link runs: the links before it have run and its own mode
       call has returned *)
    calls (eng s) !! links s = Some ev -> crypted_of ev = Some crypted ->
    links s ∈ settled s ->
    pstep s {| eng := run_link crypted (eng s); status := status s;
               settled := settled s; links := S (links s);
               closed := closed s |}
| step_resume s (done : bool) :
    (* [await latestPromise] returns when every link has run; after the
       closing chunk the loop closes the writer and leaves *)
    status s = Awaiting done -> links s = length (calls (eng s)) ->
    pstep s {| eng := eng s; status := if done then Left else Reading;
               settled := settled s; links := links s;
               closed := closed s || done |}
| step_catch s e :
    (* the [catch] block aborts the writer *)
    status s = Caught e ->
    pstep s {| eng := abort e (eng s); status := Left;
               settled := settled s; links := links s; closed := closed s |}.

(** The states of the runs that start as [runAEAD] enters its loop. *)
Definition reachable (st0 : Engine) (s : Pipeline) : Prop :=
  rtc pstep (pipeline_start st0) s.

End Pipeline_def.

(** Call numbers in strictly increasing order. *)
Definition increasing (js : list nat) : Prop :=
  ∀ (i i' j j' : nat),
    (i < i')%nat -> js !! i = Some j -> js !! i' = Some j' -> (j < j')%nat.

(** The results [ws] are those of the calls numbered [js] among [evs]. *)
Definition results_of (inst : ModeInstance) (evs : list event)
    (js : list nat) (ws : list bytes) : Prop :=
  Forall2 (λ j w, ∃ ev, evs !! j = Some ev ∧ written_by inst ev = Some w) js ws.

(** What holds in every state of such a run. *)
Record pipeline_inv (fn : direction) (inst : ModeInstance) (s : Pipeline) :
    Prop := {
  inv_crypt : Forall is_crypt (calls (eng s));
  inv_links : (links s <= length (calls (eng s)))%nat;
  inv_settled : Forall (λ n, (n < length (calls (eng s)))%nat) (settled s);
  inv_order :
    ∃ js, increasing js ∧ Forall (λ j, (j < links s)%nat) js
          ∧ results_of inst (calls (eng s)) js (written (eng s));
  inv_all :
    arrayWriter (eng s) = true ∨ aborted (eng s) = None ->
    written (eng s) = omap (written_by inst) (take (links s) (calls (eng s)));
  inv_closed :
    closed s = true -> status s = Left ∧ links s = length (calls (eng s));
  inv_final :
    ∀ j fn' c n a, calls (eng s) !! j = Some (EvCrypt fn' true c n a) ->
      S j = length (calls (eng s))
      ∧ (status s = Awaiting true ∨ status s = Left);
  inv_done :
    status s = Awaiting true ∨ closed s = true ->
    ∃ c n a, last (calls (eng s)) = Some (EvCrypt fn true c n a)
}.

(** What agrees between two states of the loop whatever the links did. *)
Definition same_loop (a b : Engine) : Prop :=
  reader a = reader b ∧ chunkIndex a = chunkIndex b
  ∧ cryptedBytes a = cryptedBytes b ∧ iv a = iv b
  ∧ adataBuffer a = adataBuffer b ∧ arrayWriter a = arrayWriter b
  ∧ calls a = calls b.

(** A state of a pipelined run follows the loop as [body] runs it, link by
    link: while the loop reads it is where [body] is after as many turns,
    afterwards it is where [body] has left the loop. *)
Definition follows (body : Engine → Engine * bool) (st0 : Engine)
    (s : Pipeline) : Prop :=
  ∃ st, same_loop (eng s) st
        ∧ match status s with
          | Reading | Awaiting false => rtc (λ a b, body a = (b, true)) st0 st
          | _ => ∃ st', rtc (λ a b, body a = (b, true)) st0 st'
                        ∧ body st' = (st, false)
          end.

(** ** Small collaborators, to run the model on *)

Definition sumZ (l : bytes) : Z := foldr Z.add 0 l.

(** A 16-byte "block cipher": position-wise sum of key and block. *)
Definition toy_E (key block : bytes) : bytes :=
  map (λ i, u8 (ta_get key i + ta_get block i + 1)) (seqZ 0 16).

(** An AEAD mode that leaves the plaintext in the clear and appends a
    checksum of nonce, associated data and plaintext as its tag. *)
Definition toy_tag (t : Z) (nonce adata pt : bytes) : bytes :=
  map (λ i, u8 (i + sumZ nonce + 3 * sumZ adata + 5 * sumZ pt)) (seqZ 0 t).

Definition toy_instance (t : Z) : ModeInstance :=
  {| mi_encrypt pt nonce adata := inr (pt ++ toy_tag t nonce adata pt);
     mi_decrypt ct nonce adata :=
       if len ct <? t then inl (External 2)
       else
         let pt := take (length ct - Z.to_nat t) ct in
         let tag := drop (length ct - Z.to_nat t) ct in
         if bool_decide (tag = toy_tag t nonce adata pt) then inr pt
         else inl (External 2) |}.

Definition toy_mode (t ivl : Z) : AEADMode :=
  {| tagLength := t; ivLength := ivl; mode_new _ _ := inr (toy_instance t) |}.

Definition toy_crypto : Crypto :=
  {| getCipherParams a :=
       match a with
       | JNum 7 => inr (16, 16)
       | JNum 9 => inr (16, 32)
       | _ => inl (External 1)
       end;
     getAEADMode a _ :=
       match a with
       | JNum 1 => inr (toy_mode 16 16)
       | JNum 2 => inr (toy_mode 16 15)
       | JNum 3 => inr (toy_mode 16 12)
       | _ => inl (External 3)
       end;
     computeHKDF key salt info n :=
       inr (map (λ i, u8 (i * 7 + sumZ key + sumZ info)) (seqZ 0 n));
     sha1 b := map (λ i, u8 (i + sumZ b)) (seqZ 0 20);
     cfb_encrypt _ key pt _ := map (λ x, Z.lxor x (u8 (sumZ key))) pt;
     cfb_decrypt _ key ct _ := map (λ x, Z.lxor x (u8 (sumZ key))) ct |}.

(** Packet lists that are their own serialisation. *)
Definition toy_packetlist : PacketList bytes :=
  {| packets_write b := Uint8Array b; fromBinary d _ := streamReadToEnd d |}.

Definition toy_key : bytes := seqZ 1 16.
Definition toy_rnd (n : Z) : bytes := seqZ 100 n.
Definition toy_config : Config :=
  {| aeadChunkSizeByte := JNum 0; allowUnauthenticatedStream := false |}.

Definition toy_seipd (v : Z) (pl : bytes) :
    SymEncryptedIntegrityProtectedDataPacket bytes :=
  {| version := JNum v; cipherAlgorithm := JNull; aeadAlgorithm := JNum 3;
     chunkSizeByte := JNull; salt := JNull; encrypted := None;
     packets := Some pl |}.

(** A version 2 packet as [encrypt] has filled it in. *)
Definition toy_packet : Packet :=
  {| pk_instanceof_SEIPD := true;
     pk_tag := symEncryptedIntegrityProtectedData;
     pk_version := JNum 2; pk_cipherAlgorithm := JNum 7;
     pk_aeadAlgorithm := JNum 3; pk_chunkSizeByte := JNum 0;
     pk_salt := JBytes (toy_rnd 32); pk_iv := [] |}.

(** A version 1 packet as received, with a ciphertext that was not produced
    by [encrypt]. *)
Definition toy_ciphertext : bytes := seqZ 0 45.
Definition toy_received : SymEncryptedIntegrityProtectedDataPacket bytes :=
  {| version := JNum 1; cipherAlgorithm := JNull; aeadAlgorithm := JNull;
     chunkSizeByte := JNull; salt := JNull;
     encrypted := Some (Uint8Array toy_ciphertext); packets := None |}.

Definition toy_plaintext : data := Uint8Array (seqZ 0 200).

(** The state in which [runAEAD] enters its loop on [toy_packet] and
    [toy_plaintext]. *)
Definition toy_engine : Engine :=
  new_engine toy_plaintext
    (match @computeHKDF toy_crypto toy_key (pk_salt toy_packet)
             (adata_header toy_packet) 28 with
     | inr derived => v2_iv derived 16
     | inl _ => []
     end)
    (adata_header toy_packet ++ zeros 8).

(** ** More on crypto/cmac.js *)

(** The values a typed array holds. *)
Definition octets (a : bytes) : Prop := Forall (λ x, 0 <= x < 256) a.

(** The test of [pad]: [data.length && data.length % blockLength === 0]. *)
Definition whole_blocks (data : bytes) : bool :=
  negb (len data =? 0) && (len data mod blockLength =? 0).

(** [pad] hands the caller's array itself to [rightXORMut] when it holds whole
    blocks, and a copy otherwise: what the array holds after
    [(await CMAC(key))(data)]. *)
Definition CMAC_leaves (E : bytes → bytes → bytes) (key data : bytes) : bytes :=
  let padding := double (CBC E key zeroBlock) in
  if whole_blocks data then rightXORMut data padding else data.

(** ** Packets as they go on the wire *)

(** A field that [write] stores as it is: a number that fits an octet. *)
Definition is_octet (v : jsval) : bool :=
  match v with JNum n => (0 <=? n) && (n <? 256) | _ => false end.

(** A packet with the fields of its version in place: version 1, or version 2
    with three octets and a salt of 32 bytes. *)
Definition wire_form {PL} (p : SymEncryptedIntegrityProtectedDataPacket PL) : bool :=
  js_is (version p) 1
  || (js_is (version p) 2 && is_octet (cipherAlgorithm p)
      && is_octet (aeadAlgorithm p) && is_octet (chunkSizeByte p)
      && match salt p with JBytes s => (length s =? 32)%nat | _ => false end).

(** ** What a run lets through *)

(** The results of the mode calls [evs] that reach the sink, and the error of
    the first call that failed: a web stream takes the results of the calls
    before that one, the array of an [ArrayStream] the result of every call
    that did not fail. *)
Fixpoint released (array : bool) (inst : ModeInstance) (evs : list event) :
    list bytes * option error :=
  match evs with
  | [] => ([], None)
  | EvCrypt fn final chunk nonce adata :: evs' =>
      match mi_run inst fn chunk nonce adata with
      | inr c => let '(w, e) := released array inst evs' in (c :: w, e)
      | inl e => (if array then (released array inst evs').1 else [], Some e)
      end
  | _ :: evs' => released array inst evs'
  end.

(** The sink holds what the calls so far let through. *)
Definition sink_ok (inst : ModeInstance) (st : Engine) : Prop :=
  written st = (released (arrayWriter st) inst (calls st)).1
  ∧ (∀ e, (released (arrayWriter st) inst (calls st)).2 = Some e ->
          aborted st = Some e).

(** ** Runs on an AEAD-encrypted-data packet *)

(** The nonce of chunk [j]: the counter field, as the code fills it, xored
    into the last eight octets of the IV of the packet. *)
Definition aeadp_nonce (iv : bytes) (j : Z) : bytes :=
  take (length iv - 8) iv ++ xor_block (drop (length iv - 8) iv) (counter32 j).

Section AEADP_run_invariant.
Context (fn : direction) (tag : Z) (hdr iv0 : bytes).

Definition data_calls_A (pre : list event) : Prop :=
  ∀ (j : nat) ev, pre !! j = Some ev ->
    ∃ c, ev = EvCrypt fn false c (aeadp_nonce iv0 (Z.of_nat j))
                (hdr ++ counter32 (Z.of_nat j)).

(** What holds whenever the loop is about to read. *)
Record RunningA2 (st : Engine) : Prop := {
  runA2_index : chunkIndex st = Z.of_nat (length (calls st));
  runA2_buf : adataBuffer st = hdr ++ counter32 (chunkIndex st) ++ zeros 8;
  runA2_iv : iv st = iv0;
  runA2_count : cryptedBytes st = plain_count tag (calls st);
  runA2_calls : data_calls_A (calls st)
}.

(** What holds when it has left the loop. *)
Definition PostA (rderr : option error) (st : Engine) : Prop :=
  ∃ pre, data_calls_A pre ∧
    ((calls st = pre ∧ rderr ≠ None)
     ∨ ∃ c, calls st
            = pre ++ [EvCrypt fn true c (aeadp_nonce iv0 (Z.of_nat (length pre)))
                        (hdr ++ counter32 (Z.of_nat (length pre)) ++ zeros 4
                           ++ Z_to_be 4 (plain_count tag pre))]).

End AEADP_run_invariant.

(** A state from which a run on an AEAD-encrypted-data packet meets no error
    of its own. *)
Record goodA (st : Engine) : Prop := {
  goodA_rderr : rd_err (reader st) = None;
  goodA_sink : aborted st = None;
  goodA_index : 0 <= chunkIndex st;
  goodA_buf : length (adataBuffer st) = 21%nat
}.

(** ** More packets to run the model on *)

(** A version 2 packet ready to be written. *)
Definition toy_wire : SymEncryptedIntegrityProtectedDataPacket bytes :=
  {| version := JNum 2; cipherAlgorithm := JNum 7; aeadAlgorithm := JNum 3;
     chunkSizeByte := JNum 0; salt := JBytes (toy_rnd 32);
     encrypted := Some (Uint8Array toy_ciphertext); packets := None |}.

(** A version 2 packet that asks for an AEAD mode nobody knows. *)
Definition toy_unknown_mode : SymEncryptedIntegrityProtectedDataPacket bytes :=
  {| version := JNum 2; cipherAlgorithm := JNull; aeadAlgorithm := JNum 99;
     chunkSizeByte := JNull; salt := JNull; encrypted := None;
     packets := Some [1; 2; 3] |}.

(** A version 1 packet whose ciphertext arrives as a stream, and a
    configuration that lets it through unauthenticated. *)
Definition toy_streamed : SymEncryptedIntegrityProtectedDataPacket bytes :=
  {| version := JNum 1; cipherAlgorithm := JNull; aeadAlgorithm := JNull;
     chunkSizeByte := JNull; salt := JNull;
     encrypted := Some (Stream toy_ciphertext None); packets := None |}.
Definition toy_config_deferred : Config :=
  {| aeadChunkSizeByte := JNum 0; allowUnauthenticatedStream := true |}.

(** A version 1 packet whose plaintext has a valid digest but neither the
    repeated prefix octets nor the marker [0xD3 0x14]. *)
Definition toy_unmarked_plain : bytes :=
  seqZ 0 18 ++ [7; 8; 9] ++ [0; 0]
    ++ @sha1 toy_crypto (seqZ 0 18 ++ [7; 8; 9] ++ [0; 0]).
Definition toy_unmarked : SymEncryptedIntegrityProtectedDataPacket bytes :=
  {| version := JNum 1; cipherAlgorithm := JNull; aeadAlgorithm := JNull;
     chunkSizeByte := JNull; salt := JNull;
     encrypted :=
       Some (Uint8Array (@cfb_encrypt toy_crypto 7 toy_key toy_unmarked_plain
                           (zeros 16)));
     packets := None |}.

(** An AEAD-encrypted-data packet. *)
Definition toy_aeadp : Packet :=
  {| pk_instanceof_SEIPD := false; pk_tag := aeadEncryptedData;
     pk_version := JNum 1; pk_cipherAlgorithm := JNum 7;
     pk_aeadAlgorithm := JNum 3; pk_chunkSizeByte := JNum 0;
     pk_salt := JUndefined; pk_iv := seqZ 1 12 |}.

(** The ciphertext of [toy_plaintext] under [toy_packet], with one byte of
    its first chunk changed. *)
Definition toy_spoiled : data :=
  match (@runAEAD toy_crypto toy_packet Encrypt toy_key toy_plaintext).2 with
  | inr out => Uint8Array (<[10%nat := 0]> (data_bytes out))
  | inl _ => Uint8Array []
  end.

(** A stream that breaks after ten bytes. *)
Definition toy_broken_stream : data := Stream (seqZ 0 10) (Some (External 9)).

(** ** test/general/testInputs.js *)

(** [String.fromCodePoint(cp)] for one code point: its UTF-16 code units. *)
Definition fromCodePoint (cp : Z) : list Z :=
  if cp <? 65536 then [cp]
  else [55296 + (cp - 65536) / 1024; 56320 + (cp - 65536) mod 1024].

(** The numbers [Math.random()] can return are the doubles in [0, 1).  The
    pair [(m, k)] stands for [m / 2^k]: a double below 1 has a significand
    [m] of at most 53 bits and an exponent [-k] that is not below the one of
    the smallest double. *)
Definition unit_double (r : Z * Z) : Prop :=
  0 <= r.1 < 2 ^ 53 ∧ 0 <= r.2 <= 1074 ∧ r.1 < 2 ^ r.2.

(** [Math.floor(r * n)] for such an [r] and an integer [n]: the product
    [m * n / 2^k] is rounded to 53 significant bits, to nearest and ties to
    even, as the multiplication of doubles does, and then rounded down.
    [rounded] is the numerator of the double product over [2^k]. *)
Definition floor_times (r : Z * Z) (n : Z) : Z :=
  let '(m, k) := r in
  let p := m * n in
  let s := Z.log2 p + 1 - 53 in
  let rounded :=
    if 0 <? s then
      let q := p / 2 ^ s in
      let rest := p mod 2 ^ s in
      let up := (2 ^ (s - 1) <? rest) || ((rest =? 2 ^ (s - 1)) && Z.odd q) in
      (if up then q + 1 else q) * 2 ^ s
    else p in
  rounded / 2 ^ k.

(** [createSomeMessage()]; [random i] is what the call number [i] of
    [Math.random()] returns.  The two string literals start with U+2007, a
    figure space. *)
Definition createSomeMessage (random : nat → Z * Z) : list Z :=
  let arr :=
    map (λ i, floor_times (random i) 10174 + 1) (seq 0 30)
    ++ map (λ i, 128512 + floor_times (random i) (128591 - 128512) + 1)
         (seq 30 10) in
  let replaced :=
    map (λ c, if bool_decide (c ∈ [13; 8232; 8233]) then 10 else c)
      (concat (map fromCodePoint arr)) in
  [8199; 32; 9] ++ replaced
    ++ [8199; 32; 9; 10; 54620; 44397; 50612; 47; 51312; 49440; 47568].

(** ** packet/userid.js *)

Module UserIDPacket.

(** Strings are sequences of UTF-16 code units. *)
Abbreviation jsstring := (list Z).

(** The values a property of the argument of [fromObject] can hold. *)
Inductive value :=
| VUndefined
| VNull
| VBool (b : bool)
| VNum (n : Z)
| VStr (s : jsstring)
| VObj.

(** [ToBoolean] *)
Definition truthy (v : value) : bool :=
  match v with
  | VUndefined | VNull => false
  | VBool b => b
  | VNum n => negb (n =? 0)
  | VStr s => negb (len s =? 0)
  | VObj => true
  end.

(** Modelled from the spec: [util.isString] (src/util.js is not among the
    sources), taken at its name: true of strings and of nothing else. *)
Definition isString (v : value) : bool :=
  match v with VStr _ => true | _ => false end.

(** WhiteSpace and LineTerminator of ECMAScript: what [\s] matches and
    [trim] removes. *)
Definition is_space (c : Z) : bool :=
  bool_decide (c ∈ [9; 10; 11; 12; 13; 32; 160; 5760; 8232; 8233; 8239;
                    8287; 12288; 65279])
  || ((8192 <=? c) && (c <=? 8202)).

(** [s.indexOf(c)] and [s.lastIndexOf(c)] for a single code unit [c]. *)
Fixpoint indexOf_from (s : jsstring) (c i : Z) : Z :=
  match s with
  | [] => -1
  | x :: s' => if x =? c then i else indexOf_from s' c (i + 1)
  end.
Definition indexOf (s : jsstring) (c : Z) : Z := indexOf_from s c 0.

Fixpoint lastIndexOf_from (s : jsstring) (c i : Z) : Z :=
  match s with
  | [] => -1
  | x :: s' =>
      let r := lastIndexOf_from s' c (i + 1) in
      if negb (r =? -1) then r else if x =? c then i else -1
  end.
Definition lastIndexOf (s : jsstring) (c : Z) : Z := lastIndexOf_from s c 0.

(** [s.substring(a, b)]: both ends are clamped to the string and swapped
    when they come in the wrong order. *)
Definition substring (s : jsstring) (a b : Z) : jsstring :=
  let a' := Z.min (Z.max a 0) (len s) in
  let b' := Z.min (Z.max b 0) (len s) in
  take (Z.to_nat (Z.max a' b' - Z.min a' b')) (drop (Z.to_nat (Z.min a' b')) s).

(** [s.trim()] *)
Fixpoint trimStart (s : jsstring) : jsstring :=
  match s with
  | x :: s' => if is_space x then trimStart s' else s
  | [] => []
  end.
Definition trimEnd (s : jsstring) : jsstring := reverse (trimStart (reverse s)).
Definition trim (s : jsstring) : jsstring := trimEnd (trimStart s).

(** [components.join(' ')] *)
Fixpoint join (components : list jsstring) : jsstring :=
  match components with
  | [] => []
  | [c] => c
  | c :: cs => c ++ [32] ++ join cs
  end.

(** [/^[^\s@]+@[^\s@]+$/.test(str)].  Each class runs as far as it can: the
    code unit that ends the first one has to be the [@], so giving some of
    the run back never helps. *)
Definition email_unit (c : Z) : bool := negb (is_space c) && negb (c =? 64).

Fixpoint email_run (s : jsstring) : jsstring * jsstring :=
  match s with
  | x :: s' =>
      if email_unit x then let '(a, r) := email_run s' in (x :: a, r)
      else ([], s)
  | [] => ([], [])
  end.

Definition isValidEmail (str : jsstring) : bool :=
  match email_run str with
  | (_ :: _, 64 :: rest) =>
      match email_run rest with
      | (_ :: _, []) => true
      | _ => false
      end
  | _ => false
  end.

Inductive error :=
| InvalidUserIDFormat   (* [Invalid user ID format] *)
| UserIDTooLong.        (* [User ID string is too long] *)

Record t := {
  userID : jsstring;
  name : value;
  email : value;
  comment : value
}.

(** [new UserIDPacket()] *)
Definition constructor : t :=
  {| userID := []; name := VStr []; email := VStr []; comment := VStr [] |}.

(** [this.name = n; this.email = e; this.comment = c] and
    [this.userID = u]. *)
Definition set_parts (this : t) (n e c : jsstring) : t :=
  {| userID := userID this; name := VStr n; email := VStr e;
     comment := VStr c |}.
Definition set_userID (this : t) (u : jsstring) : t :=
  {| userID := u; name := name this; email := email this;
     comment := comment this |}.

(** The argument of [fromObject]: a string, or an object of which the
    properties [name], [email] and [comment] are looked at; [None] is a
    property that is not there. *)
Record UserIDObject := {
  o_name : option value;
  o_email : option value;
  o_comment : option value
}.

Inductive argument :=
| ArgString (s : jsstring)
| ArgObject (o : UserIDObject).

Section Methods.

(** From [../util], which is not among the sources: the validator of email
    addresses, the two UTF-8 conversions, and [ToString] of the language on
    values that are no strings. *)
Context (isEmailAddress : value → bool)
        (decodeUTF8 : bytes → jsstring) (encodeUTF8 : jsstring → bytes)
        (toString : value → jsstring).

Definition to_string (v : value) : jsstring :=
  match v with VStr s => s | _ => toString v end.

(** [UserIDPacket.fromObject(userID)] *)
Definition fromObject (arg : argument) : error + t :=
  match arg with
  | ArgString _ => inl InvalidUserIDFormat
  | ArgObject o =>
      let get (p : option value) := default VUndefined p in
      if (truthy (get (o_name o)) && negb (isString (get (o_name o))))
         || (truthy (get (o_email o)) && negb (isEmailAddress (get (o_email o))))
         || (truthy (get (o_comment o)) && negb (isString (get (o_comment o))))
      then inl InvalidUserIDFormat
      else
        (* Object.assign(packet, userID) *)
        let packet :=
          {| userID := userID constructor;
             name := default (name constructor) (o_name o);
             email := default (email constructor) (o_email o);
             comment := default (comment constructor) (o_comment o) |} in
        let components :=
          (if truthy (name packet) then [to_string (name packet)] else [])
          ++ (if truthy (comment packet)
              then [[40] ++ to_string (comment packet) ++ [41]] else [])
          ++ (if truthy (email packet)
              then [[60] ++ to_string (email packet) ++ [62]] else []) in
        inr {| userID := join components; name := name packet;
               email := email packet; comment := comment packet |}
  end.

(** [read(bytes, config)]; [maxUserIDLength] is [config.maxUserIDLength]. *)
Definition read (this : t) (bytes : bytes) (maxUserIDLength : Z) :
    t * option error :=
  let userID := decodeUTF8 bytes in
  if maxUserIDLength <? len userID then (this, Some UserIDTooLong)
  else
    let firstBracket := indexOf userID 60 in
    let lastBracket := lastIndexOf userID 62 in
    let this :=
      if negb (firstBracket =? -1) && negb (lastBracket =? -1)
         && (firstBracket <? lastBracket)
      then
        let potentialEmail := substring userID (firstBracket + 1) lastBracket in
        if isValidEmail potentialEmail then
          let beforeEmail := trim (substring userID 0 firstBracket) in
          let firstParen := indexOf beforeEmail 40 in
          let lastParen := lastIndexOf beforeEmail 41 in
          if negb (firstParen =? -1) && negb (lastParen =? -1)
             && (firstParen <? lastParen)
          then
            set_parts this
              (trim (substring beforeEmail 0 firstParen))
              potentialEmail
              (trim (substring beforeEmail (firstParen + 1) lastParen))
          else set_parts this beforeEmail potentialEmail []
        else this
      else if isValidEmail (trim userID) then
        set_parts this [] (trim userID) []
      else this in
    (set_userID this userID, None).

(** [write()] *)
Definition write (this : t) : bytes := encodeUTF8 (userID this).

End Methods.

(** What [read] may leave in [email]. *)
Definition email_shape (s : jsstring) : Prop :=
  ∃ a b, s = a ++ [64] ++ b ∧ a ≠ [] ∧ b ≠ []
         ∧ Forall (λ c, email_unit c = true) a
         ∧ Forall (λ c, email_unit c = true) b.

End UserIDPacket.

(** A validator of email addresses to run the model on: strings that pass
    the test of [read]. *)
Definition toy_isEmailAddress (v : UserIDPacket.value) : bool :=
  match v with
  | UserIDPacket.VStr s => UserIDPacket.isValidEmail s
  | _ => false
  end.

(** * Proofs *)

(** ** Arrays, views and the reader *)

Lemma length_Z_to_be n x : length (Z_to_be n x) = n.
Proof.
  revert x; induction n as [|n IH]; intros x; [done|].
  change (Z_to_be (S n) x) with (Z_to_be n (x / 256) ++ [x mod 256]).
  rewrite length_app, IH. simpl. lia.
Qed.

Lemma len_app (a b : bytes) : len (a ++ b) = len a + len b.
Proof. unfold len. rewrite length_app. lia. Qed.

Lemma len_nil_iff (a : bytes) : (len a =? 0) = true <-> a = [].
Proof.
  unfold len. destruct a as [|x a]; [done|]. split; [|done].
  intros H%Z.eqb_eq. simpl in H. lia.
Qed.

Lemma Z_to_be_S n x : Z_to_be (S n) x = Z_to_be n (x / 256) ++ [x mod 256].
Proof. reflexivity. Qed.

Lemma rel_index_0 a : rel_index a 0 = 0%nat.
Proof. unfold rel_index, len. simpl. lia. Qed.

Lemma rel_index_len a : rel_index a (len a) = length a.
Proof.
  unfold rel_index, len. destruct (Z.ltb_spec (Z.of_nat (length a)) 0); lia.
Qed.

Lemma rel_index_le a i : (rel_index a i <= length a)%nat.
Proof. unfold rel_index, len. destruct (Z.ltb_spec i 0); lia. Qed.

Lemma subarray_split a i : subarray a 0 i ++ subarray_from a i = a.
Proof.
  unfold subarray_from, subarray. rewrite rel_index_0, rel_index_len.
  rewrite drop_0, Nat.sub_0_r.
  rewrite (take_ge (drop _ _)) by (rewrite length_drop; lia).
  apply take_drop.
Qed.

Lemma subarray_prefix a (k : nat) :
  (k <= length a)%nat -> subarray a 0 (Z.of_nat k) = take k a.
Proof.
  intros Hk. unfold subarray. rewrite rel_index_0, drop_0, Nat.sub_0_r.
  f_equal. unfold rel_index, len.
  destruct (Z.ltb_spec (Z.of_nat k) 0); lia.
Qed.

Lemma subarray_from_suffix a (k : nat) :
  (k <= length a)%nat -> subarray_from a (Z.of_nat k) = drop k a.
Proof.
  intros Hk. unfold subarray_from, subarray. rewrite rel_index_len.
  assert (Hr : rel_index a (Z.of_nat k) = k).
  { unfold rel_index, len. destruct (Z.ltb_spec (Z.of_nat k) 0); lia. }
  rewrite Hr. apply take_ge. rewrite length_drop. lia.
Qed.

Lemma setInt32_ok buf off v :
  0 <= off -> off + 4 <= len buf ->
  setInt32 buf off v
  = inr (take (Z.to_nat off) buf ++ Z_to_be 4 v ++ drop (Z.to_nat off + 4) buf).
Proof.
  intros H1 H2. unfold setInt32.
  destruct (Z.ltb_spec off 0); [lia|].
  destruct (Z.ltb_spec (len buf) (off + 4)); [lia|]. done.
Qed.

Lemma setInt32_length buf off v buf' :
  setInt32 buf off v = inr buf' -> length buf' = length buf.
Proof.
  unfold setInt32, len.
  destruct (Z.ltb_spec off 0); [done|].
  destruct (Z.ltb_spec (Z.of_nat (length buf)) (off + 4)); [done|].
  cbn [orb]. intros [= <-].
  rewrite !length_app, length_take. cbn [length]. rewrite length_drop. lia.
Qed.

Lemma setInt32_range buf off v e :
  setInt32 buf off v = inl e -> e = RangeError ∧ (off < 0 ∨ len buf < off + 4).
Proof.
  unfold setInt32.
  destruct (Z.ltb_spec off 0); simpl; [intros [= <-]; split; [done|lia]|].
  destruct (Z.ltb_spec (len buf) (off + 4)); [intros [= <-]; split; [done|lia]|done].
Qed.

(** readBytes facts *)
Lemma readBytes_partition r n read r' :
  readBytes r n = inr (read, r') ->
  rd_rest r = default [] read ++ rd_rest r' ∧ rd_err r' = rd_err r
  ∧ (rd_rest r ≠ [] -> (match n with Some k => 0 < k | None => True end) -> default [] read ≠ []).
Proof.
  unfold readBytes. destruct (rd_rest r) as [|x rest] eqn:Hr.
  - destruct (rd_err r) eqn:He; [done|]. intros [= <- <-]. rewrite Hr. simpl. by rewrite He.
  - destruct n as [k|]; simpl.
    + destruct (Z.leb_spec k (len (x :: rest))).
      * intros [= <- <-]. simpl. rewrite take_drop. split; [done|]. split; [done|].
        intros _ Hk. destruct (Z.to_nat k) eqn:Hz; [lia|]. done.
      * destruct (rd_err r) eqn:He; [done|]. intros [= <- <-]. simpl.
        rewrite app_nil_r. done.
    + destruct (rd_err r) eqn:He; [done|]. intros [= <- <-]. simpl.
      rewrite app_nil_r. done.
Qed.

(** ** crypto/cmac.js *)

Lemma length_double d : length (double d) = length d.
Proof. unfold double. apply length_Z_to_be. Qed.

Lemma length_xor_block a b : length (xor_block a b) = (length a `min` length b)%nat.
Proof. unfold xor_block. apply length_zip_with. Qed.

Lemma ta_get_nat a (i : nat) : ta_get a (Z.of_nat i) = default 0 (a !! i).
Proof. unfold ta_get. destruct (Z.ltb_spec (Z.of_nat i) 0); [lia|]. by rewrite Nat2Z.id. Qed.

Lemma ta_set_nat a (i : nat) v : ta_set a (Z.of_nat i) v = <[i := u8 v]> a.
Proof. unfold ta_set. destruct (Z.ltb_spec (Z.of_nat i) 0); [lia|]. by rewrite Nat2Z.id. Qed.

(* point update fold *)
Lemma xor_into_prefix (d K : bytes) (off k : nat) :
  (off + k <= length d)%nat -> (k <= length K)%nat ->
  foldl (λ d i, ta_set d (i + Z.of_nat off)
                    (Z.lxor (ta_get d (i + Z.of_nat off)) (ta_get K i)))
        d (seqZ 0 (Z.of_nat k))
  = take off d ++ xor_block (take k (drop off d)) (take k K) ++ drop (off + k) d.
Proof.
  induction k as [|k IH]; intros Hd HK.
  - simpl. rewrite Nat.add_0_r. by rewrite take_drop.
  - replace (Z.of_nat (S k)) with (Z.of_nat k + 1) by lia.
    rewrite seqZ_app by lia. rewrite foldl_app. rewrite IH by lia. clear IH.
    replace (seqZ (0 + Z.of_nat k) 1) with [Z.of_nat k]
      by (change 1 with (Z.of_nat 1); unfold seqZ; simpl; f_equal; lia).
    cbn [foldl].
    destruct (lookup_lt_is_Some_2 d (off + k)) as [x Hx]; [lia|].
    destruct (lookup_lt_is_Some_2 K k) as [y Hy]; [lia|].
    replace (Z.of_nat k + Z.of_nat off) with (Z.of_nat (off + k)) by lia.
    rewrite !ta_get_nat, ta_set_nat.
    rewrite Hy. simpl.
    assert (Hl1 : length (take off d) = off) by (rewrite length_take; lia).
    assert (Hl2 : length (xor_block (take k (drop off d)) (take k K)) = k).
    { rewrite length_xor_block, !length_take, length_drop. lia. }
    rewrite (drop_S d x (off + k)) by done.
    rewrite lookup_app_r by lia. rewrite lookup_app_r by lia.
    rewrite Hl1, Hl2. replace (off + k - off - k)%nat with 0%nat by lia. simpl.
    rewrite insert_app_r_alt by lia. rewrite insert_app_r_alt by lia.
    rewrite Hl1, Hl2. replace (off + k - off - k)%nat with 0%nat by lia. simpl.
    f_equal.
    rewrite (take_S_r (drop off d) k x) by (rewrite lookup_drop; done).
    rewrite (take_S_r K k y) by done.
    unfold xor_block. rewrite zip_with_app by (rewrite !length_take, length_drop; lia).
    simpl. rewrite <- app_assoc. simpl. do 3 f_equal. lia.
Qed.

Lemma rightXORMut_spec (d K : bytes) :
  (16 <= length d)%nat -> length K = 16%nat ->
  rightXORMut d K
  = take (length d - 16) d ++ xor_block (drop (length d - 16) d) K.
Proof.
  intros Hd HK. unfold rightXORMut, blockLength, len.
  replace (Z.of_nat (length d) - 16) with (Z.of_nat (length d - 16)) by lia.
  change 16 with (Z.of_nat 16).
  rewrite xor_into_prefix by lia.
  replace (length d - 16 + 16)%nat with (length d) by lia.
  rewrite drop_all, app_nil_r.
  rewrite (take_ge K) by lia.
  rewrite (take_ge (drop _ d)) by (rewrite length_drop; lia).
  done.
Qed.

Section CMAC_proofs.
Context (E : bytes → bytes → bytes).
Hypothesis E_block : ∀ k b, length (E k b) = 16%nat.

Lemma length_cbc_from key n prev pt :
  length (cbc_from E key n prev pt) = (16 * n)%nat.
Proof.
  revert prev pt; induction n as [|n IH]; intros prev pt; simpl; [done|].
  rewrite length_app, E_block, IH. lia.
Qed.

Lemma subarray_from_last (a b : bytes) :
  length b = 16%nat -> subarray_from (a ++ b) (-16) = b.
Proof.
  intros Hb. unfold subarray_from, subarray, rel_index, len.
  rewrite length_app, Hb.
  replace (-16 <? 0) with true by done.
  destruct (Z.ltb_spec (Z.of_nat (length a + 16)) 0); [lia|].
  replace (Z.to_nat (Z.max (Z.of_nat (length a + 16) + -16) 0)) with (length a) by lia.
  rewrite drop_app_length.
  apply take_ge. rewrite Hb. lia.
Qed.

Lemma cbc_from_last key n prev pt :
  subarray_from (cbc_from E key (S n) prev pt) (-16)
  = foldl (λ X M, E key (xor_block M X)) prev (split_blocks (S n) pt).
Proof.
  revert prev pt; induction n as [|n IH]; intros prev pt.
  - simpl. rewrite app_nil_r. apply (subarray_from_last []). apply E_block.
  - change (cbc_from E key (S (S n)) prev pt)
      with (E key (xor_block (take 16 pt) prev)
              ++ cbc_from E key (S n) (E key (xor_block (take 16 pt) prev)) (drop 16 pt)).
    change (split_blocks (S (S n)) pt) with (take 16 pt :: split_blocks (S n) (drop 16 pt)).
    cbn [foldl]. rewrite <- IH.
    set (c := E key _). set (r := cbc_from E key (S n) c _).
    assert (Hr : length r = (16 * S n)%nat) by apply length_cbc_from.
    rewrite <- (take_drop (16 * n) r) at 1.
    rewrite app_assoc.
    rewrite subarray_from_last by (rewrite length_drop; lia).
    rewrite <- (take_drop (16 * n) r) at 2.
    rewrite subarray_from_last by (rewrite length_drop; lia).
    done.
Qed.

Lemma split_blocks_app a b (X Y : bytes) :
  length X = (16 * a)%nat ->
  split_blocks (a + b) (X ++ Y) = split_blocks a X ++ split_blocks b Y.
Proof.
  revert X; induction a as [|a IH]; intros X HX.
  - destruct X; [done|simpl in HX; lia].
  - simpl. rewrite take_app_le by lia. rewrite drop_app_le by lia.
    rewrite IH by (rewrite length_drop; lia). done.
Qed.

Lemma CBC_tag key full (body lastblk : bytes) :
  length body = (16 * full)%nat -> length lastblk = 16%nat ->
  subarray_from (CBC E key (body ++ lastblk)) (-16)
  = cbc_mac E key (split_blocks full body ++ [lastblk]).
Proof.
  intros Hb Hl. unfold CBC, cbc_mac.
  rewrite length_app, Hb, Hl.
  replace ((16 * full + 16) / 16)%nat with (S full).
  2:{ replace (16 * full + 16)%nat with (S full * 16)%nat by lia.
      by rewrite Nat.div_mul. }
  rewrite cbc_from_last. f_equal.
  replace (S full) with (full + 1)%nat by lia.
  rewrite split_blocks_app by done. f_equal.
  simpl. by rewrite take_ge by lia.
Qed.

Lemma pad_complete (data K1 K2 : bytes) :
  length data ≠ 0%nat -> (length data mod 16)%nat = 0%nat ->
  length K1 = 16%nat ->
  pad data K1 K2
  = take (16 * (length data / 16 - 1)) data
      ++ xor_block (drop (16 * (length data / 16 - 1)) data) K1.
Proof.
  intros Hl0 Hm HK1. unfold pad, blockLength, len.
  assert (Hdm := Nat.div_mod_eq (length data) 16).
  destruct (Z.eqb_spec (Z.of_nat (length data)) 0) as [?|_]; [lia|].
  destruct (Z.eqb_spec (Z.of_nat (length data) `mod` 16) 0) as [_|Hne].
  2:{ exfalso. apply Hne. change 16 with (Z.of_nat 16).
      rewrite <- Nat2Z.inj_mod. lia. }
  cbn [negb andb].
  rewrite rightXORMut_spec by lia.
  replace (length data - 16)%nat with (16 * (length data / 16 - 1))%nat by lia.
  done.
Qed.

Lemma pad_incomplete (data K1 K2 : bytes) :
  length data = 0%nat ∨ (length data mod 16)%nat ≠ 0%nat ->
  length K2 = 16%nat ->
  pad data K1 K2
  = take (16 * (length data / 16)) data
      ++ xor_block (drop (16 * (length data / 16)) data ++ [128]
                      ++ zeros (15 - length (drop (16 * (length data / 16)) data)))
                   K2.
Proof.
  intros Hc HK2. unfold pad, blockLength, len.
  assert (Hdm := Nat.div_mod_eq (length data) 16).
  assert (Hmod := Nat.mod_upper_bound (length data) 16 ltac:(lia)).
  assert (Hzm : Z.of_nat (length data) `mod` 16 = Z.of_nat (length data mod 16)).
  { change 16 with (Z.of_nat 16) at 1. by rewrite <- Nat2Z.inj_mod. }
  rewrite Hzm.
  assert (Hsel : negb (Z.of_nat (length data) =? 0)
                 && (Z.of_nat (length data mod 16) =? 0) = false).
  { destruct (Z.eqb_spec (Z.of_nat (length data)) 0); [done|].
    destruct (Z.eqb_spec (Z.of_nat (length data mod 16)) 0); [|done]. lia. }
  rewrite Hsel.
  set (r := (length data mod 16)%nat) in *.
  set (q := (length data / 16)%nat) in *.
  replace (Z.to_nat (16 - Z.of_nat r)) with (S (15 - r)) by lia.
  rewrite ta_set_nat.
  assert (Hpadded : <[length data := u8 128]> (data ++ zeros (S (15 - r)))
                    = data ++ [128] ++ zeros (15 - r)).
  { rewrite insert_app_r_alt by lia. by rewrite Nat.sub_diag. }
  rewrite Hpadded.
  assert (Hlp : length (data ++ [128] ++ zeros (15 - r)) = (16 * q + 16)%nat).
  { rewrite !length_app. unfold zeros. rewrite length_replicate. cbn [length]. lia. }
  rewrite rightXORMut_spec by lia.
  rewrite Hlp, length_drop.
  replace (16 * q + 16 - 16)%nat with (16 * q)%nat by lia.
  rewrite take_app_le by lia. rewrite drop_app_le by lia.
  replace (length data - 16 * q)%nat with r by lia.
  done.
Qed.

(** C4: for every key and message, [CMAC] returns the OMAC1 tag of the
    reference definition: [L = E_K(0^n)], [K1 = double L], [K2 = double K1];
    a message whose length is a positive multiple of 16 gets [K1] xored into
    its last block, any other message (the empty one included) is padded
    with the octet 0x80 and zeros and gets [K2]; the tag is the last block
    of the zero-IV CBC-MAC of the result. *)
Theorem CMAC_computes_omac1 (key data : bytes) :
  CMAC E key data = omac1_spec E key data
  ∧ CMAC E key []
    = E key (xor_block
               (xor_block (128 :: zeros 15) (double (double (E key zeroBlock))))
               zeroBlock).
Proof.
  assert (Hmain : ∀ data, CMAC E key data = omac1_spec E key data).
  { clear data. intros data.
      unfold CMAC, omac1_spec.
      set (L := CBC E key zeroBlock).
      assert (HL : L = E key zeroBlock).
      { unfold L, CBC. change (length zeroBlock / 16)%nat with 1%nat. simpl.
        rewrite app_nil_r. done. }
      rewrite <- HL.
      set (K1 := double L). set (K2 := double K1).
      assert (HK1 : length K1 = 16%nat).
      { unfold K1. rewrite length_double, HL. apply E_block. }
      assert (HK2 : length K2 = 16%nat).
      { unfold K2. by rewrite length_double. }
      assert (Hdm := Nat.div_mod_eq (length data) 16).
      assert (Hmod := Nat.mod_upper_bound (length data) 16 ltac:(lia)).
      destruct (Nat.eqb_spec (length data) 0) as [Hl0|Hl0];
        destruct (Nat.eqb_spec (length data mod 16) 0) as [Hm|Hm]; cbn [negb andb].
      3:{ rewrite pad_complete by done.
          apply CBC_tag.
          - rewrite length_take. lia.
          - rewrite length_xor_block, length_drop. lia. }
      all: rewrite pad_incomplete by (done || auto);
        apply CBC_tag;
        [ rewrite length_take; lia
        | rewrite length_xor_block, !length_app, length_drop; unfold zeros;
          rewrite length_replicate; cbn [length]; lia ].
  }
  split; [apply Hmain|]. rewrite Hmain. reflexivity.
Qed.
End CMAC_proofs.

(** ** The calls of a version 2 run *)

Lemma plain_count_snoc t evs fn c n a :
  plain_count t (evs ++ [EvCrypt fn false c n a]) = plain_count t evs + (len c - t).
Proof.
  induction evs as [|ev evs IH]; simpl; [lia|].
  destruct ev; try apply IH. destruct final; rewrite IH; lia.
Qed.

Lemma setInt32_inr_range buf off v buf' :
  setInt32 buf off v = inr buf' -> 0 <= off ∧ off + 4 <= len buf.
Proof.
  unfold setInt32.
  destruct (Z.ltb_spec off 0); [done|].
  destruct (Z.ltb_spec (len buf) (off + 4)); [done|]. lia.
Qed.

Ltac proj_simpl :=
  cbn [reader chunkIndex cryptedBytes queuedBytes iv adataBuffer arrayWriter
       written aborted calls abort rd_rest rd_err unshift] in *.

Section V2_calls.
Context (fn : direction) (mode : AEADMode) (inst : ModeInstance)
        (chunkSize : option Z) (iv0 buf0 : bytes) (rderr0 : option error)
        (total0 : Z).
Hypothesis Hbuf0 : length buf0 = 13%nat.

#[local] Abbreviation reads_positive := (reads_positive fn mode chunkSize).
#[local] Abbreviation nonce_at := (nonce_at iv0).
#[local] Abbreviation data_calls_ok := (data_calls_ok fn iv0 buf0).
#[local] Abbreviation Running := (Running fn mode inst iv0 buf0 rderr0 total0).
#[local] Abbreviation Post := (Post fn mode inst chunkSize iv0 buf0 rderr0 total0).
#[local] Abbreviation tagDec := (tagLengthIfDecrypting fn mode).
#[local] Abbreviation body := (loop_body true false fn mode inst chunkSize).

Lemma data_calls_ok_snoc pre c :
  data_calls_ok pre ->
  data_calls_ok (pre ++ [EvCrypt fn false c (nonce_at (Z.of_nat (length pre))) (take 5 buf0)]).
Proof.
  intros Hpre j ev Hj.
  destruct (decide (j < length pre)%nat) as [Hlt|Hge].
  - rewrite lookup_app_l in Hj by done. by apply Hpre.
  - rewrite lookup_app_r in Hj by lia.
    destruct (j - length pre)%nat eqn:Hd; [|by destruct n].
    simpl in Hj. injection Hj as <-. exists c.
    replace j with (length pre) by lia. done.
Qed.

Lemma length_nonce_at j : 4 <= len iv0 -> length (nonce_at j) = length iv0.
Proof.
  intros HL. unfold nonce_at, len in *. destruct (j =? 0); [done|].
  rewrite length_app, length_take, length_Z_to_be. lia.
Qed.

Lemma nonce_at_succ j :
  0 <= j -> 4 <= len iv0 ->
  take (Z.to_nat (len iv0 - 4)) (nonce_at j) ++ Z_to_be 4 (j + 1)
    ++ drop (Z.to_nat (len iv0 - 4) + 4) (nonce_at j)
  = nonce_at (j + 1).
Proof.
  intros Hj HL. unfold len in *.
  rewrite (drop_ge (nonce_at j)) by (rewrite length_nonce_at; unfold len; lia).
  rewrite app_nil_r.
  unfold nonce_at at 2. destruct (Z.eqb_spec (j + 1) 0); [lia|].
  replace (Z.to_nat (Z.of_nat (length iv0) - 4)) with (length iv0 - 4)%nat by lia.
  f_equal. unfold nonce_at. destruct (j =? 0); [done|].
  rewrite take_app_le by (rewrite length_take; lia).
  rewrite take_take. f_equal. lia.
Qed.

Lemma body_running st st' :
  Running st -> body st = (st', true) -> Running st'.
Proof.
  intros [Hi Hiv Hb Hc Hcalls Hre Hlen0 Henc Hdec]. unfold loop_body.
  destruct (readBytes _ _) as [e|[read rd]] eqn:Hread; [intros [= <- ?]; done|].
  destruct (readBytes_partition _ _ _ _ Hread) as (Hrest & Herr & _).
  set (chunk0 := default [] read) in *.
  set (chunk := subarray chunk0 0 _). set (finalChunk := subarray_from chunk0 _).
  unfold chunk_nonce.
  assert (Hsplit : chunk ++ finalChunk = chunk0) by apply subarray_split.
  destruct ((chunkIndex st =? 0) || negb (len chunk =? 0)).
  - destruct (write_link _ _ _ _) as [[w a] n] eqn:Hwl.
    destruct (setInt32 (iv st) _ _) as [e|iv'] eqn:Hset; [intros [= <- ?]; done|].
    intros [= <-]. 
    assert (HL : 4 <= len iv0).
    { destruct (Z.eqb_spec (chunkIndex st) 0) as [Hz|Hnz]; [|auto].
      apply setInt32_inr_range in Hset. rewrite Hiv in Hset.
      unfold nonce_at in Hset. rewrite Hz in Hset. simpl in Hset. lia. }
    assert (Hlen : len (iv st) = len iv0).
    { unfold len. rewrite Hiv, length_nonce_at; done. }
    rewrite setInt32_ok in Hset by lia. injection Hset as <-.
    constructor; proj_simpl.
    + rewrite length_app. simpl. lia.
    + rewrite Hlen, Hiv. apply nonce_at_succ; lia.
    + done.
    + rewrite plain_count_snoc. lia.
    + unfold adataArray, chunkIndexSizeIfAEADEP. rewrite Hb, Hiv, Hi.
      change (Z.to_nat (5 + 0)) with 5%nat.
      by apply data_calls_ok_snoc.
    + by rewrite Herr.
    + done.
    + intros Hfn. rewrite <- (Henc Hfn), Hrest, <- Hsplit.
      rewrite Hfn. cbn [tagLengthIfDecrypting].
      unfold len. rewrite !length_app. lia.
    + intros Hfn Hlaw Hab. proj_simpl. subst a.
      rewrite Hfn in Hwl. cbn [mi_run] in Hwl.
      unfold write_link in Hwl.
      destruct (mi_decrypt inst chunk _ _) as [e|p] eqn:Hd;
        destruct (aborted st) eqn:Hab; try done;
        try by destruct (arrayWriter st).
      injection Hwl as <- _. apply Hlaw in Hd.
      rewrite concat_app, len_app, (Hdec Hfn Hlaw eq_refl). cbn [concat].
      rewrite app_nil_r, Hfn. cbn [tagLengthIfDecrypting]. lia.
  - destruct (setInt32 (adataBuffer st) _ _); [intros [= <- ?]; done|].
    destruct (write_link _ _ _ _) as [[w a] n]. intros [= <- ?]; done.
Qed.

Lemma body_post st st' :
  Running st -> body st = (st', false) -> Post st'.
Proof.
  intros [Hi Hiv Hb Hc Hcalls Hre Hlen0 Henc Hdec]. unfold loop_body.
  destruct (readBytes _ _) as [e|[read rd]] eqn:Hread.
  { intros [= <-]. exists (calls st). split; [done|]. left. split; [done|]. left.
    rewrite <- Hre. unfold readBytes in Hread.
    destruct (rd_rest (reader st)); destruct (rd_err (reader st)); try done.
    by destruct (match _ with Some _ => _ | None => _ end). }
  destruct (readBytes_partition _ _ _ _ Hread) as (Hrest & Herr & Hnonempty).
  set (chunk0 := default [] read) in *.
  set (chunk := subarray chunk0 0 _). set (finalChunk := subarray_from chunk0 _).
  unfold chunk_nonce.
  assert (Hsplit : chunk ++ finalChunk = chunk0) by apply subarray_split.
  destruct ((chunkIndex st =? 0) || negb (len chunk =? 0)) eqn:Hbranch.
  - destruct (write_link _ _ _ _) as [[w a] n].
    destruct (setInt32 (iv st) _ _) as [e|iv'] eqn:Hset; [|intros [= <- ?]; done].
    intros [= <-]. proj_simpl.
    exists (calls st ++ [EvCrypt fn false chunk (iv st) (adataArray false (adataBuffer st))]).
    split.
    + unfold adataArray, chunkIndexSizeIfAEADEP. rewrite Hb, Hiv, Hi.
      change (Z.to_nat (5 + 0)) with 5%nat.
      by apply data_calls_ok_snoc.
    + left. split; [done|]. right.
      apply setInt32_range in Hset as [_ Hr].
      destruct (Z.ltb_spec (len iv0) 4); [done|].
      exfalso. assert (len (iv st) = len iv0).
      { unfold len. rewrite Hiv, length_nonce_at; done. }
      unfold len in *. lia.
  - apply orb_false_iff in Hbranch as [_ Hchunk].
    apply negb_false_iff, len_nil_iff in Hchunk.
    unfold chunkIndexSizeIfAEADEP.
    rewrite setInt32_ok by (unfold len; rewrite ?Hb, ?Hbuf0; lia).
    destruct (write_link _ _ _ _) as [[w a] n] eqn:Hwl. intros [= <-]. proj_simpl.
    exists (calls st). split; [done|]. right. exists finalChunk.
    split; [|split].
    + rewrite Hiv, Hi, Hc, Hb. unfold adataTagArray.
      simpl. rewrite (drop_ge buf0) by lia. reflexivity.
    + intros Hfn Hpos. rewrite <- Hc, <- (Henc Hfn).
      destruct (rd_rest (reader st)) as [|x rest] eqn:Hr; [unfold len; simpl; lia|].
      exfalso. apply Hnonempty; [done| |].
      * destruct chunkSize as [k|] eqn:Hcs; [|done].
        cbn [fmap option_fmap option_map]. by apply Hpos.
      * rewrite <- Hsplit, Hchunk. cbn [app]. subst finalChunk.
        rewrite Hfn. cbn [tagLengthIfDecrypting]. rewrite Z.sub_0_r.
        unfold len. rewrite subarray_from_suffix by lia. apply drop_all.
    + intros Hfn Ht Hlaw Hab. proj_simpl. subst a.
      rewrite Hfn in Hwl. cbn [mi_run] in Hwl.
      unfold write_link in Hwl.
      destruct (mi_decrypt inst finalChunk _ _) as [e|p] eqn:Hd;
        destruct (aborted st) eqn:Hab; try done;
        try by destruct (arrayWriter st).
      injection Hwl as <- _. apply Hlaw in Hd.
      rewrite concat_app, len_app, (Hdec Hfn Hlaw eq_refl), <- Hc. cbn [concat].
      rewrite app_nil_r.
      assert (Hfc : finalChunk = chunk0) by (rewrite <- Hsplit, Hchunk; done).
      assert (Hle : len chunk0 <= tagLength mode).
      { assert (Hri : rel_index chunk0 (len chunk0 - tagDec) = 0%nat).
        { assert (Hlc : length chunk = 0%nat) by (by rewrite Hchunk).
          unfold chunk, subarray in Hlc.
          rewrite rel_index_0, drop_0, Nat.sub_0_r, length_take in Hlc.
          pose proof (rel_index_le chunk0 (len chunk0 - tagDec)). lia. }
        rewrite Hfn in Hri. cbn [tagLengthIfDecrypting] in Hri.
        unfold rel_index in Hri.
        destruct (Z.ltb_spec (len chunk0 - tagLength mode) 0); unfold len in *; lia. }
      rewrite Hfc in Hd. unfold len in *. lia.
Qed.

Lemma loop_post fuel st st' :
  Running st -> loop true false fn mode inst chunkSize fuel st = Some st' -> Post st'.
Proof.
  revert st; induction fuel as [|fuel IH]; intros st Hrun; simpl; [done|].
  destruct (body st) as [st1 [|]] eqn:Hb.
  - apply IH. eapply body_running; eauto.
  - intros [= <-]. eapply body_post; eauto.
Qed.
End V2_calls.

(** ** Termination of the loop *)

Lemma readBytes_spec r n :
  rd_err r = None -> 0 < n ->
  readBytes r (Some n)
  = inr (match rd_rest r with
         | [] => None
         | _ => Some (take (Z.to_nat n) (rd_rest r))
         end,
         {| rd_rest := drop (Z.to_nat n) (rd_rest r); rd_err := None |}).
Proof.
  intros He Hn. unfold readBytes. rewrite He.
  destruct r as [rest err]. simpl in *. subst err.
  destruct rest as [|x rest]; [by rewrite drop_nil|].
  cbn [default]. destruct (Z.leb_spec n (len (x :: rest))); [done|].
  rewrite take_ge by (unfold len in *; lia).
  rewrite drop_ge by (unfold len in *; lia). done.
Qed.

Lemma default_read (rest : bytes) k :
  default [] (match rest with [] => None | _ => Some (take k rest) end) = take k rest.
Proof. destruct rest; [by rewrite take_nil|done]. Qed.

Section Loop_general.
Context (isSEIPDv2 isAEADP : bool) (fn : direction) (mode : AEADMode)
        (inst : ModeInstance) (chunkSize : option Z).
#[local] Abbreviation body := (loop_body isSEIPDv2 isAEADP fn mode inst chunkSize).
#[local] Abbreviation lp := (loop isSEIPDv2 isAEADP fn mode inst chunkSize).

Lemma body_continue st st1 :
  body st = (st1, true) ->
  chunkIndex st1 = chunkIndex st + 1 ∧
  ∃ chunk : bytes, (chunkIndex st = 0 ∨ chunk ≠ []) ∧
    length (rd_rest (reader st))
    = (length chunk + length (rd_rest (reader st1)))%nat.
Proof.
  unfold loop_body.
  destruct (readBytes _ _) as [e|[read rd]] eqn:Hread; [intros [= <- ?]; done|].
  destruct (readBytes_partition _ _ _ _ Hread) as (Hrest & Herr & _).
  set (chunk0 := default [] read) in *.
  assert (Hsplit := subarray_split chunk0 (len chunk0 - tagLengthIfDecrypting fn mode)).
  set (chunk := subarray chunk0 0 _) in *. set (finalChunk := subarray_from chunk0 _) in *.
  destruct ((chunkIndex st =? 0) || negb (len chunk =? 0)) eqn:Hc.
  - assert (Hcond : chunkIndex st = 0 ∨ chunk ≠ []).
    { apply orb_true_iff in Hc as [Hc|Hc]; [left; lia|right].
      intros ->. done. }
    destruct (write_link _ _ _ _) as [[w a] n].
    destruct isSEIPDv2.
    + destruct (setInt32 (iv st) _ _); [intros [= <- ?]; done|].
      intros [= <-]. proj_simpl. split; [done|]. exists chunk. split; [done|].
      rewrite Hrest, <- Hsplit, !length_app. lia.
    + destruct (setInt32 (adataBuffer st) _ _); [intros [= <- ?]; done|].
      intros [= <-]. proj_simpl. split; [done|]. exists chunk. split; [done|].
      rewrite Hrest, <- Hsplit, !length_app. lia.
  - destruct (setInt32 (adataBuffer st) _ _); [intros [= <- ?]; done|].
    destruct (write_link _ _ _ _) as [[w a] n]. intros [= <- ?]; done.
Qed.

Lemma loop_terminates fuel st :
  0 <= chunkIndex st ->
  (length (rd_rest (reader st)) + (if (chunkIndex st =? 0)%Z then 2 else 1)
     <= fuel)%nat ->
  ∃ st', lp fuel st = Some st'.
Proof.
  revert st; induction fuel as [|fuel IH]; intros st Hi Hf.
  - destruct (chunkIndex st =? 0); lia.
  - simpl. destruct (body st) as [st1 [|]] eqn:Hb; [|by eexists].
    apply body_continue in Hb as (Hidx & chunk & Hc & Hlen).
    apply IH; [lia|].
    destruct (Z.eqb_spec (chunkIndex st1) 0); [lia|].
    destruct (Z.eqb_spec (chunkIndex st) 0); [lia|].
    destruct Hc as [?|Hc]; [done|].
    destruct chunk; [done|]. simpl in Hlen. lia.
Qed.

Lemma loop_fuel_mono fuel fuel' st st' :
  lp fuel st = Some st' -> (fuel <= fuel')%nat -> lp fuel' st = Some st'.
Proof.
  revert fuel' st; induction fuel as [|fuel IH]; intros fuel' st; [done|].
  intros Hl Hf. destruct fuel' as [|fuel']; [lia|].
  simpl in *. destruct (body st) as [st1 [|]]; [|done].
  apply IH; [done|lia].
Qed.
End Loop_general.

(** ** Encrypting and decrypting, chunk by chunk *)

Section V2_encrypt.
Context (mode : AEADMode) (inst : ModeInstance) (cs : Z).
Hypothesis Hcs : 0 < cs.

#[local] Abbreviation body_enc := (loop_body true false Encrypt mode inst (Some cs)).
#[local] Abbreviation loop_enc := (loop true false Encrypt mode inst (Some cs)).

Lemma enc_data_step ste ct :
  good ste ->
  chunkIndex ste = 0 ∨ rd_rest (reader ste) ≠ [] ->
  let chunk := take (Z.to_nat cs) (rd_rest (reader ste)) in
  mi_encrypt inst chunk (iv ste) (take 5 (adataBuffer ste)) = inr ct ->
  ∃ ste1,
    body_enc ste = (ste1, true) ∧ good ste1
    ∧ rd_rest (reader ste1) = drop (Z.to_nat cs) (rd_rest (reader ste))
    ∧ written ste1 = written ste ++ [ct]
    ∧ chunkIndex ste1 = chunkIndex ste + 1
    ∧ cryptedBytes ste1 = cryptedBytes ste + len chunk
    ∧ iv ste1 = next_iv ste
    ∧ adataBuffer ste1 = adataBuffer ste
    ∧ calls ste1 = calls ste ++ [EvCrypt Encrypt false chunk (iv ste)
                                   (take 5 (adataBuffer ste))].
Proof.
  intros [Hre Hsink Hidx Hiv Hbuf] Hcond chunk Henc.
  assert (Hbranch : (chunkIndex ste =? 0) || negb (len chunk =? 0) = true).
  { destruct Hcond as [->|Hne]; [done|]. apply orb_true_iff. right.
    apply negb_true_iff, not_true_iff_false. rewrite len_nil_iff.
    subst chunk. destruct (rd_rest (reader ste)); [done|].
    destruct (Z.to_nat cs) eqn:?; [lia|done]. }
  eexists. split.
  { unfold loop_body. cbn [fmap option_fmap option_map tagLengthIfDecrypting].
    rewrite readBytes_spec by (done || lia).
    rewrite default_read. replace (Z.to_nat (cs + 0)) with (Z.to_nat cs) by lia.
    fold chunk. rewrite Z.sub_0_r.
    assert (Hc1 : subarray chunk 0 (len chunk) = chunk).
    { unfold len. rewrite subarray_prefix by lia. by rewrite take_ge by lia. }
    assert (Hc2 : subarray_from chunk (len chunk) = []).
    { unfold len. rewrite subarray_from_suffix by lia. by rewrite drop_all. }
    rewrite Hc1, Hc2, Hbranch.
    unfold chunk_nonce, adataArray, chunkIndexSizeIfAEADEP.
    change (Z.to_nat (5 + 0)) with 5%nat. cbn [mi_run].
    rewrite Henc, Hsink. cbn [write_link].
    rewrite setInt32_ok by lia. reflexivity. }
  proj_simpl. repeat (split; [try done|]); try done; [|lia].
  constructor; proj_simpl; try done; try lia.
  unfold len in *. rewrite !length_app, length_take, length_drop, length_Z_to_be. lia.
Qed.

Lemma enc_final_step ste ct :
  good ste -> chunkIndex ste ≠ 0 -> rd_rest (reader ste) = [] ->
  mi_encrypt inst [] (iv ste) (final_adata ste) = inr ct ->
  ∃ ste',
    body_enc ste = (ste', false)
    ∧ written ste' = written ste ++ [ct] ∧ aborted ste' = None
    ∧ calls ste' = calls ste ++ [EvCrypt Encrypt true [] (iv ste) (final_adata ste)].
Proof.
  intros [Hre Hsink Hidx Hiv Hbuf] Hnz Hrest Henc.
  assert (Hbranch : (chunkIndex ste =? 0) || negb (len ([] : bytes) =? 0) = false).
  { apply orb_false_iff. split; [by apply Z.eqb_neq|done]. }
  eexists. split.
  { unfold loop_body. cbn [fmap option_fmap option_map tagLengthIfDecrypting].
    rewrite readBytes_spec by (done || lia).
    rewrite default_read, Hrest, take_nil.
    change (subarray [] 0 (len [] - 0)) with ([] : bytes).
    change (subarray_from [] (len [] - 0)) with ([] : bytes).
    rewrite Hbranch. unfold chunkIndexSizeIfAEADEP.
    rewrite setInt32_ok by (unfold len; lia).
    change (Z.to_nat (5 + 0 + 4)) with 9%nat.
    change (take 9 (adataBuffer ste) ++ Z_to_be 4 (cryptedBytes ste)
              ++ drop (9 + 4) (adataBuffer ste)) with (final_adata ste).
    unfold chunk_nonce, adataTagArray. cbn [mi_run].
    rewrite Henc, Hsink. cbn [write_link]. reflexivity. }
  proj_simpl. done.
Qed.
End V2_encrypt.

Section V2_roundtrip.
Context (mode : AEADMode) (inst : ModeInstance) (cs : Z).
#[local] Abbreviation t := (tagLength mode).
Hypothesis Ht : 0 <= t.
Hypothesis Hcs : 0 < cs.
Hypothesis law : aead_correct t inst.

#[local] Abbreviation body_enc := (loop_body true false Encrypt mode inst (Some cs)).
#[local] Abbreviation loop_enc := (loop true false Encrypt mode inst (Some cs)).
#[local] Abbreviation body_dec := (loop_body true false Decrypt mode inst (Some (cs + t))).
#[local] Abbreviation loop_dec := (loop true false Decrypt mode inst (Some (cs + t))).

Lemma data_step ste :
  good ste ->
  chunkIndex ste = 0 ∨ rd_rest (reader ste) ≠ [] ->
  let chunk := take (Z.to_nat cs) (rd_rest (reader ste)) in
  ∃ ct ste1,
    body_enc ste = (ste1, true) ∧ good ste1
    ∧ rd_rest (reader ste1) = drop (Z.to_nat cs) (rd_rest (reader ste))
    ∧ written ste1 = written ste ++ [ct]
    ∧ chunkIndex ste1 ≠ 0
    ∧ len ct = len chunk + t
    ∧ ∀ std R,
        matching ste std -> rd_rest (reader std) = ct ++ R ->
        t <= len R -> (len chunk < cs -> len R = t) ->
        ∃ std1,
          body_dec std = (std1, true) ∧ matching ste1 std1
          ∧ rd_rest (reader std1) = R
          ∧ written std1 = written std ++ [chunk].
Proof.
  intros Hgood Hcond chunk.
  destruct (law chunk (iv ste) (take 5 (adataBuffer ste))) as (ct & Henc & Hlen & Hdec).
  destruct (enc_data_step mode inst cs Hcs ste ct Hgood Hcond Henc)
    as (ste1 & Hb & Hgood1 & Hrest1 & Hw1 & Hidx1 & Hcb1 & Hiv1 & Hbuf1 & _).
  destruct Hgood as [Hre Hsink Hidx Hiv Hbuf].
  exists ct, ste1. repeat (split; [done || lia|]).
  intros std R [Miv Mbuf Midx Mcnt Mre Msink] Hrest HR Hlast.
  assert (Hchunk_le : len chunk <= cs).
  { subst chunk. unfold len. rewrite length_take. lia. }
  assert (Hread : take (Z.to_nat (cs + t + t)) (ct ++ R) = ct ++ take (Z.to_nat t) R
                  ∧ drop (Z.to_nat (cs + t + t)) (ct ++ R) = drop (Z.to_nat t) R).
  { destruct (decide (len chunk < cs)) as [Hlt|Hge].
    - specialize (Hlast Hlt).
      rewrite take_ge by (unfold len in *; rewrite length_app; lia).
      rewrite drop_ge by (unfold len in *; rewrite length_app; lia).
      rewrite (take_ge R) by (unfold len in *; lia).
      rewrite (drop_ge R) by (unfold len in *; lia). done.
    - rewrite take_app_ge by (unfold len in *; lia).
      rewrite drop_app_ge by (unfold len in *; lia).
      split; do 2 f_equal; unfold len in *; lia. }
  destruct Hread as [Hread Hdrop].
  set (F := take (Z.to_nat t) R) in *.
  assert (HF : len F = t).
  { unfold F, len in *. rewrite length_take. lia. }
  assert (Hb2 : (chunkIndex std =? 0) || negb (len ct =? 0) = true).
  { rewrite Midx. destruct Hcond as [->|Hne]; [done|].
    apply orb_true_iff. right. apply negb_true_iff, Z.eqb_neq.
    assert (chunk ≠ []).
    { subst chunk. destruct (rd_rest (reader ste)); [done|].
      destruct (Z.to_nat cs) eqn:?; [lia|done]. }
    destruct chunk; [done|]. unfold len in *. simpl in Hlen. lia. }
  eexists. split.
  { unfold loop_body. cbn [fmap option_fmap option_map tagLengthIfDecrypting].
    rewrite readBytes_spec by (done || lia).
    rewrite default_read, Hrest, Hread, Hdrop.
    rewrite len_app, HF.
    replace (len ct + t - t) with (Z.of_nat (length ct)) by (unfold len; lia).
    rewrite subarray_prefix by (rewrite length_app; lia).
    rewrite subarray_from_suffix by (rewrite length_app; lia).
    rewrite take_app_length, drop_app_length.
    rewrite Hb2.
    unfold chunk_nonce, adataArray, chunkIndexSizeIfAEADEP.
    change (Z.to_nat (5 + 0)) with 5%nat. cbn [mi_run].
    rewrite Miv, Mbuf, Hdec, Msink. cbn [write_link].
    rewrite setInt32_ok by lia. reflexivity. }
  proj_simpl. split; [|split; [|done]].
  - constructor; proj_simpl; rewrite ?Hiv1, ?Hbuf1, ?Hidx1, ?Hcb1, ?Midx, ?Mcnt;
      try done.
    subst chunk. unfold len in *. lia.
  - unfold F. apply take_drop.
Qed.

Lemma final_step ste :
  good ste -> chunkIndex ste ≠ 0 -> rd_rest (reader ste) = [] ->
  ∃ ct ste',
    body_enc ste = (ste', false)
    ∧ written ste' = written ste ++ [ct] ∧ aborted ste' = None
    ∧ len ct = t
    ∧ ∀ std,
        matching ste std -> rd_rest (reader std) = ct ->
        ∃ std',
          body_dec std = (std', false) ∧ aborted std' = None
          ∧ written std' = written std ++ [[]].
Proof.
  intros Hgood Hnz Hrest.
  destruct (law [] (iv ste) (final_adata ste)) as (ct & Henc & Hlen & Hdec).
  destruct (enc_final_step mode inst cs Hcs ste ct Hgood Hnz Hrest Henc)
    as (ste' & Hb & Hw & Hab & _).
  destruct Hgood as [Hre Hsink Hidx Hiv Hbuf].
  exists ct, ste'. repeat (split; [done|]).
  intros std [Miv Mbuf Midx Mcnt Mre Msink] Hrd.
  assert (Hbranch : (chunkIndex ste =? 0) || negb (len ([] : bytes) =? 0) = false).
  { apply orb_false_iff. split; [by apply Z.eqb_neq|done]. }
  eexists. split.
  { unfold loop_body. cbn [fmap option_fmap option_map tagLengthIfDecrypting].
    rewrite readBytes_spec by (done || lia).
    rewrite default_read, Hrd.
    rewrite (take_ge ct) by (unfold len in *; lia).
    replace (len ct - t) with (Z.of_nat 0) by (simpl; lia).
    rewrite subarray_prefix by (simpl; lia).
    rewrite subarray_from_suffix by (simpl; lia).
    rewrite take_0, drop_0, Midx, Hbranch. unfold chunkIndexSizeIfAEADEP.
    rewrite Mcnt, Mbuf.
    rewrite setInt32_ok by (unfold len; lia).
    change (Z.to_nat (5 + 0 + 4)) with 9%nat.
    change (take 9 (adataBuffer ste) ++ Z_to_be 4 (cryptedBytes ste)
              ++ drop (9 + 4) (adataBuffer ste)) with (final_adata ste).
    unfold chunk_nonce, adataTagArray. cbn [mi_run].
    rewrite Miv, Hdec, Msink. cbn [write_link]. reflexivity. }
  proj_simpl. done.
Qed.

Lemma loops_roundtrip fuel ste ste' :
  good ste -> loop_enc fuel ste = Some ste' ->
  ∃ W,
    written ste' = written ste ++ W ∧ aborted ste' = None
    ∧ t <= len (concat W)
    ∧ (rd_rest (reader ste) = [] -> chunkIndex ste ≠ 0 -> len (concat W) = t)
    ∧ ∀ std,
        matching ste std -> rd_rest (reader std) = concat W ->
        ∃ std',
          loop_dec fuel std = Some std' ∧ aborted std' = None
          ∧ concat (written std')
            = concat (written std) ++ rd_rest (reader ste).
Proof.
  revert ste; induction fuel as [|fuel IH]; intros ste Hgood; [done|].
  cbn [loop].
  destruct (decide (chunkIndex ste = 0 ∨ rd_rest (reader ste) ≠ [])) as [Hc|Hc].
  - destruct (data_step ste Hgood Hc)
      as (ct & ste1 & Hb & Hgood1 & Hrest1 & Hw1 & Hnz1 & Hlen & Hdec).
    rewrite Hb. intros Hl.
    destruct (IH ste1 Hgood1 Hl) as (W1 & HW & Hab & Hge & Hfin & Hd).
    exists (ct :: W1). split; [by rewrite HW, Hw1, <- app_assoc|].
    split; [done|]. cbn [concat]. rewrite len_app.
    split; [unfold len in *; lia|]. split.
    { intros Hnil Hnz. destruct Hc; done. }
    intros std Hm Hrd.
    destruct (Hdec std (concat W1) Hm Hrd Hge) as (std1 & Hbd & Hm1 & Hrd1 & Hwd1).
    { intros Hlt. apply Hfin; [|done]. rewrite Hrest1.
      apply drop_ge. unfold len in *. rewrite length_take in Hlt. lia. }
    rewrite Hbd.
    destruct (Hd std1 Hm1 Hrd1) as (std' & Hld & Habd & Hcd).
    exists std'. split; [done|]. split; [done|].
    rewrite Hcd, Hwd1, Hrest1, concat_app. cbn [concat].
    rewrite app_nil_r, <- app_assoc. by rewrite take_drop.
  - assert (Hnz : chunkIndex ste ≠ 0) by tauto.
    assert (Hnil : rd_rest (reader ste) = []).
    { destruct (rd_rest (reader ste)); [done|]. exfalso. apply Hc. by right. }
    destruct (final_step ste Hgood Hnz Hnil) as (ct & ste1 & Hb & Hw & Hab & Hlen & Hdec).
    rewrite Hb. intros [= <-].
    exists [ct]. split; [done|]. split; [done|]. cbn [concat]. rewrite app_nil_r.
    split; [lia|]. split; [done|].
    intros std Hm Hrd.
    destruct (Hdec std Hm Hrd) as (std' & Hbd & Habd & Hwd).
    exists std'. rewrite Hbd. split; [done|]. split; [done|].
    rewrite Hwd, Hnil, concat_app. cbn [concat]. by rewrite !app_nil_r.
Qed.
End V2_roundtrip.

(** ** runAEAD on a version 2 packet *)

Lemma length_fill a v s : length (fill a v s) = length a.
Proof.
  unfold fill. rewrite length_app, length_take, length_replicate.
  pose proof (rel_index_le a s). lia.
Qed.

Section RunAEAD_lemmas.
Context `{Crypto}.

Lemma new_engine_terminates isS isA fn mode inst cs d iv0 buf :
  ∃ st, loop isS isA fn mode inst cs (S (S (length (data_bytes d))))
          (new_engine d iv0 buf) = Some st.
Proof. apply loop_terminates; simpl; lia. Qed.

Lemma runAEAD_v2_eq packet fn key d mode ps derived inst :
  pk_instanceof_SEIPD packet = true -> js_is (pk_version packet) 2 = true ->
  getAEADMode (pk_aeadAlgorithm packet) false = inr mode ->
  getCipherParams (pk_cipherAlgorithm packet) = inr ps ->
  computeHKDF key (pk_salt packet) (adata_header packet) (snd ps + ivLength mode)
    = inr derived ->
  mode_new mode (pk_cipherAlgorithm packet) (subarray derived 0 (snd ps)) = inr inst ->
  ∃ st,
    loop true false fn mode inst (v2_chunkSize fn mode packet)
      (S (S (length (data_bytes d))))
      (new_engine d (v2_iv derived (snd ps)) (adata_header packet ++ zeros 8))
    = Some st
    ∧ runAEAD packet fn key d
      = ([EvHKDF key (pk_salt packet) (adata_header packet) (snd ps + ivLength mode);
          EvModeNew (pk_cipherAlgorithm packet) (subarray derived 0 (snd ps))]
           ++ calls st,
         inr (transformed_like d (concat (written st)) (aborted st))).
Proof.
  intros Hinst Hv Hmode Hps Hkdf Hnew.
  destruct (new_engine_terminates true false fn mode inst (v2_chunkSize fn mode packet)
              d (v2_iv derived (snd ps)) (adata_header packet ++ zeros 8)) as [st Hst].
  exists st. split; [done|].
  unfold runAEAD. rewrite Hinst, Hv. cbn [andb negb].
  rewrite Hmode. cbn [lift bind chunkIndexSizeIfAEADEP].
  rewrite Hps. cbn [lift bind emit ret fst snd app].
  change (take 5 (adata_header packet ++ zeros (Z.to_nat (8 + 0))))
    with (adata_header packet).
  rewrite Hkdf. cbn [lift bind emit ret fst snd app].
  rewrite Hnew. cbn [lift bind emit ret fst snd app].
  change (zeros (Z.to_nat (8 + 0))) with (zeros 8).
  fold (v2_iv derived (snd ps)). fold (v2_chunkSize fn mode packet).
  rewrite Hst. done.
Qed.

Lemma runAEAD_v2_inv packet fn key d te out :
  pk_instanceof_SEIPD packet = true -> js_is (pk_version packet) 2 = true ->
  runAEAD packet fn key d = (te, inr out) ->
  ∃ mode ps derived inst,
    getAEADMode (pk_aeadAlgorithm packet) false = inr mode
    ∧ getCipherParams (pk_cipherAlgorithm packet) = inr ps
    ∧ computeHKDF key (pk_salt packet) (adata_header packet) (snd ps + ivLength mode)
      = inr derived
    ∧ mode_new mode (pk_cipherAlgorithm packet) (subarray derived 0 (snd ps)) = inr inst.
Proof.
  intros Hinst Hv. unfold runAEAD. rewrite Hinst, Hv. cbn [andb negb].
  destruct (getAEADMode _ _) as [e|mode] eqn:Hmode; [done|].
  cbn [lift bind chunkIndexSizeIfAEADEP].
  destruct (getCipherParams _) as [e|ps] eqn:Hps; [done|].
  cbn [lift bind emit ret fst snd app].
  change (take 5 (adata_header packet ++ zeros (Z.to_nat (8 + 0))))
    with (adata_header packet).
  destruct (computeHKDF _ _ _ _) as [e|derived] eqn:Hkdf; [done|].
  cbn [lift bind emit ret fst snd app].
  destruct (mode_new _ _ _) as [e|inst] eqn:Hnew; [done|].
  intros _. by exists mode, ps, derived, inst.
Qed.
End RunAEAD_lemmas.

(** ** Chunk counting and round trip of runAEAD *)

Lemma len_subarray_from (a : bytes) k :
  0 <= k <= len a -> len (subarray_from a k) = len a - k.
Proof.
  intros Hk. unfold len in *.
  replace k with (Z.of_nat (Z.to_nat k)) by lia.
  rewrite subarray_from_suffix by lia. rewrite length_drop. lia.
Qed.

Lemma crypt_calls_app a b : crypt_calls (a ++ b) = crypt_calls a ++ crypt_calls b.
Proof.
  induction a as [|ev a IH]; [done|]. destruct ev; simpl; rewrite ?IH; done.
Qed.

Lemma call_chunks_crypt evs : call_chunks (crypt_calls evs) = call_chunks evs.
Proof.
  induction evs as [|ev evs IH]; [done|].
  destruct ev; simpl; rewrite ?IH; try done.
Qed.

Lemma call_chunks_pre pre evs :
  crypt_calls pre = [] -> call_chunks (pre ++ evs) = call_chunks evs.
Proof.
  intros Hpre. rewrite <- call_chunks_crypt, crypt_calls_app, Hpre.
  apply call_chunks_crypt.
Qed.

Section Theorems.
Context `{Crypto}.

Lemma v2_setup_run packet key mode inst :
  pk_instanceof_SEIPD packet = true -> js_is (pk_version packet) 2 = true ->
  v2_setup packet key mode inst -> 4 <= ivLength mode ->
  ∃ iv0 pre,
    len iv0 = ivLength mode ∧ length pre = 2%nat ∧ crypt_calls pre = []
    ∧ (8 <= ivLength mode ->
       drop (length iv0 - 8) iv0 = zeros 8)
    ∧ ∀ fn d, ∃ st,
        loop true false fn mode inst (v2_chunkSize fn mode packet)
          (S (S (length (data_bytes d))))
          (new_engine d iv0 (adata_header packet ++ zeros 8)) = Some st
        ∧ runAEAD packet fn key d
          = (pre ++ calls st,
             inr (transformed_like d (concat (written st)) (aborted st))).
Proof.
  intros Hinst Hv (ps & derived & Hmode & Hps & Hks & Hkdf & Hlen & Hnew) Hivl.
  assert (Hl : len (subarray_from derived (snd ps)) = ivLength mode).
  { rewrite len_subarray_from by lia. lia. }
  exists (v2_iv derived (snd ps)), 
    [EvHKDF key (pk_salt packet) (adata_header packet) (snd ps + ivLength mode);
     EvModeNew (pk_cipherAlgorithm packet) (subarray derived 0 (snd ps))].
  split; [|split; [done|split; [done|split]]].
  - unfold v2_iv, len. rewrite length_fill. exact Hl.
  - intros H8. unfold v2_iv. rewrite length_fill. unfold fill.
    set (ivd := subarray_from derived (snd ps)) in *.
    assert (Hr : rel_index ivd (len ivd - 8) = (length ivd - 8)%nat).
    { unfold rel_index. destruct (Z.ltb_spec (len ivd - 8) 0); unfold len in *; lia. }
    rewrite Hr, drop_app_length'; [|rewrite length_take; lia].
    unfold len in *. replace (length ivd - (length ivd - 8))%nat with 8%nat by lia.
    done.
  - intros fn d.
    destruct (runAEAD_v2_eq packet fn key d mode ps derived inst
                Hinst Hv Hmode Hps Hkdf Hnew) as (st & Hloop & Hrun).
    by exists st.
Qed.

Lemma good_new_engine d iv0 buf :
  data_err d = None -> 4 <= len iv0 -> length buf = 13%nat ->
  good (new_engine d iv0 buf).
Proof. intros. by constructor. Qed.

Lemma loop_continue isS isA fn mode inst cs fuel st st1 :
  loop_body isS isA fn mode inst cs st = (st1, true) ->
  loop isS isA fn mode inst cs (S fuel) st = loop isS isA fn mode inst cs fuel st1.
Proof. intros Hb. cbn [loop]. by rewrite Hb. Qed.

Lemma loop_stop isS isA fn mode inst cs fuel st st1 :
  loop_body isS isA fn mode inst cs st = (st1, false) ->
  loop isS isA fn mode inst cs (S fuel) st = Some st1.
Proof. intros Hb. cbn [loop]. by rewrite Hb. Qed.

(** C6: a version 2 packet with [chunkSizeByte = 0] encrypts a plaintext of
    200 bytes in five calls: four data chunks of 64, 64, 64 and 8 bytes and
    one closing chunk without plaintext; each result carries its own tag, so
    the ciphertext has [200 + 5 * tagLength] bytes. *)
Theorem chunk_counting packet key d mode inst :
  pk_instanceof_SEIPD packet = true -> js_is (pk_version packet) 2 = true ->
  pk_chunkSizeByte packet = JNum 0 ->
  length (data_bytes d) = 200%nat -> data_err d = None ->
  v2_setup packet key mode inst -> 4 <= ivLength mode ->
  aead_expands (tagLength mode) inst ->
  let b := data_bytes d in
  ∃ te out c0 c1 c2 c3 c4,
    runAEAD packet Encrypt key d = (te, inr out)
    ∧ call_chunks te
      = [(false, take 64 b); (false, take 64 (drop 64 b));
         (false, take 64 (drop 128 b)); (false, drop 192 b); (true, [])]
    ∧ map (λ fc, len (snd fc)) (call_chunks te) = [64; 64; 64; 8; 0]
    ∧ data_err out = None
    ∧ data_bytes out = c0 ++ c1 ++ c2 ++ c3 ++ c4
    ∧ len c0 = 64 + tagLength mode ∧ len c1 = 64 + tagLength mode
    ∧ len c2 = 64 + tagLength mode ∧ len c3 = 8 + tagLength mode
    ∧ len c4 = tagLength mode
    ∧ len (data_bytes out) = 200 + 5 * tagLength mode.
Proof.
  intros Hinst Hv Hc Hlen Herr Hsetup Hivl Hlaw b.
  destruct (v2_setup_run packet key mode inst Hinst Hv Hsetup Hivl)
    as (iv0 & pre & Hiv0 & Hpre & Hprec & _ & Hall).
  destruct (Hall Encrypt d) as (st & Hloop & Hrun). clear Hall.
  unfold v2_chunkSize in Hloop. rewrite Hc in Hloop.
  change ((λ n, n + tagLengthIfDecrypting Encrypt mode) <$> chunk_bytes (JNum 0))
    with (Some (64 + 0)) in Hloop.
  rewrite Z.add_0_r in Hloop.
  set (st0 := new_engine d iv0 (adata_header packet ++ zeros 8)) in *.
  assert (Hg0 : good st0) by (apply good_new_engine; [done|lia|done]).
  assert (Hr0 : rd_rest (reader st0) = b) by done.
  (* chunk 0 *)
  destruct (Hlaw (take 64 b) (iv st0) (take 5 (adataBuffer st0))) as (c0 & He0 & Hl0).
  destruct (enc_data_step mode inst 64 ltac:(lia) st0 c0 Hg0 ltac:(by left))
    as (st1 & Hb0 & Hg1 & Hr1 & Hw1 & Hi1 & _ & _ & _ & Hc1).
  { by rewrite Hr0. }
  (* chunk 1 *)
  destruct (Hlaw (take 64 (drop 64 b)) (iv st1) (take 5 (adataBuffer st1)))
    as (c1 & He1 & Hl1).
  destruct (enc_data_step mode inst 64 ltac:(lia) st1 c1 Hg1)
    as (st2 & Hb1 & Hg2 & Hr2 & Hw2 & Hi2 & _ & _ & _ & Hc2).
  { right. rewrite Hr1, Hr0. intros Hn%(f_equal length).
    rewrite length_drop in Hn. simpl in Hn. subst b. lia. }
  { by rewrite Hr1, Hr0. }
  (* chunk 2 *)
  destruct (Hlaw (take 64 (drop 128 b)) (iv st2) (take 5 (adataBuffer st2)))
    as (c2 & He2 & Hl2).
  destruct (enc_data_step mode inst 64 ltac:(lia) st2 c2 Hg2)
    as (st3 & Hb2 & Hg3 & Hr3 & Hw3 & Hi3 & _ & _ & _ & Hc3).
  { right. rewrite Hr2, Hr1, Hr0, drop_drop. intros Hn%(f_equal length).
    rewrite length_drop in Hn. simpl in Hn. subst b. lia. }
  { by rewrite Hr2, Hr1, Hr0, drop_drop. }
  (* chunk 3 *)
  destruct (Hlaw (drop 192 b) (iv st3) (take 5 (adataBuffer st3)))
    as (c3 & He3 & Hl3).
  destruct (enc_data_step mode inst 64 ltac:(lia) st3 c3 Hg3)
    as (st4 & Hb3 & Hg4 & Hr4 & Hw4 & Hi4 & _ & _ & _ & Hc4).
  { right. rewrite Hr3, Hr2, Hr1, Hr0, !drop_drop. intros Hn%(f_equal length).
    rewrite length_drop in Hn. simpl in Hn. subst b. lia. }
  { rewrite Hr3, Hr2, Hr1, Hr0, !drop_drop.
    rewrite take_ge by (rewrite length_drop; subst b; simpl; lia). done. }
  (* the closing chunk *)
  destruct (Hlaw [] (iv st4) (final_adata st4)) as (c4 & He4 & Hl4).
  destruct (enc_final_step mode inst 64 ltac:(lia) st4 c4 Hg4)
    as (st5 & Hb4 & Hw5 & Ha5 & Hc5); [| |done|].
  { destruct Hg3 as [_ _ ? _ _]. lia. }
  { rewrite Hr4, Hr3, Hr2, Hr1, Hr0, !drop_drop.
    apply drop_ge. subst b. simpl. lia. }
  assert (Hst : st = st5).
  { assert (Hl5 : loop true false Encrypt mode inst (Some 64) 5 st0 = Some st5).
    { rewrite (loop_continue _ _ _ _ _ _ _ _ _ Hb0).
      rewrite (loop_continue _ _ _ _ _ _ _ _ _ Hb1).
      rewrite (loop_continue _ _ _ _ _ _ _ _ _ Hb2).
      rewrite (loop_continue _ _ _ _ _ _ _ _ _ Hb3).
      by rewrite (loop_stop _ _ _ _ _ _ _ _ _ Hb4). }
    apply (loop_fuel_mono _ _ _ _ _ _ _ (S (S (length (data_bytes d))))) in Hl5;
      [|lia].
    rewrite Hloop in Hl5. by injection Hl5. }
  subst st.
  assert (Hcalls : calls st5
    = [EvCrypt Encrypt false (take 64 b) (iv st0) (take 5 (adataBuffer st0));
       EvCrypt Encrypt false (take 64 (drop 64 b)) (iv st1) (take 5 (adataBuffer st1));
       EvCrypt Encrypt false (take 64 (drop 128 b)) (iv st2) (take 5 (adataBuffer st2));
       EvCrypt Encrypt false (drop 192 b) (iv st3) (take 5 (adataBuffer st3));
       EvCrypt Encrypt true [] (iv st4) (final_adata st4)]).
  { rewrite Hc5, Hc4, Hc3, Hc2, Hc1, Hr3, Hr2, Hr1, Hr0, !drop_drop.
    rewrite (take_ge (drop (64 + (64 + 64)) b))
      by (rewrite length_drop; subst b; simpl; lia).
    done. }
  assert (Hwritten : written st5 = [c0; c1; c2; c3; c4]).
  { by rewrite Hw5, Hw4, Hw3, Hw2, Hw1. }
  assert (Hlens : len (take 64 b) = 64 ∧ len (take 64 (drop 64 b)) = 64
                  ∧ len (take 64 (drop 128 b)) = 64 ∧ len (drop 192 b) = 8).
  { unfold len. rewrite !length_take, !length_drop. subst b. lia. }
  destruct Hlens as (Hk0 & Hk1 & Hk2 & Hk3).
  exists (pre ++ calls st5), (transformed_like d (concat (written st5)) (aborted st5)),
    c0, c1, c2, c3, c4.
  split; [done|].
  assert (Hcc : call_chunks (pre ++ calls st5)
      = [(false, take 64 b); (false, take 64 (drop 64 b));
         (false, take 64 (drop 128 b)); (false, drop 192 b); (true, [])]).
  { rewrite call_chunks_pre by done. by rewrite Hcalls. }
  split; [done|]. split.
  { rewrite Hcc. cbn [map snd]. by rewrite Hk0, Hk1, Hk2, Hk3. }
  rewrite Hwritten, Ha5. cbn [concat]. rewrite app_nil_r.
  assert (Hdb : ∀ x e, data_bytes (transformed_like d x e) = x) by (by destruct d).
  assert (Hde : ∀ x e, data_err (transformed_like d x e) = e) by (by destruct d).
  rewrite Hdb, Hde. split; [done|]. split; [done|].
  rewrite !len_app. change (len []) with 0 in Hl4.
  repeat split; lia.
Qed.
Lemma data_bytes_like d x e : data_bytes (transformed_like d x e) = x.
Proof. by destruct d. Qed.
Lemma data_err_like d x e : data_err (transformed_like d x e) = e.
Proof. by destruct d. Qed.

Lemma runAEAD_roundtrip packet key d mode inst c :
  pk_instanceof_SEIPD packet = true -> js_is (pk_version packet) 2 = true ->
  pk_chunkSizeByte packet = JNum c -> 0 <= c -> data_err d = None ->
  v2_setup packet key mode inst -> 4 <= ivLength mode ->
  0 <= tagLength mode -> aead_correct (tagLength mode) inst ->
  ∃ te ct,
    runAEAD packet Encrypt key d = (te, inr (transformed_like d ct None))
    ∧ ∀ d', data_bytes d' = ct -> data_err d' = None ->
        ∃ td, runAEAD packet Decrypt key d'
              = (td, inr (transformed_like d' (data_bytes d) None)).
Proof.
  intros Hinst Hv Hc Hc0 Herr Hsetup Hivl Ht Hlaw.
  destruct (v2_setup_run packet key mode inst Hinst Hv Hsetup Hivl)
    as (iv0 & pre & Hiv0 & Hpre & Hprec & _ & Hall).
  destruct (Hall Encrypt d) as (ste & Hle & Hre).
  assert (Hcs : 0 < 2 ^ (c + 6)) by (apply Z.pow_pos_nonneg; lia).
  unfold v2_chunkSize in Hle. rewrite Hc in Hle.
  cbn [chunk_bytes fmap option_fmap option_map tagLengthIfDecrypting] in Hle.
  rewrite Z.add_0_r in Hle.
  set (buf := adata_header packet ++ zeros 8) in *.
  assert (Hg0 : good (new_engine d iv0 buf)) by (apply good_new_engine; [done|lia|done]).
  destruct (loops_roundtrip mode inst (2 ^ (c + 6)) Ht Hcs Hlaw _ _ _ Hg0 Hle)
    as (W & HW & Hab & _ & _ & Hdec).
  exists (pre ++ calls ste), (concat W). split.
  { rewrite Hre, Hab. by rewrite HW. }
  intros d' Hd' Herr'.
  destruct (Hall Decrypt d') as (std & Hld & Hrd).
  unfold v2_chunkSize in Hld. rewrite Hc in Hld.
  cbn [chunk_bytes fmap option_fmap option_map tagLengthIfDecrypting] in Hld.
  destruct (Hdec (new_engine d' iv0 buf)) as (std' & Hld' & Habd & Hcd).
  { by constructor. }
  { done. }
  assert (std = std').
  { set (f1 := S (S (length (data_bytes d)))) in *.
    set (f2 := S (S (length (data_bytes d')))) in *.
    apply (loop_fuel_mono _ _ _ _ _ _ _ (f1 `max` f2)%nat) in Hld'; [|lia].
    apply (loop_fuel_mono _ _ _ _ _ _ _ (f1 `max` f2)%nat) in Hld; [|lia].
    rewrite Hld in Hld'. by injection Hld'. }
  subst std'. eexists. rewrite Hrd, Habd, Hcd. done.
Qed.
End Theorems.

(** ** encrypt and decrypt *)

Lemma subarray_from_neg (x h : bytes) k :
  k < 0 -> len h = - k -> subarray_from (x ++ h) k = h.
Proof.
  intros Hk Hh. unfold subarray_from, subarray. rewrite rel_index_len.
  assert (Hr : rel_index (x ++ h) k = length x).
  { unfold rel_index. destruct (Z.ltb_spec k 0); [|lia].
    rewrite len_app. unfold len in *. lia. }
  rewrite Hr, drop_app_length. apply take_ge. rewrite length_app. lia.
Qed.

Lemma subarray_to_neg (x h : bytes) k :
  k < 0 -> len h = - k -> subarray (x ++ h) 0 k = x.
Proof.
  intros Hk Hh. unfold subarray. rewrite rel_index_0, drop_0, Nat.sub_0_r.
  assert (Hr : rel_index (x ++ h) k = length x).
  { unfold rel_index. destruct (Z.ltb_spec k 0); [|lia].
    rewrite len_app. unfold len in *. lia. }
  rewrite Hr. apply take_app_length.
Qed.

Lemma subarray_from_app (x y : bytes) k :
  0 <= k -> len x = k -> subarray_from (x ++ y) k = y.
Proof.
  intros Hk Hx. replace k with (Z.of_nat (length x)) by (unfold len in *; lia).
  rewrite subarray_from_suffix by (rewrite length_app; lia).
  apply drop_app_length.
Qed.

Section Roundtrip.
Context `{Crypto} {PL : Type} `{PacketList PL}.

Lemma v1_payload alg key bs rnd (b : bytes) :
  v1_laws alg key bs rnd ->
  let prefix := getPrefixRandom rnd bs in
  let tohash := prefix ++ b ++ [211; 20] in
  let iv := zeros (Z.to_nat bs) in
  let decrypted :=
    cfb_decrypt alg key (cfb_encrypt alg key (tohash ++ sha1 tohash) iv) iv in
  subarray_from decrypted (-20) = sha1 tohash
  ∧ subarray decrypted 0 (-20) = tohash
  ∧ subarray (subarray_from tohash (bs + 2)) 0 (-2) = b.
Proof.
  intros (Hbs & Hrnd & Hsha & Hcfb) prefix tohash iv decrypted.
  subst decrypted. rewrite Hcfb.
  rewrite subarray_from_neg by (done || apply Hsha).
  rewrite subarray_to_neg by (done || apply Hsha).
  split; [done|]. split; [done|].
  subst tohash. rewrite subarray_from_app.
  - by apply (subarray_to_neg b [211; 20] (-2)).
  - lia.
  - subst prefix. unfold getPrefixRandom. rewrite len_app, Hrnd.
    change (len [_; _]) with 2. lia.
Qed.

#[local] Abbreviation SEIPD := (SymEncryptedIntegrityProtectedDataPacket PL).

Lemma normalize_bytes (d : data) :
  data_err d = None ->
  ∃ d', (if isArrayStream d then result_map Uint8Array (streamReadToEnd d)
         else inr d) = inr d'
        ∧ data_bytes d' = data_bytes d ∧ data_err d' = None
        ∧ isArrayStream d' = false.
Proof.
  destruct d as [b|b e|b e]; simpl; intros He.
  - by exists (Uint8Array b).
  - subst e. by exists (Uint8Array b).
  - subst e. by exists (Stream b None).
Qed.

Lemma js_is_1_not_2 v : js_is v 1 = true -> js_is v 2 = false.
Proof.
  destruct v; simpl; try done. intros Hv%Z.eqb_eq. subst. done.
Qed.

(** C1: for version 1 and version 2, any cipher and AEAD algorithm the
    collaborators support, any chunk size byte [c >= 0] and a plaintext of
    any length, [encrypt] succeeds and [decrypt] under the same session key
    hands the inner packet parser exactly the bytes that were encrypted. *)
Theorem encrypt_decrypt_roundtrip (this : SEIPD) alg key config config' rnd
    pl bs ks :
  getCipherParams (JNum alg) = inr (bs, ks) -> len key = ks ->
  packets this = Some pl -> data_err (packets_write pl) = None ->
  (js_is (version this) 1 = true ∧ v1_laws alg key bs rnd)
  ∨ (js_is (version this) 2 = true ∧ v2_laws this alg key config rnd) ->
  let e := encrypt this alg key config rnd in
  returned e = inr true
  ∧ ∃ t d delayErrors,
      decrypt_payload (this_after e) alg key config' = (t, inr (d, delayErrors))
      ∧ streamReadToEnd d = inr (data_bytes (packets_write pl))
      ∧ trace (decrypt (this_after e) alg key config')
        = t ++ [EvFromBinary d delayErrors].
Proof.
  intros Hps Hkey Hpl Herr Hsupp e.
  assert (Hdec : ∀ this' t d dl,
            decrypt_payload this' alg key config' = (t, inr (d, dl)) ->
            trace (decrypt this' alg key config') = t ++ [EvFromBinary d dl]).
  { intros this' t d dl Hp. unfold decrypt. rewrite Hp.
    by destruct (fromBinary d dl). }
  destruct (normalize_bytes _ Herr) as (bytes & Hnorm & Hbytes & Hberr & Hnas).
  assert (Hkeyb : negb (len key =? ks) = false).
  { apply negb_false_iff, Z.eqb_eq. done. }
  assert (Hdb : ∀ f x, data_bytes (data_map f x) = f (data_bytes x))
    by (intros f x; by destruct x).
  assert (Hde : ∀ f x, data_err (data_map f x) = data_err x)
    by (intros f x; by destruct x).
  cut (returned e = inr true
       ∧ ∃ t d dl, decrypt_payload (this_after e) alg key config' = (t, inr (d, dl))
                   ∧ streamReadToEnd d = inr (data_bytes (packets_write pl))).
  { intros (Hr & t & d & dl & Hp & Hd). split; [done|].
    exists t, d, dl. split; [done|]. split; [done|]. by apply Hdec. }
  destruct Hsupp as [[Hv Hlaws]|[Hv Hlaws]].
  - (* version 1 *)
    pose proof (js_is_1_not_2 _ Hv) as Hv2.
    subst e. unfold encrypt. rewrite Hps, Hkeyb, Hpl, Hnorm, Hv2.
    cbn [returned this_after]. split; [done|].
    destruct (v1_payload alg key bs rnd (data_bytes bytes) Hlaws)
      as (Hhash & Htohash & Hpb).
    unfold decrypt_payload. rewrite Hps.
    cbn [lift bind snd fst set_encrypted encrypted version]. rewrite Hkeyb.
    cbn [lift bind app].
    assert (Hnas' : ∀ f, isArrayStream (data_map f bytes) = false)
      by (intros f; by destruct bytes).
    rewrite Hnas', Hv2. cbn [lift bind emit app].
    rewrite !Hdb, !Hde, Hberr, Hhash, Htohash.
    assert (Heq : equalsUint8Array
              (sha1 (getPrefixRandom rnd bs ++ data_bytes bytes ++ [211; 20]))
              (sha1 (getPrefixRandom rnd bs ++ data_bytes bytes ++ [211; 20])) = true).
    { unfold equalsUint8Array. by apply bool_decide_eq_true. }
    rewrite Heq. cbn [negb].
    set (pb := concat_with_async _ _).
    assert (Hpbb : data_bytes pb = data_bytes bytes ∧ data_err pb = None).
    { subst pb. unfold concat_with_async.
      rewrite !Hdb, !Hde, Hberr, data_bytes_like, data_err_like.
      rewrite Htohash, Hpb, app_nil_r. done. }
    destruct Hpbb as [Hpbb Hpbe].
    assert (Hrte : streamReadToEnd pb = inr (data_bytes bytes)).
    { unfold streamReadToEnd. by rewrite Hpbe, Hpbb. }
    destruct (isStream _ && allowUnauthenticatedStream config').
    + eexists _, pb, true. split; [reflexivity|]. by rewrite Hrte, Hbytes.
    + cbn [ret]. rewrite Hrte. cbn [lift bind ret app].
      eexists _, _, false. split; [reflexivity|]. by rewrite <- Hbytes.
  - (* version 2 *)
    destruct Hlaws as (mode & inst & c & Hc & Hc0 & Hsetup & Hivl & Ht & Hlaw).
    destruct (runAEAD_roundtrip (as_packet (v2_filled this alg config rnd)) key
                bytes mode inst c) as (te & ct & Henc & Hdecr); try done.
    subst e. unfold encrypt. rewrite Hps, Hkeyb, Hpl, Hnorm, Hv.
    fold (v2_filled this alg config rnd). rewrite Henc.
    cbn [returned this_after]. split; [done|].
    unfold decrypt_payload. rewrite Hps.
    cbn [lift bind snd fst set_encrypted encrypted version cipherAlgorithm
         v2_filled set_chunkSizeByte set_salt set_cipherAlgorithm]. rewrite Hkeyb.
    cbn [lift bind app]. rewrite Hv. cbn [js_is]. rewrite Z.eqb_refl. cbn [negb].
    set (enc := transformed_like bytes ct None).
    destruct (normalize_bytes enc) as (d' & Hn' & Hb' & He' & _).
    { subst enc. apply data_err_like. }
    rewrite Hn'. cbn [lift bind app].
    destruct (Hdecr d') as (td & Htd).
    { rewrite Hb'. subst enc. apply data_bytes_like. }
    { done. }
    change (as_packet _) with (as_packet (v2_filled this alg config rnd)).
    rewrite Htd. cbn [bind ret app].
    eexists _, _, _. split; [reflexivity|].
    unfold streamReadToEnd. by rewrite data_err_like, data_bytes_like, Hbytes.
Qed.
End Roundtrip.

(** ** The chunk counter *)

Lemma Z_to_be_wrap n x k : Z_to_be n (x + 256 ^ Z.of_nat n * k) = Z_to_be n x.
Proof.
  revert x k; induction n as [|n IH]; intros x k; [done|].
  rewrite !Z_to_be_S.
  replace (256 ^ Z.of_nat (S n)) with (256 * 256 ^ Z.of_nat n)
    by (rewrite Nat2Z.inj_succ, Z.pow_succ_r; lia).
  replace ((x + 256 * 256 ^ Z.of_nat n * k) / 256) with (x / 256 + 256 ^ Z.of_nat n * k).
  2:{ replace (x + 256 * 256 ^ Z.of_nat n * k) with (x + (256 ^ Z.of_nat n * k) * 256) by lia.
      rewrite Z.div_add by lia. done. }
  rewrite IH. f_equal. f_equal.
  replace (x + 256 * 256 ^ Z.of_nat n * k) with (x + (256 ^ Z.of_nat n * k) * 256) by lia.
  apply Z.mod_add. lia.
Qed.

Lemma Z_to_be_app n m x :
  Z_to_be (n + m) x = Z_to_be n (x / 256 ^ Z.of_nat m) ++ Z_to_be m x.
Proof.
  revert x; induction m as [|m IH]; intros x.
  - rewrite Nat.add_0_r. change (Z_to_be 0 x) with (@nil Z).
    rewrite app_nil_r. simpl. by rewrite Z.div_1_r.
  - replace (n + S m)%nat with (S (n + m)) by lia. rewrite !Z_to_be_S.
    rewrite IH, app_assoc. do 3 f_equal.
    rewrite Nat2Z.inj_succ, Z.pow_succ_r by lia.
    rewrite Z.div_div by lia. done.
Qed.

Lemma counter32_wraps j : counter32 (j + 2 ^ 32) = counter32 j.
Proof.
  unfold counter32. f_equal.
  replace (j + 2 ^ 32) with (j + 256 ^ Z.of_nat 4 * 1) by (simpl; lia).
  apply Z_to_be_wrap.
Qed.

Lemma counter32_small j : 0 <= j < 2 ^ 32 -> counter32 j = counter64 j.
Proof.
  intros Hj. unfold counter32, counter64.
  rewrite (Z_to_be_app 4 4). f_equal.
  change (256 ^ Z.of_nat 4) with (2 ^ 32). by rewrite Z.div_small.
Qed.

Lemma counter32_overflow : counter32 (2 ^ 32) ≠ counter64 (2 ^ 32).
Proof. vm_compute. discriminate. Qed.

Section AEADP_calls.
Context (fn : direction) (mode : AEADMode) (inst : ModeInstance)
        (chunkSize : option Z) (hdr : bytes).
Hypothesis Hhdr : length hdr = 5%nat.

#[local] Abbreviation bodyA := (loop_body false true fn mode inst chunkSize).

#[local] Abbreviation calls_okA := (calls_okA fn hdr).
#[local] Abbreviation RunningA := (RunningA fn hdr).

Lemma calls_okA_snoc evs fin c n a :
  calls_okA evs -> take 13 a = hdr ++ counter32 (Z.of_nat (length evs)) ->
  calls_okA (evs ++ [EvCrypt fn fin c n a]).
Proof.
  intros Hevs Ha j ev Hj.
  destruct (decide (j < length evs)%nat) as [Hlt|Hge].
  - rewrite lookup_app_l in Hj by done. by apply Hevs.
  - rewrite lookup_app_r in Hj by lia.
    destruct (j - length evs)%nat eqn:Hd; [|by destruct n0].
    simpl in Hj. injection Hj as <-. exists fin, c, n, a. split; [done|].
    replace j with (length evs) by lia. done.
Qed.

Lemma length_counter32 j : length (counter32 j) = 8%nat.
Proof. unfold counter32. by rewrite length_app, length_Z_to_be. Qed.

Lemma bodyA_step st st' b :
  RunningA st -> bodyA st = (st', b) ->
  calls_okA (calls st') ∧ (b = true -> RunningA st').
Proof.
  intros [Hi Hb Hcalls]. unfold loop_body.
  destruct (readBytes _ _) as [e|[read rd]] eqn:Hread; [by intros [= <- <-]|].
  set (chunk0 := default [] read).
  set (chunk := subarray chunk0 0 _). set (finalChunk := subarray_from chunk0 _).
  set (nonce := chunk_nonce false st).
  assert (Hlb : length (adataBuffer st) = 21%nat).
  { rewrite Hb, !length_app, length_counter32, Hhdr. done. }
  assert (Had : take 13 (adataArray true (adataBuffer st))
                = hdr ++ counter32 (Z.of_nat (length (calls st)))).
  { unfold adataArray, chunkIndexSizeIfAEADEP. change (Z.to_nat (5 + 8)) with 13%nat.
    rewrite take_take, Hb, Hi. change (13 `min` 13)%nat with 13%nat.
    rewrite app_assoc. apply take_app_length'.
    rewrite length_app, length_counter32, Hhdr. done. }
  destruct ((chunkIndex st =? 0) || negb (len chunk =? 0)).
  - destruct (write_link _ _ _ _) as [[w a] n].
    rewrite setInt32_ok by (unfold len; lia).
    intros [<- <-]%pair_equal_spec. proj_simpl. split.
    + by apply calls_okA_snoc.
    + intros _. constructor; proj_simpl.
      * rewrite length_app. simpl. lia.
      * rewrite Hb. change (Z.to_nat (5 + 4)) with 9%nat.
        assert (H9 : take 9 (hdr ++ counter32 (chunkIndex st) ++ zeros 8)
                     = hdr ++ zeros 4).
        { rewrite take_app_ge by lia. rewrite Hhdr. done. }
        assert (H13 : drop (9 + 4) (hdr ++ counter32 (chunkIndex st) ++ zeros 8)
                      = zeros 8).
        { rewrite app_assoc. apply drop_app_length'.
          rewrite length_app, length_counter32, Hhdr. done. }
        rewrite H9, H13. unfold counter32. by rewrite <- !app_assoc.
      * by apply calls_okA_snoc.
  - unfold chunkIndexSizeIfAEADEP.
    rewrite setInt32_ok by (unfold len; lia).
    destruct (write_link _ _ _ _) as [[w a] n].
    intros [<- <-]%pair_equal_spec. proj_simpl.
    split; [|done]. apply calls_okA_snoc; [done|].
    unfold adataTagArray. change (Z.to_nat (5 + 8 + 4)) with 17%nat.
    rewrite take_app_le by (rewrite length_take; lia).
    rewrite take_take. change (13 `min` 17)%nat with 13%nat.
    rewrite Hb, Hi, app_assoc. apply take_app_length'.
    rewrite length_app, length_counter32, Hhdr. done.
Qed.

Lemma loopA_calls fuel st st' :
  RunningA st -> loop false true fn mode inst chunkSize fuel st = Some st' ->
  calls_okA (calls st').
Proof.
  revert st; induction fuel as [|fuel IH]; intros st Hrun; simpl; [done|].
  destruct (bodyA st) as [st1 [|]] eqn:Hb.
  - apply IH. by apply (proj2 (bodyA_step _ _ _ Hrun Hb)).
  - intros [= <-]. apply (proj1 (bodyA_step _ _ _ Hrun Hb)).
Qed.
End AEADP_calls.

(** ** Counting the calls of a version 2 encryption *)

Lemma ceil_step cs r :
  0 < cs -> 0 < r ->
  (r + cs - 1) / cs = 1 + (Z.max (r - cs) 0 + cs - 1) / cs.
Proof.
  intros Hcs Hr.
  replace (r + cs - 1) with (r - 1 + 1 * cs) by lia.
  rewrite Z.div_add by lia.
  destruct (Z.le_gt_cases cs r).
  - rewrite Z.max_l by lia. replace (r - cs + cs - 1) with (r - 1) by lia. lia.
  - rewrite Z.max_r by lia. rewrite !Z.div_small by lia. lia.
Qed.

Lemma call_chunks_app a b : call_chunks (a ++ b) = call_chunks a ++ call_chunks b.
Proof. apply omap_app. Qed.

Section V2_size.
Context (mode : AEADMode) (inst : ModeInstance) (cs : Z).
Hypothesis Hcs : 0 < cs.
Hypothesis law : aead_expands (tagLength mode) inst.

#[local] Abbreviation loop_enc := (loop true false Encrypt mode inst (Some cs)).

Lemma enc_loop_count fuel ste ste' :
  good ste -> loop_enc fuel ste = Some ste' ->
  let r := len (rd_rest (reader ste)) in
  let k := if chunkIndex ste =? 0 then Z.max 1 ((r + cs - 1) / cs)
           else (r + cs - 1) / cs in
  ∃ W C,
    written ste' = written ste ++ W ∧ calls ste' = calls ste ++ C
    ∧ aborted ste' = None
    ∧ Z.of_nat (length (call_chunks C)) = k + 1
    ∧ len (concat W) = r + (k + 1) * tagLength mode
    ∧ concat (call_chunks C).*2 = rd_rest (reader ste)
    ∧ Forall (λ fc, len fc.2 <= cs) (call_chunks C)
    ∧ (call_chunks C).*1 = replicate (Z.to_nat k) false ++ [true].
Proof.
  revert ste. induction fuel as [|fuel IH]; intros ste Hg Hloop; [done|].
  cbv zeta.
  destruct (decide (chunkIndex ste = 0 ∨ rd_rest (reader ste) ≠ [])) as [Hdata|Hfin].
  - set (chunk := take (Z.to_nat cs) (rd_rest (reader ste))).
    destruct (law chunk (iv ste) (take 5 (adataBuffer ste))) as (ct & Hct & Hlct).
    destruct (enc_data_step mode inst cs Hcs ste ct Hg Hdata Hct)
      as (ste1 & Hb & Hg1 & Hr1 & Hw1 & Hi1 & _ & _ & _ & Hc1).
    rewrite (loop_continue _ _ _ _ _ _ _ _ _ Hb) in Hloop.
    destruct (IH ste1 Hg1 Hloop)
      as (W & C & HW & HC & Hab & Hn & Hl & Hcat & Hall & Hfl).
    cbv zeta in Hn, Hl, Hfl.
    assert (Hidx : (chunkIndex ste1 =? 0) = false).
    { apply Z.eqb_neq. destruct Hg as [_ _ ? _ _]. lia. }
    rewrite Hidx in Hn, Hl, Hfl.
    assert (Hlr : len (rd_rest (reader ste1))
                  = Z.max (len (rd_rest (reader ste)) - cs) 0).
    { rewrite Hr1. unfold len. rewrite length_drop. lia. }
    assert (Hlc : len chunk = Z.min cs (len (rd_rest (reader ste)))).
    { unfold chunk, len. rewrite length_take. lia. }
    fold chunk in Hc1.
    exists (ct :: W), (EvCrypt Encrypt false chunk (iv ste) (take 5 (adataBuffer ste)) :: C).
    split; [by rewrite HW, Hw1, <- (assoc_L (++))|].
    split; [by rewrite HC, Hc1, <- (assoc_L (++))|].
    split; [done|].
    assert (Hk : (if chunkIndex ste =? 0
                  then Z.max 1 ((len (rd_rest (reader ste)) + cs - 1) / cs)
                  else (len (rd_rest (reader ste)) + cs - 1) / cs)
                 = 1 + (len (rd_rest (reader ste1)) + cs - 1) / cs).
    { rewrite Hlr.
      destruct (Z.eq_dec (len (rd_rest (reader ste))) 0) as [H0|H0].
      - rewrite H0. rewrite (Z.max_r (0 - cs)) by lia.
        replace (0 + cs - 1) with (cs - 1) by lia.
        rewrite Z.div_small by lia.
        destruct Hdata as [->|Hne]; [done|].
        exfalso. apply Hne. by apply len_nil_iff, Z.eqb_eq.
      - assert (0 < len (rd_rest (reader ste))) by (unfold len in *; lia).
        rewrite <- ceil_step by done.
        assert (1 <= (len (rd_rest (reader ste)) + cs - 1) / cs).
        { rewrite ceil_step by done.
          assert (0 <= (Z.max (len (rd_rest (reader ste)) - cs) 0 + cs - 1) / cs);
            [|lia].
          apply Z.div_pos; lia. }
        destruct (chunkIndex ste =? 0); lia. }
    rewrite Hk.
    change (call_chunks (EvCrypt Encrypt false chunk (iv ste)
                           (take 5 (adataBuffer ste)) :: C))
      with ((false, chunk) :: call_chunks C).
    cbn [length concat fmap list_fmap fst snd].
    split; [lia|]. split.
    { rewrite len_app, Hl, Hlct, Hlc, Hlr. lia. }
    split.
    { rewrite Hcat, Hr1. apply take_drop. }
    split; [apply Forall_cons; split; [cbn; lia|done]|].
    assert (0 <= (len (rd_rest (reader ste1)) + cs - 1) / cs).
    { apply Z.div_pos; [unfold len; lia|lia]. }
    rewrite Z2Nat.inj_add by lia. change (Z.to_nat 1) with 1%nat.
    cbn [Nat.add replicate app]. f_equal. exact Hfl.
  - assert (Hidx : chunkIndex ste ≠ 0) by tauto.
    assert (Hrest : rd_rest (reader ste) = []).
    { destruct (rd_rest (reader ste)); [done|]. exfalso. apply Hfin. by right. }
    destruct (law [] (iv ste) (final_adata ste)) as (ct & Hct & Hlct).
    destruct (enc_final_step mode inst cs Hcs ste ct Hg Hidx Hrest Hct)
      as (ste1 & Hb & Hw1 & Hab & Hc1).
    rewrite (loop_stop _ _ _ _ _ _ _ _ _ Hb) in Hloop. injection Hloop as <-.
    exists [ct], [EvCrypt Encrypt true [] (iv ste) (final_adata ste)].
    split; [done|]. split; [done|]. split; [done|].
    rewrite Hrest. apply Z.eqb_neq in Hidx. rewrite Hidx.
    change (len []) with 0. replace (0 + cs - 1) with (cs - 1) by lia.
    rewrite Z.div_small by lia.
    cbn [call_chunks omap length concat fmap list_fmap snd app].
    rewrite app_nil_r. change (len []) with 0 in Hlct.
    split; [done|]. split; [lia|]. split; [done|].
    split; [|done].
    apply Forall_singleton. cbn. change (len []) with 0. lia.
Qed.

End V2_size.

(** ** The counter, turn by turn *)

Lemma length_call_chunks evs : length (call_chunks evs) = length (crypt_calls evs).
Proof.
  induction evs as [|ev evs IH]; [done|]. destruct ev; cbn; try done.
  by rewrite <- IH.
Qed.

Lemma loop_body_counter isSEIPDv2 isAEADP fn mode inst chunkSize st st' :
  loop_body isSEIPDv2 isAEADP fn mode inst chunkSize st = (st', true) ->
  chunkIndex st' = chunkIndex st + 1
  ∧ (∃ chunk nonce adata,
       calls st' = calls st ++ [EvCrypt fn false chunk nonce adata])
  ∧ (isSEIPDv2 = true ->
       4 <= len (iv st)
       ∧ iv st' = take (length (iv st) - 4) (iv st)
                    ++ Z_to_be 4 (chunkIndex st + 1)
       ∧ adataBuffer st' = adataBuffer st)
  ∧ (isSEIPDv2 = false ->
       13 <= len (adataBuffer st)
       ∧ adataBuffer st' = take 9 (adataBuffer st)
                             ++ Z_to_be 4 (chunkIndex st + 1)
                             ++ drop 13 (adataBuffer st)
       ∧ iv st' = iv st).
Proof.
  unfold loop_body.
  destruct (readBytes _ _) as [e|[read rd]]; [intros [= _ ?]; done|].
  destruct ((chunkIndex st =? 0) || negb (len _ =? 0)).
  - destruct (write_link _ _ _ _) as [[w a] n].
    destruct isSEIPDv2.
    + unfold setInt32.
      destruct ((len (iv st) - 4 <? 0) || (len (iv st) <? len (iv st) - 4 + 4))
        eqn:Hg; [intros [= _ ?]; done|].
      apply orb_false_iff in Hg as [Hg _]. apply Z.ltb_ge in Hg.
      intros [<- _]%pair_equal_spec. proj_simpl. split; [done|]. split; [by eexists _, _, _|].
      split; [|done]. intros _. split; [lia|]. split; [|done].
      replace (Z.to_nat (len (iv st) - 4)) with (length (iv st) - 4)%nat
        by (unfold len; lia).
      rewrite (drop_ge (iv st)) by lia. by rewrite app_nil_r.
    + unfold setInt32.
      destruct ((5 + 4 <? 0) || (len (adataBuffer st) <? 5 + 4 + 4))
        eqn:Hg; [intros [= _ ?]; done|].
      apply orb_false_iff in Hg as [_ Hg]. apply Z.ltb_ge in Hg.
      intros [<- _]%pair_equal_spec. proj_simpl. split; [done|]. split; [by eexists _, _, _|].
      split; [done|]. intros _. split; [lia|]. done.
  - destruct (setInt32 _ _ _); [intros [= _ ?]; done|].
    destruct (write_link _ _ _ _) as [[w a] n]. intros [= _ ?]; done.
Qed.

(** ** The calls of a run *)

Lemma crypt_calls_all evs : Forall is_crypt evs -> crypt_calls evs = evs.
Proof.
  induction 1 as [|ev evs Hev _ IH]; [done|].
  destruct ev; try done. simpl. by rewrite IH.
Qed.

Section Calls.
Context `{Crypto}.

Lemma running_new_engine fn mode inst d iv0 buf :
  Running fn mode inst iv0 buf (data_err d) (len (data_bytes d))
    (new_engine d iv0 buf).
Proof. by constructor. Qed.

Lemma data_calls_crypt fn iv0 buf pre :
  data_calls_ok fn iv0 buf pre -> Forall is_crypt pre.
Proof.
  intros Hpre. apply Forall_lookup. intros j ev Hj.
  destruct (Hpre j ev Hj) as [c ->]. done.
Qed.

(** The calls of a run on a version 2 SEIPD packet. *)
Lemma v2_run_calls packet fn key d mode inst :
  pk_instanceof_SEIPD packet = true -> js_is (pk_version packet) 2 = true ->
  v2_setup packet key mode inst -> 4 <= ivLength mode ->
  ∃ iv0 te st pre,
    len iv0 = ivLength mode
    ∧ (8 <= ivLength mode -> drop (length iv0 - 8) iv0 = zeros 8)
    ∧ runAEAD packet fn key d
      = (te, inr (transformed_like d (concat (written st)) (aborted st)))
    ∧ crypt_calls te = calls st
    ∧ data_calls_ok fn iv0 (adata_header packet ++ zeros 8) pre
    ∧ ((calls st = pre ∧ data_err d ≠ None)
       ∨ (∃ c, calls st
               = pre ++ [EvCrypt fn true c
                           (nonce_at iv0 (Z.of_nat (length pre)))
                           (adata_header packet ++ zeros 4
                              ++ Z_to_be 4 (plain_count (tagLengthIfDecrypting fn mode) pre))]
           ∧ (fn = Encrypt ->
              reads_positive fn mode (v2_chunkSize fn mode packet) ->
              plain_count (tagLengthIfDecrypting fn mode) pre = len (data_bytes d))
           ∧ (fn = Decrypt -> 0 <= tagLength mode ->
              aead_shrinks (tagLength mode) inst -> aborted st = None ->
              len (concat (written st))
              = plain_count (tagLengthIfDecrypting fn mode) pre))).
Proof.
  intros Hinst Hv Hsetup Hivl.
  destruct (v2_setup_run packet key mode inst Hinst Hv Hsetup Hivl)
    as (iv0 & pre0 & Hiv0 & Hpre0 & Hprec & Hz & Hall).
  destruct (Hall fn d) as (st & Hloop & Hrun).
  pose proof (running_new_engine fn mode inst d iv0 (adata_header packet ++ zeros 8))
    as Hrunning.
  destruct (loop_post fn mode inst _ iv0 (adata_header packet ++ zeros 8)
              (data_err d) (len (data_bytes d)) eq_refl _ _ _ Hrunning Hloop)
    as (pre & Hpre & Hcases).
  exists iv0, (pre0 ++ calls st), st, pre.
  split; [done|]. split; [done|]. split; [done|].
  assert (Hcr : Forall is_crypt (calls st)).
  { destruct Hcases as [[-> _]|(c & -> & _)].
    - by eapply data_calls_crypt.
    - apply Forall_app. split; [by eapply data_calls_crypt|].
      by apply Forall_singleton. }
  split. { by rewrite crypt_calls_app, Hprec, crypt_calls_all. }
  split; [done|].
  destruct Hcases as [[Hc [Hre|Hlt]]|(c & Hc & Henc & Hdec)].
  - left. done.
  - lia.
  - right. exists c. done.
Qed.

Lemma runAEAD_aeadp_inv packet fn key d te out :
  pk_instanceof_SEIPD packet && js_is (pk_version packet) 2 = false ->
  pk_tag packet = aeadEncryptedData ->
  runAEAD packet fn key d = (te, inr out) ->
  ∃ mode inst cs st,
    loop false true fn mode inst cs (S (S (length (data_bytes d))))
      (new_engine d (pk_iv packet) (adata_header packet ++ zeros 16)) = Some st
    ∧ crypt_calls te = crypt_calls (calls st).
Proof.
  intros Hv Htag. unfold runAEAD. rewrite Hv, Htag, Z.eqb_refl. cbn [andb negb].
  destruct (getAEADMode _ _) as [e|mode] eqn:Hmode; [done|].
  cbn [lift bind chunkIndexSizeIfAEADEP ret emit fst snd app].
  destruct (mode_new _ _ _) as [e|inst] eqn:Hnew; [done|].
  cbn [lift bind chunkIndexSizeIfAEADEP ret emit fst snd app].
  change (zeros (Z.to_nat (8 + 8))) with (zeros 16).
  set (cs := (λ n, n + tagLengthIfDecrypting fn mode) <$> _).
  destruct (new_engine_terminates false true fn mode inst cs d (pk_iv packet)
              (adata_header packet ++ zeros 16)) as [st Hst].
  rewrite Hst. intros [= <- _].
  exists mode, inst, cs, st. split; [done|]. done.
Qed.

(** C5: in every run of [runAEAD] on a version 2 packet that reads its
    input to the end, the last call to the mode is the closing one; its
    associated data are the five header octets, four zero octets and the
    number of plaintext bytes of the data chunks written as a 4-byte
    big-endian field at offset 9; that number is the length of the
    plaintext (when encrypting: of the input, when decrypting: of the
    output). *)
Theorem final_chunk_binds_length packet fn key d mode inst :
  pk_instanceof_SEIPD packet = true -> js_is (pk_version packet) 2 = true ->
  data_err d = None ->
  v2_setup packet key mode inst -> 4 <= ivLength mode ->
  ∃ te out pre chunk nonce,
    runAEAD packet fn key d = (te, inr out)
    ∧ crypt_calls te
      = pre ++ [EvCrypt fn true chunk nonce
                  (adata_header packet ++ zeros 4
                     ++ Z_to_be 4 (plain_count (tagLengthIfDecrypting fn mode) pre))]
    ∧ (∀ ev, ev ∈ pre -> ∃ c n, ev = EvCrypt fn false c n (adata_header packet))
    ∧ (fn = Encrypt ->
       (∀ c, pk_chunkSizeByte packet = JNum c -> 0 <= c) ->
       plain_count (tagLengthIfDecrypting fn mode) pre = len (data_bytes d))
    ∧ (fn = Decrypt -> 0 <= tagLength mode ->
       aead_shrinks (tagLength mode) inst -> data_err out = None ->
       plain_count (tagLengthIfDecrypting fn mode) pre = len (data_bytes out)).
Proof.
  intros Hinst Hv Herr Hsetup Hivl.
  destruct (v2_run_calls packet fn key d mode inst Hinst Hv Hsetup Hivl)
    as (iv0 & te & st & pre & _ & _ & Hrun & Hcr & Hpre & Hcases).
  destruct Hcases as [[_ Hne]|(c & Hc & Henc & Hdec)]; [done|].
  exists te, (transformed_like d (concat (written st)) (aborted st)), pre, c,
    (nonce_at iv0 (Z.of_nat (length pre))).
  split; [done|]. split; [by rewrite Hcr|]. split; [|split].
  - intros ev [j Hj]%list_elem_of_lookup. destruct (Hpre j ev Hj) as [c' ->].
    by eexists _, _.
  - intros Hfn Hpos. apply Henc; [done|].
    intros k Hk. rewrite Hfn. cbn [tagLengthIfDecrypting].
    unfold v2_chunkSize in Hk. rewrite Hfn in Hk. cbn [tagLengthIfDecrypting] in Hk.
    destruct (pk_chunkSizeByte packet) as [| |c'|] eqn:Hcb; try done.
    + injection Hk as <-. lia.
    + injection Hk as <-.
      assert (0 < 2 ^ (c' + 6)); [|lia].
      apply Z.pow_pos_nonneg; [lia|]. specialize (Hpos c' eq_refl). lia.
  - intros Hfn Ht Hlaw Hab. rewrite data_err_like in Hab.
    rewrite data_bytes_like. symmetry. by apply Hdec.
Qed.

(** C7: every turn of the loop of [runAEAD] that goes on to another chunk
    has made a mode call, adds one to the chunk counter and writes it with
    [setInt32], as four big-endian octets: on a version 2 packet over the
    last four octets of the derived IV, on an AEAD-encrypted-data packet at
    offset 9 of the associated data.  So in a run on a version 2 packet the
    nonce of call [j] is the IV prefix, four zero octets and [j] in four
    octets, and the version 2 encryption of [n] bytes makes one such call
    for every [j] up to the number of its data chunks; in a run on an
    AEAD-encrypted-data packet the associated data of call [j] carries the
    same eight octets after the header.  The field is the counter modulo
    2^32: it agrees with the 64-bit big-endian counter below 2^32 chunks,
    repeats every 2^32 chunks and differs from the 64-bit counter at chunk
    2^32. *)
Theorem counter_is_32_bit :
  (∀ packet fn key d mode inst,
      pk_instanceof_SEIPD packet = true -> js_is (pk_version packet) 2 = true ->
      v2_setup packet key mode inst -> 8 <= ivLength mode ->
      ∃ te out ivprefix,
        runAEAD packet fn key d = (te, inr out)
        ∧ len ivprefix = ivLength mode - 8
        ∧ ∀ (j : nat) ev, crypt_calls te !! j = Some ev ->
            ∃ final chunk adata,
              ev = EvCrypt fn final chunk (ivprefix ++ counter32 (Z.of_nat j)) adata)
  ∧ (∀ packet fn key d te out,
      pk_instanceof_SEIPD packet && js_is (pk_version packet) 2 = false ->
      pk_tag packet = aeadEncryptedData ->
      runAEAD packet fn key d = (te, inr out) ->
      ∀ (j : nat) ev, crypt_calls te !! j = Some ev ->
        ∃ final chunk nonce adata,
          ev = EvCrypt fn final chunk nonce adata
          ∧ take 13 adata = adata_header packet ++ counter32 (Z.of_nat j))
  ∧ (∀ isSEIPDv2 isAEADP fn mode inst chunkSize st st',
      loop_body isSEIPDv2 isAEADP fn mode inst chunkSize st = (st', true) ->
      chunkIndex st' = chunkIndex st + 1
      ∧ (∃ chunk nonce adata,
           calls st' = calls st ++ [EvCrypt fn false chunk nonce adata])
      ∧ (isSEIPDv2 = true ->
           4 <= len (iv st)
           ∧ iv st' = take (length (iv st) - 4) (iv st)
                        ++ Z_to_be 4 (chunkIndex st + 1)
           ∧ adataBuffer st' = adataBuffer st)
      ∧ (isSEIPDv2 = false ->
           13 <= len (adataBuffer st)
           ∧ adataBuffer st' = take 9 (adataBuffer st)
                                 ++ Z_to_be 4 (chunkIndex st + 1)
                                 ++ drop 13 (adataBuffer st)
           ∧ iv st' = iv st))
  ∧ (∀ packet key d mode inst c,
      pk_instanceof_SEIPD packet = true -> js_is (pk_version packet) 2 = true ->
      pk_chunkSizeByte packet = JNum c -> 0 <= c -> data_err d = None ->
      v2_setup packet key mode inst -> 8 <= ivLength mode ->
      aead_expands (tagLength mode) inst ->
      let cs := 2 ^ (c + 6) in
      let k := Z.max 1 ((len (data_bytes d) + cs - 1) / cs) in
      ∃ te out ivprefix,
        runAEAD packet Encrypt key d = (te, inr out)
        ∧ len ivprefix = ivLength mode - 8
        ∧ Z.of_nat (length (crypt_calls te)) = k + 1
        ∧ ∀ j : nat, Z.of_nat j <= k ->
            ∃ final chunk adata,
              crypt_calls te !! j
              = Some (EvCrypt Encrypt final chunk
                        (ivprefix ++ counter32 (Z.of_nat j)) adata))
  ∧ (∀ j, counter32 (j + 2 ^ 32) = counter32 j)
  ∧ (∀ j, 0 <= j < 2 ^ 32 -> counter32 j = counter64 j)
  ∧ counter32 (2 ^ 32) ≠ counter64 (2 ^ 32).
Proof.
  assert (Hv2 : ∀ packet fn key d mode inst,
      pk_instanceof_SEIPD packet = true -> js_is (pk_version packet) 2 = true ->
      v2_setup packet key mode inst -> 8 <= ivLength mode ->
      ∃ te out ivprefix,
        runAEAD packet fn key d = (te, inr out)
        ∧ len ivprefix = ivLength mode - 8
        ∧ ∀ (j : nat) ev, crypt_calls te !! j = Some ev ->
            ∃ final chunk adata,
              ev = EvCrypt fn final chunk (ivprefix ++ counter32 (Z.of_nat j)) adata);
    [|split; [exact Hv2|split; [|split; [|split; [|split; [|split]]]]]].
  - intros packet fn key d mode inst Hinst Hv Hsetup Hivl.
    destruct (v2_run_calls packet fn key d mode inst Hinst Hv Hsetup ltac:(lia))
      as (iv0 & te & st & pre & Hiv0 & Hz & Hrun & Hcr & Hpre & Hcases).
    specialize (Hz Hivl).
    exists te, (transformed_like d (concat (written st)) (aborted st)),
      (take (length iv0 - 8) iv0).
    split; [done|]. split.
    { unfold len in *. rewrite length_take. lia. }
    assert (Hnonce : ∀ j : nat,
              nonce_at iv0 (Z.of_nat j)
              = take (length iv0 - 8) iv0 ++ counter32 (Z.of_nat j)).
    { intros j. unfold nonce_at.
      destruct (Z.eqb_spec (Z.of_nat j) 0) as [->|Hj].
      - change (counter32 0) with (zeros 8). rewrite <- Hz. by rewrite take_drop.
      - unfold counter32. rewrite app_assoc. f_equal.
        rewrite <- (take_drop (length iv0 - 8) (take (length iv0 - 4) iv0)).
        rewrite take_take.
        replace ((length iv0 - 8) `min` (length iv0 - 4))%nat
          with (length iv0 - 8)%nat by lia.
        f_equal. rewrite skipn_firstn_comm.
        replace (length iv0 - 4 - (length iv0 - 8))%nat with 4%nat
          by (unfold len in *; lia).
        fold (@take Z). fold (@drop Z). by rewrite Hz. }
    intros j ev Hj. rewrite Hcr in Hj.
    destruct Hcases as [[Hc _]|(c & Hc & _)]; rewrite Hc in Hj.
    + destruct (Hpre j ev Hj) as [c' ->]. rewrite Hnonce. by eexists _, _, _.
    + destruct (decide (j < length pre)%nat) as [Hlt|Hge].
      * rewrite lookup_app_l in Hj by done.
        destruct (Hpre j ev Hj) as [c' ->]. rewrite Hnonce. by eexists _, _, _.
      * rewrite lookup_app_r in Hj by lia.
        destruct (j - length pre)%nat eqn:Hd; [|by destruct n].
        simpl in Hj. injection Hj as <-.
        replace (length pre) with j by lia. rewrite Hnonce. by eexists _, _, _.
  - intros packet fn key d te out Hv Htag Hrun j ev Hj.
    destruct (runAEAD_aeadp_inv packet fn key d te out Hv Htag Hrun)
      as (mode & inst & cs & st & Hloop & Hcr).
    assert (Hok : calls_okA fn (adata_header packet) (calls st)).
    { eapply (loopA_calls fn mode inst cs (adata_header packet) eq_refl); [|exact Hloop].
      by constructor. }
    rewrite Hcr, crypt_calls_all in Hj.
    + by apply Hok.
    + apply Forall_lookup. intros i ev' Hi.
      destruct (Hok i ev' Hi) as (? & ? & ? & ? & -> & _). done.
  - apply loop_body_counter.
  - intros packet key d mode inst c Hinst Hv Hc Hc0 Herr Hsetup Hivl Hlaw cs k.
    destruct (Hv2 packet Encrypt key d mode inst Hinst Hv Hsetup Hivl)
      as (te & out & ivprefix & Hrun & Hlen & Hcalls).
    exists te, out, ivprefix. split; [done|]. split; [done|].
    assert (Hcount : Z.of_nat (length (crypt_calls te)) = k + 1).
    { destruct (v2_setup_run packet key mode inst Hinst Hv Hsetup ltac:(lia))
        as (iv0 & pre & Hiv0 & Hpre & Hprec & _ & Hall).
      destruct (Hall Encrypt d) as (ste & Hle & Hre).
      rewrite Hre in Hrun. apply pair_equal_spec in Hrun as [<- _].
      assert (Hcs : 0 < cs) by (apply Z.pow_pos_nonneg; lia).
      unfold v2_chunkSize in Hle. rewrite Hc in Hle.
      cbn [chunk_bytes fmap option_fmap option_map tagLengthIfDecrypting] in Hle.
      rewrite Z.add_0_r in Hle.
      assert (Hg0 : good (new_engine d iv0 (adata_header packet ++ zeros 8)))
        by (apply good_new_engine; [done|lia|done]).
      destruct (enc_loop_count mode inst cs Hcs Hlaw _ _ _ Hg0 Hle)
        as (W & C & _ & HC & _ & Hn & _).
      rewrite crypt_calls_app, Hprec, HC. cbn [new_engine calls app].
      by rewrite <- length_call_chunks. }
    split; [exact Hcount|].
    intros j Hj.
    destruct (lookup_lt_is_Some_2 (crypt_calls te) j ltac:(lia)) as [ev Hev].
    destruct (Hcalls j ev Hev) as (final & chunk & adata & ->).
    by exists final, chunk, adata.
  - apply counter32_wraps.
  - apply counter32_small.
  - apply counter32_overflow.
Qed.
End Calls.

(** ** Guards and the legacy path *)

Section Simple.
Context `{Crypto} {PL : Type} `{PacketList PL}.
#[local] Abbreviation SEIPD := (SymEncryptedIntegrityProtectedDataPacket PL).

(** C10: for a packet that is neither a version 2 SEIPD packet nor an
    AEAD-encrypted-data packet, a version 1 SEIPD packet in particular,
    [runAEAD] throws [Unexpected packet type] and has called neither HKDF
    nor a mode. *)
Theorem runAEAD_rejects_other_packets :
  (∀ packet fn key d,
      pk_instanceof_SEIPD packet && js_is (pk_version packet) 2 = false ->
      pk_tag packet ≠ aeadEncryptedData ->
      runAEAD packet fn key d = ([], inl UnexpectedPacketType))
  ∧ (∀ (this : SEIPD) fn key d,
      js_is (version this) 2 = false ->
      runAEAD (as_packet this) fn key d = ([], inl UnexpectedPacketType)).
Proof.
  assert (Hgen : ∀ packet fn key d,
      pk_instanceof_SEIPD packet && js_is (pk_version packet) 2 = false ->
      pk_tag packet ≠ aeadEncryptedData ->
      runAEAD packet fn key d = ([], inl UnexpectedPacketType)).
  { intros packet fn key d Hv Htag. unfold runAEAD. rewrite Hv.
    destruct (Z.eqb_spec (pk_tag packet) aeadEncryptedData); done. }
  split; [exact Hgen|].
  intros this fn key d Hv. apply Hgen; [|done].
  cbn [as_packet pk_instanceof_SEIPD pk_version andb]. exact Hv.
Qed.

(** C3: with a session key whose length is not the key size of the cipher,
    [encrypt] and [decrypt] throw [Unexpected session key size], have made
    no call into the collaborators and leave the packet as it was, whatever
    its [encrypted] field holds. *)
Theorem key_size_enforced (this : SEIPD) alg key config rnd bs ks :
  getCipherParams (JNum alg) = inr (bs, ks) -> len key ≠ ks ->
  encrypt this alg key config rnd
  = {| trace := []; this_after := this;
       returned := inl UnexpectedSessionKeySize |}
  ∧ decrypt this alg key config
    = {| trace := []; this_after := this;
         returned := inl UnexpectedSessionKeySize |}
  ∧ ∀ enc,
      returned (encrypt (set_encrypted this enc) alg key config rnd)
      = inl UnexpectedSessionKeySize
      ∧ returned (decrypt (set_encrypted this enc) alg key config)
        = inl UnexpectedSessionKeySize
      ∧ encrypted (this_after (encrypt (set_encrypted this enc) alg key config rnd))
        = Some enc
      ∧ encrypted (this_after (decrypt (set_encrypted this enc) alg key config))
        = Some enc.
Proof.
  intros Hps Hkey.
  assert (Hkeyb : negb (len key =? ks) = true).
  { apply negb_true_iff, Z.eqb_neq. done. }
  assert (He : ∀ this' : SEIPD, encrypt this' alg key config rnd
            = {| trace := []; this_after := this';
                 returned := inl UnexpectedSessionKeySize |}).
  { intros this'. unfold encrypt. by rewrite Hps, Hkeyb. }
  assert (Hd : ∀ this' : SEIPD, decrypt this' alg key config
            = {| trace := []; this_after := this';
                 returned := inl UnexpectedSessionKeySize |}).
  { intros this'. unfold decrypt, decrypt_payload. rewrite Hps.
    cbn [lift bind snd]. by rewrite Hkeyb. }
  split; [apply He|]. split; [apply Hd|].
  intros enc. by rewrite He, Hd.
Qed.

(** C2: on a version 1 packet [decrypt] CFB-decrypts, takes the last 20
    bytes as the claimed digest and hashes what precedes them.  When the
    digests agree the parser gets the bytes between prefix and MDC marker.
    When they differ [decrypt] throws [Modification detected.] without
    calling the parser or touching the packet, unless the ciphertext is a
    stream and [allowUnauthenticatedStream] is set: then the parser gets a
    stream that yields the payload and raises the error at its end. *)
Theorem legacy_integrity_check (this : SEIPD) alg key config bs ks enc :
  getCipherParams (JNum alg) = inr (bs, ks) -> len key = ks ->
  js_is (version this) 1 = true ->
  encrypted this = Some enc -> data_err enc = None ->
  let iv := zeros (Z.to_nat bs) in
  let decrypted := cfb_decrypt alg key (data_bytes enc) iv in
  let claimed := subarray_from decrypted (-20) in
  let tohash := subarray decrypted 0 (-20) in
  let payload := subarray (subarray_from tohash (bs + 2)) 0 (-2) in
  let deferred :=
    match enc with
    | Stream _ _ => allowUnauthenticatedStream config
    | _ => false
    end in
  let work := [EvCFB Decrypt key (data_bytes enc) iv; EvDigest tohash] in
  (sha1 tohash = claimed ->
   decrypt_payload this alg key config
   = (work, inr (if deferred then Stream payload None else Uint8Array payload,
                 deferred)))
  ∧ (sha1 tohash ≠ claimed -> deferred = false ->
     decrypt this alg key config
     = {| trace := work; this_after := this;
          returned := inl ModificationDetected |})
  ∧ (sha1 tohash ≠ claimed -> deferred = true ->
     decrypt_payload this alg key config
     = (work, inr (Stream payload (Some ModificationDetected), true))
     ∧ trace (decrypt this alg key config)
       = work ++ [EvFromBinary (Stream payload (Some ModificationDetected)) true]).
Proof.
  intros Hps Hkey Hv Henc Herr iv decrypted claimed tohash payload deferred work.
  pose proof (js_is_1_not_2 _ Hv) as Hv2.
  assert (Hkeyb : negb (len key =? ks) = false).
  { apply negb_false_iff, Z.eqb_eq. done. }
  assert (Hpay : decrypt_payload this alg key config
    = (work,
       if equalsUint8Array (sha1 tohash) claimed then
         inr (if deferred then Stream payload None else Uint8Array payload, deferred)
       else if deferred then inr (Stream payload (Some ModificationDetected), true)
       else inl ModificationDetected)).
  { unfold decrypt_payload. rewrite Hps. cbn [lift bind snd fst]. rewrite Hkeyb, Henc.
    subst work deferred payload tohash claimed decrypted iv.
    destruct enc as [b|b e|b e]; simpl in Herr; subst;
      cbv beta iota zeta delta
        [lift bind emit ret throw isArrayStream streamReadToEnd data_err
         data_bytes result_map data_map isStream andb concat_with_async
         transformed_like fst snd];
      rewrite Hv2;
      cbv beta iota zeta delta
        [lift bind emit ret throw isArrayStream streamReadToEnd data_err
         data_bytes result_map data_map isStream andb concat_with_async
         transformed_like fst snd];
      destruct (equalsUint8Array _ _); cbn [negb];
      try destruct (allowUnauthenticatedStream config);
      cbn [app]; rewrite ?app_nil_r; reflexivity. }
  assert (Heqb : equalsUint8Array (sha1 tohash) claimed = true
                 <-> sha1 tohash = claimed).
  { unfold equalsUint8Array. apply bool_decide_eq_true. }
  destruct (equalsUint8Array (sha1 tohash) claimed) eqn:Hb.
  - assert (Heq : sha1 tohash = claimed) by (by apply Heqb).
    split; [done|]. split; intros Hne; by destruct Hne.
  - assert (Hne : sha1 tohash ≠ claimed).
    { intros Heq. apply Heqb in Heq. done. }
    split; [done|]. split.
    + intros _ Hd. unfold decrypt. by rewrite Hpay, Hd.
    + intros _ Hd. rewrite Hd in Hpay. split; [done|].
      unfold decrypt. rewrite Hpay. by destruct (fromBinary _ _).
Qed.
End Simple.

(** ** read *)

Section Read.
Context {PL : Type}.
#[local] Abbreviation SEIPD := (SymEncryptedIntegrityProtectedDataPacket PL).

(** C8, amended: [read] takes the first byte as the version and throws the
    unsupported-version error for an empty input and for any version other
    than 1 or 2; for version 1 the rest is the ciphertext; for version 2 and
    an input that holds the whole header it reads cipher algorithm, AEAD
    algorithm, chunk size byte and 32 bytes of salt, in this order, and the
    rest is the ciphertext; a version 2 input that ends inside the header
    is read without an error: the fields past the end of the input are
    undefined, the salt is what is left after the three octets (fewer than
    32 bytes, undefined when nothing is left), and the ciphertext is
    empty. *)
Theorem read_parses_header (this : SEIPD) (input : data) :
  data_err input = None ->
  let out := read this input in
  (data_bytes input = [] -> returned out = inl (UnsupportedError JUndefined))
  ∧ (∀ v rest, data_bytes input = v :: rest -> v ≠ 1 -> v ≠ 2 ->
       returned out = inl (UnsupportedError (JNum v)))
  ∧ (∀ rest, data_bytes input = 1 :: rest ->
       returned out = inr tt
       ∧ this_after out
         = set_encrypted (set_version this (JNum 1))
             (transformed_like input rest None))
  ∧ (∀ c a k s rest,
       data_bytes input = 2 :: c :: a :: k :: s ++ rest -> length s = 32%nat ->
       returned out = inr tt
       ∧ this_after out = v2_parsed this input c a k s rest)
  ∧ (∀ rest, data_bytes input = 2 :: rest -> returned out = inr tt)
  ∧ (∀ rest, data_bytes input = 2 :: rest -> (length rest < 35)%nat ->
       returned out = inr tt
       ∧ this_after out = v2_parsed_short this input rest).
Proof.
  intros Herr out. subst out. unfold read, getReader, remainder.
  rewrite Herr.
  split; [|split; [|split; [|split; [|split]]]].
  - intros ->. reflexivity.
  - intros v rest -> H1 H2. cbn [readByte rd_rest rd_err].
    cbn [js_is]. destruct (Z.eqb_spec v 1); [done|].
    destruct (Z.eqb_spec v 2); [done|]. reflexivity.
  - intros rest ->. by destruct input.
  - intros c a k s rest -> Hs. cbn [readByte rd_rest rd_err js_is].
    change (1 =? 2) with false. change (2 =? 1) with false.
    change (2 =? 2) with true. cbn [negb andb].
    rewrite readBytes_spec by done. cbn [rd_rest rd_err].
    change (Z.to_nat 32) with 32%nat.
    destruct s as [|x s]; [done|]. cbn [app].
    change (x :: s ++ rest) with ((x :: s) ++ rest).
    rewrite take_app_length', drop_app_length' by done.
    cbn [from_option]. split; [done|]. reflexivity.
  - intros rest ->. cbn [readByte rd_rest rd_err js_is].
    change (2 =? 1) with false. change (2 =? 2) with true. cbn [negb andb].
    destruct rest as [|c [|a [|k rest]]]; cbn [readByte rd_rest rd_err];
      try reflexivity.
    + destruct rest as [|x rest]; [reflexivity|].
      rewrite readBytes_spec by done. reflexivity.
  - intros rest -> Hlen. cbn [readByte rd_rest rd_err js_is].
    change (2 =? 1) with false. change (2 =? 2) with true. cbn [negb andb].
    destruct rest as [|c [|a [|k rest]]]; cbn [readByte rd_rest rd_err];
      try (split; reflexivity).
    destruct rest as [|x rest]; [split; reflexivity|].
    rewrite readBytes_spec by done. cbn [rd_rest rd_err].
    change (Z.to_nat 32) with 32%nat. cbn [length] in Hlen.
    rewrite take_ge, drop_ge by (cbn [length]; lia).
    split; reflexivity.
Qed.

End Read.

(** ** The runs of runAEAD *)

Section Runs_of_runAEAD.
Context `{Crypto}.

(** A run of [runAEAD] that returns is a run of the loop. *)
Lemma runAEAD_run packet fn key d te out :
  runAEAD packet fn key d = (te, inr out) ->
  ∃ isS mode inst k iv0 buf st pre,
    getAEADMode (pk_aeadAlgorithm packet) (negb isS) = inr mode
    ∧ mode_new mode (pk_cipherAlgorithm packet) k = inr inst
    ∧ loop isS (negb isS) fn mode inst (v2_chunkSize fn mode packet)
        (S (S (length (data_bytes d)))) (new_engine d iv0 buf) = Some st
    ∧ te = pre ++ calls st ∧ crypt_calls pre = []
    ∧ out = transformed_like d (concat (written st)) (aborted st).
Proof.
  unfold runAEAD.
  set (isS := pk_instanceof_SEIPD packet && js_is (pk_version packet) 2).
  destruct (negb isS && negb (negb isS && (pk_tag packet =? aeadEncryptedData)))
    eqn:Hguard; [done|].
  assert (HA : negb isS && (pk_tag packet =? aeadEncryptedData) = negb isS).
  { destruct isS; [done|]. cbn [negb andb] in *.
    by destruct (pk_tag packet =? aeadEncryptedData). }
  rewrite HA.
  destruct (getAEADMode _ _) as [e|mode] eqn:Hmode; [done|].
  cbn [lift bind].
  destruct isS; cbn [negb chunkIndexSizeIfAEADEP].
  - destruct (getCipherParams _) as [e|ps]; [done|].
    cbn [lift bind emit ret fst snd app].
    destruct (computeHKDF _ _ _ _) as [e|derived]; [done|].
    cbn [lift bind emit ret fst snd app].
    destruct (mode_new _ _ _) as [e|inst] eqn:Hnew; [done|].
    cbn [lift bind emit ret fst snd app].
    fold (v2_chunkSize fn mode packet).
    match goal with |- context [new_engine d ?i ?b] =>
      destruct (new_engine_terminates true false fn mode inst
                  (v2_chunkSize fn mode packet) d i b) as [st Hst];
      set (iv0 := i) in *; set (buf := b) in *
    end.
    rewrite Hst. intros [= <- <-].
    exists true, mode, inst, (subarray derived 0 ps.2), iv0, buf, st.
    eexists [_; _]. split_and!; done.
  - cbn [lift bind emit ret fst snd app].
    destruct (mode_new _ _ _) as [e|inst] eqn:Hnew; [done|].
    cbn [lift bind emit ret fst snd app].
    fold (v2_chunkSize fn mode packet).
    match goal with |- context [new_engine d ?i ?b] =>
      destruct (new_engine_terminates false true fn mode inst
                  (v2_chunkSize fn mode packet) d i b) as [st Hst];
      set (iv0 := i) in *; set (buf := b) in *
    end.
    rewrite Hst. intros [= <- <-].
    exists false, mode, inst, key, iv0, buf, st.
    eexists [_]. split_and!; done.
Qed.

End Runs_of_runAEAD.

(** ** The write chain *)

Section Pipeline.
Context (isSEIPDv2 isAEADP : bool) (fn : direction) (mode : AEADMode)
        (inst : ModeInstance) (chunkSize : option Z).

#[local] Abbreviation body := (loop_body isSEIPDv2 isAEADP fn mode inst chunkSize).
#[local] Abbreviation lp := (loop isSEIPDv2 isAEADP fn mode inst chunkSize).
#[local] Abbreviation trn := (turn isSEIPDv2 isAEADP fn mode chunkSize).
#[local] Abbreviation pst := (pstep isSEIPDv2 isAEADP fn mode inst chunkSize).
#[local] Abbreviation reach :=
  (reachable isSEIPDv2 isAEADP fn mode inst chunkSize).
#[local] Abbreviation crypted := (crypted_of inst).
#[local] Abbreviation wby := (written_by inst).

(** A turn of the loop as [loop_body] has it is the turn itself, the link of
    its call run at once, and the [catch] block if it threw. *)
Lemma loop_body_turn st :
  body st
  = let '(st1, call, e) := trn st in
    let st2 := match call ≫= crypted with
               | Some crypted => run_link crypted st1
               | None => st1
               end in
    match e with
    | Goes_on => (st2, true)
    | Closes => (st2, false)
    | Throws e => (abort e st2, false)
    end.
Proof.
  unfold loop_body, turn, run_link.
  destruct (readBytes _ _) as [e|[read rd]]; [done|].
  destruct ((chunkIndex st =? 0) || negb (len _ =? 0)).
  - destruct isSEIPDv2.
    + destruct (setInt32 _ _ _); cbn; destruct (write_link _ _ _ _) as [[w a] n]; done.
    + destruct (setInt32 _ _ _); cbn; destruct (write_link _ _ _ _) as [[w a] n]; done.
  - destruct (setInt32 _ _ _); [done|]. cbn.
    destruct (write_link _ _ _ _) as [[w a] n]; done.
Qed.

Lemma turn_calls st st1 call e :
  trn st = (st1, call, e) ->
  calls st1 = calls st ++ from_option (λ ev, [ev]) [] call
  ∧ written st1 = written st ∧ aborted st1 = aborted st
  ∧ arrayWriter st1 = arrayWriter st
  ∧ match call with
    | Some ev => ∃ fin c n a, ev = EvCrypt fn fin c n a
                              ∧ (fin = true <-> e = Closes)
    | None => e ≠ Closes ∧ e ≠ Goes_on
    end.
Proof.
  unfold turn.
  destruct (readBytes _ _) as [e'|[read rd]].
  { intros [= <- <- <-]. rewrite app_nil_r. done. }
  destruct ((chunkIndex st =? 0) || negb (len _ =? 0)).
  - destruct isSEIPDv2.
    + destruct (setInt32 _ _ _); intros [[<- <-]%pair_equal_spec <-]%pair_equal_spec.
      all: cbn [calls written aborted arrayWriter from_option].
      all: split_and!; try done; eexists false, _, _, _; split; [done|]; done.
    + destruct (setInt32 _ _ _); intros [[<- <-]%pair_equal_spec <-]%pair_equal_spec.
      all: cbn [calls written aborted arrayWriter from_option].
      all: split_and!; try done; eexists false, _, _, _; split; [done|]; done.
  - destruct (setInt32 _ _ _).
    { intros [= <- <- <-]. rewrite app_nil_r. done. }
    intros [[<- <-]%pair_equal_spec <-]%pair_equal_spec.
    cbn [calls written aborted arrayWriter from_option].
    split_and!; try done. eexists true, _, _, _. done.
Qed.

Lemma increasing_snoc js k :
  increasing js -> Forall (λ j, (j < k)%nat) js -> increasing (js ++ [k]).
Proof.
  intros Hinc Hall i i' j j' Hlt Hi Hi'.
  destruct (decide (i' < length js)%nat) as [Hin|Hout].
  - rewrite lookup_app_l in Hi by lia. rewrite lookup_app_l in Hi' by lia.
    exact (Hinc i i' j j' Hlt Hi Hi').
  - rewrite lookup_app_r in Hi' by lia.
    apply list_lookup_singleton_Some in Hi' as [Hd <-].
    rewrite lookup_app_l in Hi by lia.
    by eapply (proj1 (Forall_lookup _ _) Hall).
Qed.

Lemma results_of_more evs evs' js ws :
  results_of inst evs js ws -> results_of inst (evs ++ evs') js ws.
Proof.
  intros Hr. eapply Forall2_impl; [exact Hr|].
  intros j w (ev & Hj & Hw). exists ev. split; [|done].
  by apply lookup_app_l_Some.
Qed.

Lemma results_of_snoc evs js ws j ev w :
  results_of inst evs js ws -> evs !! j = Some ev -> wby ev = Some w ->
  results_of inst evs (js ++ [j]) (ws ++ [w]).
Proof.
  intros Hr Hj Hw. apply Forall2_app; [done|].
  constructor; [by exists ev|constructor].
Qed.

Lemma pipeline_inv_start st0 :
  calls st0 = [] -> written st0 = [] ->
  pipeline_inv fn inst (pipeline_start st0).
Proof.
  intros Hc Hw. constructor; cbn [pipeline_start eng links settled closed status];
    rewrite ?Hc, ?Hw; try done.
  - exists []. split; [by intros ? ? ? ? ? [=]|]. split; [done|constructor].
  - by intros [[=]|[=]].
Qed.

Lemma pipeline_inv_step s s' :
  pipeline_inv fn inst s -> pst s s' -> pipeline_inv fn inst s'.
Proof.
  intros [Hcr Hlk Hst (js & Hinc & Hjs & Hres) Hall Hcl Hfin Hdone] Hstep.
  destruct Hstep as [s st1 call e wait Hrd Hturn|s n Hn Hns
                    |s ev r Hev Hr Hset|s dn Haw Hl|s e Hc].
  - destruct (turn_calls _ _ _ _ Hturn) as (Hcalls & Hw & Hab & Har & Hcall).
    constructor; cbn [eng status settled links closed].
    + rewrite Hcalls. apply Forall_app. split; [done|].
      destruct call as [ev|]; [|constructor].
      destruct Hcall as (? & ? & ? & ? & -> & _). by repeat constructor.
    + rewrite Hcalls, length_app. lia.
    + rewrite Hcalls, length_app. eapply Forall_impl; [exact Hst|].
      cbn. intros; lia.
    + exists js. split; [done|]. split; [done|].
      rewrite Hcalls, Hw. by apply results_of_more.
    + rewrite Hw, Hab, Har, Hcalls. intros Hp.
      rewrite take_app_le by done. by apply Hall.
    + intros Hc. destruct (Hcl Hc) as [? _]. congruence.
    + intros j fn' c n a Hj. rewrite Hcalls in Hj.
      destruct (decide (j < length (calls (eng s)))%nat) as [Hlt|Hge].
      { rewrite lookup_app_l in Hj by done.
        destruct (Hfin _ _ _ _ _ Hj) as [_ [?|?]]; congruence. }
      rewrite lookup_app_r in Hj by lia.
      destruct call as [ev|]; [|done]. cbn [from_option] in Hj.
      apply list_lookup_singleton_Some in Hj as [Hd ->].
      destruct Hcall as (fin & ? & ? & ? & [= <- <- <- <- <-] & Hf).
      rewrite Hcalls, length_app. cbn [from_option length].
      split; [lia|]. rewrite (proj1 Hf eq_refl). by left.
    + intros [Hs|Hc]; [|destruct (Hcl Hc) as [? _]; congruence].
      destruct e; [by destruct wait| |done].
      destruct call as [ev|]; [|by destruct Hcall].
      destruct Hcall as (fin & c & n & a & -> & Hf).
      rewrite Hcalls. cbn [from_option].
      rewrite last_snoc, (proj2 Hf eq_refl). by eexists _, _, _.
  - constructor; cbn [eng status settled links closed]; try done.
    + apply Forall_app. split; [done|]. by repeat constructor.
    + by exists js.
  - pose proof (lookup_lt_Some _ _ _ Hev) as Hlt.
    assert (Hcalls : calls (run_link r (eng s)) = calls (eng s)).
    { unfold run_link. by destruct (write_link _ _ _ _) as [[? ?] ?]. }
    assert (Harr : arrayWriter (run_link r (eng s)) = arrayWriter (eng s)).
    { unfold run_link. by destruct (write_link _ _ _ _) as [[? ?] ?]. }
    assert (Htake : take (S (links s)) (calls (eng s))
                    = take (links s) (calls (eng s)) ++ [ev]).
    { by apply take_S_r. }
    assert (Hjs' : Forall (λ j, (j < S (links s))%nat) js).
    { eapply Forall_impl; [exact Hjs|]. cbn. intros; lia. }
    assert (Hwby : wby ev = match r with inr c => Some c | inl _ => None end).
    { unfold written_by. by rewrite Hr. }
    constructor; cbn [eng status settled links closed];
      rewrite ?Hcalls, ?Harr; try done.
    + unfold run_link.
      destruct r as [e|c], (aborted (eng s)) as [e0|], (arrayWriter (eng s));
        cbn [write_link written]; try (by exists js).
      all: exists (js ++ [links s]); split; [by apply increasing_snoc|];
        (split; [apply Forall_app; split; [done|]; repeat constructor; lia|]);
        by eapply results_of_snoc.
    + rewrite Htake, omap_app. cbn [omap list_omap]. rewrite Hwby.
      unfold run_link.
      destruct r as [e|c], (aborted (eng s)) as [e0|] eqn:Hab,
        (arrayWriter (eng s)) eqn:Ha;
        cbn [write_link written aborted]; intros [Hp|Hp]; try done.
      all: rewrite ?app_nil_r; try (f_equal); apply Hall; auto.
    + intros Hc. destruct (Hcl Hc) as [_ ?]. lia.
  - constructor; cbn [eng status settled links closed]; try done.
    + by exists js.
    + intros [Hc|Hd]%orb_true_iff.
      * destruct (Hcl Hc) as [? _]. congruence.
      * subst dn. done.
    + intros j fn' c n a Hj. destruct (Hfin _ _ _ _ _ Hj) as [? [Hs|Hs]].
      * rewrite Hs in Haw. injection Haw as <-. split; [done|by right].
      * congruence.
    + intros [Hs|[Hc|Hd]%orb_true_iff].
      * by destruct dn.
      * apply Hdone. by right.
      * subst dn. apply Hdone. by left.
  - constructor; cbn [eng status settled links closed abort calls written
                      arrayWriter aborted]; try done.
    + by exists js.
    + intros [Hp|Hp]; [by apply Hall; left|]. by destruct (aborted (eng s)).
    + intros Hcl'. destruct (Hcl Hcl') as [? _]. congruence.
    + intros j fn' c n a Hj. destruct (Hfin _ _ _ _ _ Hj) as [? [Hs|Hs]]; congruence.
    + intros [Hs|Hcl']; [done|]. destruct (Hcl Hcl') as [? _]. congruence.
Qed.

Lemma reachable_inv st0 s :
  calls st0 = [] -> written st0 = [] -> reach st0 s -> pipeline_inv fn inst s.
Proof.
  intros Hc Hw. revert s. apply (rtc_ind_r _ (pipeline_start st0)).
  - by apply pipeline_inv_start.
  - intros y z _ Hstep Hy. by eapply pipeline_inv_step.
Qed.

Lemma same_loop_refl a : same_loop a a.
Proof. by repeat split. Qed.

Lemma same_loop_trans a b c : same_loop a b -> same_loop b c -> same_loop a c.
Proof.
  intros (?&?&?&?&?&?&?) (?&?&?&?&?&?&?). repeat split; congruence.
Qed.

Lemma same_loop_sym a b : same_loop a b -> same_loop b a.
Proof. intros (?&?&?&?&?&?&?). by repeat split. Qed.

Lemma run_link_same r st : same_loop (run_link r st) st.
Proof. unfold run_link. by destruct (write_link _ _ _ _) as [[? ?] ?]. Qed.

Lemma abort_same e st : same_loop (abort e st) st.
Proof. by repeat split. Qed.

Lemma turn_same a b a1 call e :
  same_loop a b -> trn a = (a1, call, e) ->
  ∃ b1, trn b = (b1, call, e) ∧ same_loop a1 b1.
Proof.
  intros (Hr & Hi & Hc & Hiv & Hbuf & Har & Hcalls). unfold turn, chunk_nonce.
  rewrite Hr, Hi, Hc, Hiv, Hbuf, Hcalls.
  destruct (readBytes _ _) as [e'|[read rd]].
  { intros [= <- <- <-]. eexists. split; [done|]. by repeat split. }
  destruct ((chunkIndex b =? 0) || negb (len _ =? 0)).
  - destruct isSEIPDv2.
    + destruct (setInt32 _ _ _);
        intros [[<- <-]%pair_equal_spec <-]%pair_equal_spec;
        (eexists; split; [done|]); by repeat split.
    + destruct (setInt32 _ _ _);
        intros [[<- <-]%pair_equal_spec <-]%pair_equal_spec;
        (eexists; split; [done|]); by repeat split.
  - destruct (setInt32 _ _ _).
    { intros [= <- <- <-]. eexists. split; [done|]. by repeat split. }
    intros [[<- <-]%pair_equal_spec <-]%pair_equal_spec.
    eexists. split; [done|]. by repeat split.
Qed.

(** What [body] does where a turn of a pipelined run does [turn]. *)
Lemma body_of_turn a b a1 call e :
  same_loop a b -> trn a = (a1, call, e) ->
  ∃ b', body b = (b', match e with Goes_on => true | _ => false end)
        ∧ same_loop a1 b'.
Proof.
  intros Hs Ht. destruct (turn_same _ _ _ _ _ Hs Ht) as (b1 & Hb & Hs1).
  rewrite loop_body_turn, Hb.
  set (b2 := match call ≫= crypted with
             | Some r => run_link r b1
             | None => b1
             end).
  assert (H2 : same_loop a1 b2).
  { unfold b2. destruct (call ≫= crypted); [|done].
    eapply same_loop_trans; [exact Hs1|]. apply same_loop_sym, run_link_same. }
  destruct e; eexists; (split; [done|]); done.
Qed.

Lemma follows_start st0 : follows body st0 (pipeline_start st0).
Proof. exists st0. split; [apply same_loop_refl|]. cbn. apply rtc_refl. Qed.

Lemma follows_step st0 s s' :
  follows body st0 s -> pst s s' -> follows body st0 s'.
Proof.
  intros (st & Hs & Hst) Hstep.
  destruct Hstep as [s st1 call e wait Hrd Hturn|s n Hn Hns
                    |s ev r Hev Hr Hset|s dn Haw Hl|s e Hc];
    unfold follows; cbn [eng status].
  - rewrite Hrd in Hst.
    destruct (body_of_turn _ _ _ _ _ Hs Hturn) as (b' & Hb & Hs').
    exists b'. split; [done|].
    destruct e.
    + assert (rtc (λ a b, body a = (b, true)) st0 b').
      { eapply rtc_r; [exact Hst|exact Hb]. }
      by destruct wait.
    + by exists st.
    + by exists st.
  - by exists st.
  - exists st. split; [|done].
    eapply same_loop_trans; [apply run_link_same|exact Hs].
  - exists st. split; [done|]. rewrite Haw in Hst. by destruct dn.
  - exists st. rewrite Hc in Hst. split; [|done].
    eapply same_loop_trans; [apply abort_same|exact Hs].
Qed.

Lemma reachable_follows st0 s : reach st0 s -> follows body st0 s.
Proof.
  revert s. apply (rtc_ind_r _ (pipeline_start st0)).
  - apply follows_start.
  - intros y z _ Hstep Hy. by eapply follows_step.
Qed.

Lemma body_calls st st' b :
  body st = (st', b) -> calls st `prefix_of` calls st'.
Proof.
  rewrite loop_body_turn. destruct (trn st) as [[st1 call] e] eqn:Ht.
  destruct (turn_calls _ _ _ _ Ht) as (Hc & _).
  set (st2 := match call ≫= crypted with
              | Some r => run_link r st1
              | None => st1
              end).
  assert (H2 : calls st2 = calls st1).
  { unfold st2. destruct (call ≫= crypted); [|done]. apply run_link_same. }
  destruct e; intros [= <- _]; cbn [abort calls]; rewrite H2, Hc;
    by apply prefix_app_r.
Qed.

Lemma loop_calls fuel st stf :
  lp fuel st = Some stf -> calls st `prefix_of` calls stf.
Proof.
  revert st. induction fuel as [|fuel IH]; intros st; [done|].
  cbn [loop]. destruct (body st) as [st' b] eqn:Hb.
  pose proof (body_calls _ _ _ Hb) as Hp.
  destruct b.
  - intros Hl. etrans; [exact Hp|]. by apply IH.
  - by intros [= <-].
Qed.

Lemma loop_follows fuel st0 st stf :
  lp fuel st0 = Some stf -> rtc (λ a b, body a = (b, true)) st0 st ->
  calls st `prefix_of` calls stf
  ∧ ∀ st', body st = (st', false) -> st' = stf.
Proof.
  intros Hl Hrtc. revert fuel Hl.
  induction Hrtc as [st|a b c Hab _ IH]; intros fuel Hl.
  - split; [by eapply loop_calls|].
    intros st' Hb. destruct fuel; [done|].
    cbn [loop] in Hl. rewrite Hb in Hl. by injection Hl.
  - destruct fuel; [done|]. cbn [loop] in Hl. rewrite Hab in Hl.
    by eapply IH.
Qed.

(** The run in which every link runs as soon as it is appended is the run
    of [loop]. *)
Lemma loop_is_a_run fuel st stf p :
  lp fuel st = Some stf -> eng p = st -> status p = Reading ->
  links p = length (calls st) ->
  Forall (λ n, (n < length (calls st))%nat) (settled p) ->
  ∃ s, rtc pst p s ∧ eng s = stf ∧ status s = Left
       ∧ links s = length (calls stf).
Proof.
  revert st p. induction fuel as [|fuel IH]; intros st p; [done|].
  cbn [loop]. rewrite loop_body_turn.
  destruct (trn st) as [[st1 call] e] eqn:Ht.
  destruct (turn_calls _ _ _ _ Ht) as (Hc & _ & _ & _ & Hcall).
  intros Hl Heng Hrd Hlk Hset.
  destruct p as [pe ps pset plk pcl]. cbn [eng status links settled] in *.
  subst pe ps plk.
  pose proof (step_turn isSEIPDv2 isAEADP fn mode inst chunkSize
                {| eng := st; status := Reading; settled := pset;
                   links := length (calls st); closed := pcl |}
                st1 call e true eq_refl Ht) as Hstep1.
  cbn [eng status links settled closed] in Hstep1.
  destruct call as [ev|]; cbn [mbind option_bind] in Hl.
  - destruct Hcall as (fin & c & n & a & -> & Hfin).
    cbn [crypted_of from_option] in Hl, Hc.
    set (r := mi_run inst fn c n a) in *.
    set (st2 := run_link r st1) in *.
    assert (Hc2 : calls st2 = calls st1) by apply run_link_same.
    assert (Hlen : length (calls st1) = S (length (calls st))).
    { rewrite Hc, length_app. cbn. lia. }
    set (stat := match e with
                 | Goes_on => Awaiting false
                 | Closes => Awaiting true
                 | Throws e0 => Caught e0
                 end) in *.
    assert (Hsteps : rtc pst
              {| eng := st; status := Reading; settled := pset;
                 links := length (calls st); closed := pcl |}
              {| eng := st2; status := stat;
                 settled := pset ++ [length (calls st)];
                 links := S (length (calls st)); closed := pcl |}).
    { eapply rtc_l; [exact Hstep1|].
      eapply rtc_l.
      { apply (step_settle _ _ _ _ _ _ _ (length (calls st)));
          cbn [eng settled]; [lia|].
        intros Hin. apply (proj1 (Forall_forall _ _) Hset) in Hin. lia. }
      eapply rtc_l; [|apply rtc_refl].
      apply (step_link _ _ _ _ _ _
               {| eng := st1; status := stat;
                  settled := pset ++ [length (calls st)];
                  links := length (calls st); closed := pcl |}
               (EvCrypt fn fin c n a) r); cbn [eng links settled].
      - rewrite Hc. by apply list_lookup_middle.
      - done.
      - apply elem_of_app. right. by apply list_elem_of_singleton. }
    destruct e; subst stat.
    + destruct (IH st2
                  {| eng := st2; status := Reading;
                     settled := pset ++ [length (calls st)];
                     links := S (length (calls st)); closed := pcl || false |}
                  Hl eq_refl eq_refl)
        as (s & Hs & Hrest); cbn [links settled].
      { by rewrite Hc2, Hlen. }
      { rewrite Hc2, Hlen. apply Forall_app. split.
        - eapply Forall_impl; [exact Hset|]. cbn. intros; lia.
        - repeat constructor. }
      exists s. split; [|done].
      etrans; [exact Hsteps|]. eapply rtc_l; [|exact Hs].
      apply (step_resume _ _ _ _ _ _
               {| eng := st2; status := Awaiting false;
                  settled := pset ++ [length (calls st)];
                  links := S (length (calls st)); closed := pcl |} false);
        cbn [eng status links]; [done|]. by rewrite Hc2, Hlen.
    + injection Hl as <-. eexists. split.
      { etrans; [exact Hsteps|]. eapply rtc_l; [|apply rtc_refl].
        apply (step_resume _ _ _ _ _ _
                 {| eng := st2; status := Awaiting true;
                    settled := pset ++ [length (calls st)];
                    links := S (length (calls st)); closed := pcl |} true);
          cbn [eng status links]; [done|]. by rewrite Hc2, Hlen. }
      cbn [eng status links]. by rewrite Hc2, Hlen.
    + injection Hl as <-. eexists. split.
      { etrans; [exact Hsteps|]. eapply rtc_l; [|apply rtc_refl].
        apply (step_catch _ _ _ _ _ _
                 {| eng := st2; status := Caught e;
                    settled := pset ++ [length (calls st)];
                    links := S (length (calls st)); closed := pcl |} e).
        done. }
      cbn [eng status links abort calls]. by rewrite Hc2, Hlen.
  - destruct Hcall as [Hnc Hng]. destruct e as [| |e]; [done..|].
    injection Hl as <-. cbn [from_option] in Hc. rewrite app_nil_r in Hc.
    eexists. split.
    { eapply rtc_l; [exact Hstep1|]. eapply rtc_l; [|apply rtc_refl].
      apply (step_catch _ _ _ _ _ _
               {| eng := st1; status := Caught e; settled := pset;
                  links := length (calls st); closed := pcl |} e).
      done. }
    cbn [eng status links abort calls]. by rewrite Hc.
Qed.

Lemma reachable_arrayWriter st0 s :
  reach st0 s -> arrayWriter (eng s) = arrayWriter st0.
Proof.
  revert s. apply (rtc_ind_r _ (pipeline_start st0)); [done|].
  intros y z _ Hstep <-.
  destruct Hstep as [s st1 call e wait Hrd Hturn|s n Hn Hns
                    |s ev r Hev Hr Hset|s dn Haw Hl|s e Hc];
    cbn [eng]; try done.
  - by destruct (turn_calls _ _ _ _ Hturn) as (_ & _ & _ & -> & _).
  - apply run_link_same.
Qed.

(** What holds of every state [s] that a run of the loop started in [st0],
    with an empty sink, can be in. *)
Lemma pipeline_facts st0 s :
  calls st0 = [] -> written st0 = [] -> reach st0 s ->
  (links s <= length (calls (eng s)))%nat
  ∧ (∃ js, increasing js ∧ Forall (λ j, (j < links s)%nat) js
           ∧ results_of inst (calls (eng s)) js (written (eng s)))
  ∧ (arrayWriter st0 = true ∨ aborted (eng s) = None ->
     written (eng s) = omap wby (take (links s) (calls (eng s))))
  ∧ (∀ s', pst s s' ->
       calls (eng s) `prefix_of` calls (eng s')
       ∧ written (eng s) `prefix_of` written (eng s'))
  ∧ (closed s = true ->
     status s = Left ∧ links s = length (calls (eng s))
     ∧ ∃ c n a, last (calls (eng s)) = Some (EvCrypt fn true c n a))
  ∧ (∀ j fn' c n a, calls (eng s) !! j = Some (EvCrypt fn' true c n a) ->
       S j = length (calls (eng s))
       ∧ (status s = Awaiting true ∨ status s = Left))
  ∧ (∀ fuel stf, lp fuel st0 = Some stf ->
       calls (eng s) `prefix_of` calls stf
       ∧ (status s = Left ->
          calls (eng s) = calls stf
          ∧ (arrayWriter st0 = true -> links s = length (calls stf) ->
             written (eng s) = written stf))).
Proof.
  intros Hc0 Hw0 Hreach.
  destruct (reachable_inv _ _ Hc0 Hw0 Hreach)
    as [Hcr Hlk Hst Hord Hall Hcl Hfin Hdone].
  pose proof (reachable_arrayWriter _ _ Hreach) as Harr0.
  rewrite Harr0 in Hall.
  split; [done|]. split; [done|]. split; [done|]. split.
  { intros s' Hstep.
    destruct Hstep as [s st1 call e wait Hrd Hturn|s n Hn Hns
                      |s ev r Hev Hr Hset|s dn Haw Hl|s e Hc];
      cbn [eng]; try done.
    - destruct (turn_calls _ _ _ _ Hturn) as (-> & -> & _). split; [|done].
      by apply prefix_app_r.
    - unfold run_link.
      destruct r as [e|c], (aborted (eng s)), (arrayWriter (eng s));
        cbn [write_link written calls]; split; try done;
        by apply prefix_app_r. }
  split.
  { intros Hc. destruct (Hcl Hc) as [? ?]. split_and!; [done..|].
    apply Hdone. by right. }
  split; [done|].
  intros fuel stf Hl.
  destruct (reachable_follows _ _ Hreach) as (st & Hs & Hfol).
  assert (Hcs : calls (eng s) = calls st) by apply Hs.
  assert (Harr : arrayWriter (eng s) = arrayWriter st) by apply Hs.
  assert (Hleft : status s = Left -> st = stf).
  { intros HL. rewrite HL in Hfol. destruct Hfol as (st' & Hrtc & Hb).
    by apply (loop_follows _ _ _ _ Hl Hrtc). }
  split.
  { rewrite Hcs. destruct (status s) as [|[|]|e|] eqn:Hstat.
    - by apply (loop_follows _ _ _ _ Hl Hfol).
    - destruct Hfol as (st' & Hrtc & Hb).
      destruct (loop_follows _ _ _ _ Hl Hrtc) as [_ He].
      by rewrite (He _ Hb).
    - by apply (loop_follows _ _ _ _ Hl Hfol).
    - destruct Hfol as (st' & Hrtc & Hb).
      destruct (loop_follows _ _ _ _ Hl Hrtc) as [_ He].
      by rewrite (He _ Hb).
    - by rewrite (Hleft eq_refl). }
  intros HL. specialize (Hleft HL). subst st. split; [done|].
  intros Ha Hlinks.
  destruct (loop_is_a_run fuel st0 stf (pipeline_start st0) Hl eq_refl eq_refl)
    as (sq & Hsq & Heq & _ & Hlq); cbn [pipeline_start links settled].
  { by rewrite Hc0. }
  { constructor. }
  destruct (reachable_inv st0 sq Hc0 Hw0 Hsq) as [_ _ _ _ Hallq _ _ _].
  pose proof (reachable_arrayWriter _ _ Hsq) as Harrq.
  rewrite Heq, Hlq, take_ge in Hallq by done. rewrite Heq in Harrq.
  rewrite (Hallq (or_introl (eq_trans Harrq Ha))).
  rewrite Hall by (by left).
  by rewrite Hlinks, Hcs, take_ge.
Qed.

End Pipeline.


Section Write_order.
Context `{Crypto}.


End Write_order.



(** ** The small collaborators *)

Lemma toy_E_block k b : length (toy_E k b) = 16%nat.
Proof. unfold toy_E. by rewrite length_map. Qed.

Lemma length_toy_tag t nonce adata pt :
  0 <= t -> len (toy_tag t nonce adata pt) = t.
Proof. intros Ht. unfold toy_tag, len. rewrite length_map, length_seqZ. lia. Qed.

Lemma toy_expands t : 0 <= t -> aead_expands t (toy_instance t).
Proof.
  intros Ht pt nonce ad. eexists. split; [reflexivity|].
  pose proof (length_toy_tag t nonce ad pt Ht) as Hl.
  unfold len in *. rewrite length_app. lia.
Qed.

Lemma toy_shrinks t : 0 <= t -> aead_shrinks t (toy_instance t).
Proof.
  intros Ht ct nonce ad pt. cbn [mi_decrypt toy_instance].
  destruct (Z.ltb_spec (len ct) t); [done|].
  destruct (bool_decide _); [|done]. intros [= <-].
  unfold len in *. rewrite length_take. lia.
Qed.

Lemma toy_correct t : 0 <= t -> aead_correct t (toy_instance t).
Proof.
  intros Ht pt nonce ad. eexists. split; [reflexivity|].
  pose proof (length_toy_tag t nonce ad pt Ht) as Hl.
  split. { unfold len in *. rewrite length_app. lia. }
  cbn [mi_decrypt toy_instance].
  assert (Hlen : (length (pt ++ toy_tag t nonce ad pt) - Z.to_nat t)%nat = length pt).
  { unfold len in *. rewrite length_app. lia. }
  rewrite Hlen, take_app_length, drop_app_length.
  destruct (Z.ltb_spec (len (pt ++ toy_tag t nonce ad pt)) t).
  { unfold len in *. rewrite length_app in *. lia. }
  by rewrite bool_decide_eq_true_2.
Qed.

Lemma toy_v2_setup : @v2_setup toy_crypto toy_packet toy_key (toy_mode 16 12) (toy_instance 16).
Proof.
  exists (16, 16). eexists. repeat split; try reflexivity; try done.
Qed.

Lemma toy_cfb alg key pt iv :
  @cfb_decrypt toy_crypto alg key (@cfb_encrypt toy_crypto alg key pt iv) iv = pt.
Proof.
  cbn [cfb_decrypt cfb_encrypt toy_crypto]. rewrite map_map.
  rewrite <- (map_id pt) at 2. apply map_ext. intros x.
  rewrite Z.lxor_assoc, Z.lxor_nilpotent. apply Z.lxor_0_r.
Qed.

(** ** The theorems at work *)

Lemma CMAC_computes_omac1_witness :
  CMAC toy_E [1; 2; 3] (seqZ 0 37) = omac1_spec toy_E [1; 2; 3] (seqZ 0 37).
Proof.
  exact (proj1 (CMAC_computes_omac1 toy_E toy_E_block [1; 2; 3] (seqZ 0 37))).
Defined.

Lemma encrypt_decrypt_roundtrip_witness :
  let e := @encrypt toy_crypto _ toy_packetlist (toy_seipd 2 (seqZ 0 200)) 7
             toy_key toy_config toy_rnd in
  returned e = inr true
  ∧ ∃ t d delayErrors,
      @decrypt_payload toy_crypto _ (this_after e) 7 toy_key toy_config
      = (t, inr (d, delayErrors))
      ∧ streamReadToEnd d = inr (seqZ 0 200)
      ∧ trace (@decrypt toy_crypto _ toy_packetlist (this_after e) 7 toy_key toy_config)
        = t ++ [EvFromBinary d delayErrors].
Proof.
  apply (@encrypt_decrypt_roundtrip toy_crypto _ toy_packetlist
           (toy_seipd 2 (seqZ 0 200)) 7 toy_key toy_config toy_config toy_rnd
           (seqZ 0 200) 16 16); try reflexivity.
  right. split; [reflexivity|].
  exists (toy_mode 16 12), (toy_instance 16), 0.
  split; [reflexivity|]. split; [lia|]. split; [exact toy_v2_setup|].
  split; [simpl; lia|]. split; [simpl; lia|]. apply toy_correct. lia.
Defined.

Lemma legacy_integrity_check_witness :
  @decrypt toy_crypto _ toy_packetlist toy_received 7 toy_key toy_config
  = {| trace :=
         [EvCFB Decrypt toy_key toy_ciphertext (zeros 16);
          EvDigest (subarray (@cfb_decrypt toy_crypto 7 toy_key toy_ciphertext (zeros 16))
                      0 (-20))];
       this_after := toy_received;
       returned := inl ModificationDetected |}.
Proof.
  apply (@legacy_integrity_check toy_crypto _ toy_packetlist toy_received 7 toy_key
           toy_config 16 16 (Uint8Array toy_ciphertext));
    try reflexivity.
  vm_compute. discriminate.
Defined.

Lemma key_size_enforced_witness :
  @encrypt toy_crypto _ toy_packetlist (toy_seipd 2 [1; 2; 3]) 7 [1; 2; 3]
    toy_config toy_rnd
  = {| trace := []; this_after := toy_seipd 2 [1; 2; 3];
       returned := inl UnexpectedSessionKeySize |}.
Proof.
  apply (@key_size_enforced toy_crypto _ toy_packetlist (toy_seipd 2 [1; 2; 3]) 7
           [1; 2; 3] toy_config toy_rnd 16 16); [reflexivity|].
  vm_compute. discriminate.
Defined.

Lemma final_chunk_binds_length_witness :
  ∃ te out pre chunk nonce,
    @runAEAD toy_crypto toy_packet Encrypt toy_key toy_plaintext = (te, inr out)
    ∧ crypt_calls te
      = pre ++ [EvCrypt Encrypt true chunk nonce
                  (adata_header toy_packet ++ zeros 4
                     ++ Z_to_be 4 (plain_count 0 pre))]
    ∧ plain_count 0 pre = 200.
Proof.
  destruct (@final_chunk_binds_length toy_crypto toy_packet Encrypt toy_key
              toy_plaintext (toy_mode 16 12) (toy_instance 16)
              eq_refl eq_refl eq_refl toy_v2_setup)
    as (te & out & pre & chunk & nonce & Hrun & Hcalls & _ & Henc & _).
  { simpl. lia. }
  exists te, out, pre, chunk, nonce. split; [exact Hrun|]. split; [exact Hcalls|].
  apply (Henc eq_refl). intros c [= <-]. lia.
Defined.

Lemma chunk_counting_witness :
  ∃ te out,
    @runAEAD toy_crypto toy_packet Encrypt toy_key toy_plaintext = (te, inr out)
    ∧ map (λ fc, len (snd fc)) (call_chunks te) = [64; 64; 64; 8; 0]
    ∧ len (data_bytes out) = 200 + 5 * 16.
Proof.
  destruct (@chunk_counting toy_crypto toy_packet toy_key toy_plaintext
              (toy_mode 16 12) (toy_instance 16)
              eq_refl eq_refl eq_refl eq_refl eq_refl toy_v2_setup)
    as (te & out & c0 & c1 & c2 & c3 & c4 & Hrun & _ & Hlens & _ & _ & _ & _ & _ & _ & _ & Htotal).
  { simpl. lia. }
  { apply toy_expands. lia. }
  exists te, out. split; [exact Hrun|]. split; [exact Hlens|exact Htotal].
Defined.

Lemma counter_is_32_bit_witness :
  ∃ te out ivprefix,
    @runAEAD toy_crypto toy_packet Encrypt toy_key toy_plaintext = (te, inr out)
    ∧ len ivprefix = 4
    ∧ Z.of_nat (length (crypt_calls te)) = 4 + 1
    ∧ ∀ j : nat, Z.of_nat j <= 4 ->
        ∃ final chunk adata,
          crypt_calls te !! j
          = Some (EvCrypt Encrypt final chunk
                    (ivprefix ++ counter32 (Z.of_nat j)) adata).
Proof.
  apply (proj1 (proj2 (proj2 (proj2 (@counter_is_32_bit toy_crypto))))
           toy_packet toy_key toy_plaintext (toy_mode 16 12) (toy_instance 16) 0
           eq_refl eq_refl eq_refl ltac:(lia) eq_refl toy_v2_setup).
  - simpl. lia.
  - apply toy_expands. lia.
Defined.

Lemma read_parses_header_witness :
  let out := read (constructor : SymEncryptedIntegrityProtectedDataPacket bytes)
               (Uint8Array (2 :: 9 :: 2 :: 0 :: seqZ 0 32 ++ [7; 7; 7])) in
  returned out = inr tt
  ∧ this_after out
    = v2_parsed constructor (Uint8Array (2 :: 9 :: 2 :: 0 :: seqZ 0 32 ++ [7; 7; 7]))
        9 2 0 (seqZ 0 32) [7; 7; 7].
Proof.
  apply (proj1 (proj2 (proj2 (proj2
           (@read_parses_header bytes constructor
              (Uint8Array (2 :: 9 :: 2 :: 0 :: seqZ 0 32 ++ [7; 7; 7])) eq_refl))))
           9 2 0 (seqZ 0 32) [7; 7; 7] eq_refl eq_refl).
Defined.

Lemma runAEAD_rejects_other_packets_witness :
  @runAEAD toy_crypto (as_packet (toy_seipd 1 [1; 2; 3])) Decrypt toy_key toy_plaintext
  = ([], inl UnexpectedPacketType).
Proof.
  apply (proj2 (@runAEAD_rejects_other_packets toy_crypto bytes)
           (toy_seipd 1 [1; 2; 3]) Decrypt toy_key toy_plaintext eq_refl).
Defined.

(** On a version 2 input that ends inside the header, [read] returns
    normally with a salt of fewer than 32 bytes. *)
Lemma read_short_salt :
  (let out := read (constructor : SymEncryptedIntegrityProtectedDataPacket bytes)
                (Uint8Array [2; 9; 2; 0; 1; 2; 3]) in
   returned out = inr tt ∧ salt (this_after out) = JBytes [1; 2; 3]
   ∧ encrypted (this_after out) = Some (ArrayStream [] None))
  ∧ ¬ (∀ input : bytes,
         head input = Some 2 ->
         ∃ s, salt (this_after
                      (read (constructor : SymEncryptedIntegrityProtectedDataPacket bytes)
                         (Uint8Array input)))
              = JBytes s
              ∧ length s = 32%nat).
Proof.
  split; [by vm_compute|].
  intros Hall. destruct (Hall [2; 9; 2; 0; 1; 2; 3] eq_refl) as (s & Hs & Hl).
  vm_compute in Hs. injection Hs as <-. discriminate.
Qed.

(** ** More on crypto/cmac.js *)

Lemma u8_lxor_cancel x y : 0 <= x < 256 -> u8 (Z.lxor (u8 (Z.lxor x y)) y) = x.
Proof.
  intros Hx. unfold u8. change 256 with (2 ^ 8).
  rewrite <- !Z.land_ones by lia.
  apply Z.bits_inj'. intros n Hn.
  rewrite Z.land_spec, Z.lxor_spec, Z.land_spec, Z.lxor_spec.
  destruct (Z.ltb_spec n 8).
  - rewrite Z.ones_spec_low by lia. rewrite !andb_true_r.
    by destruct (Z.testbit x n), (Z.testbit y n).
  - rewrite Z.ones_spec_high by lia. rewrite andb_false_r.
    symmetry. destruct (Z.eq_dec x 0) as [->|]; [apply Z.bits_0|].
    apply Z.bits_above_log2; [lia|].
    apply Z.log2_lt_pow2; [lia|]. 
    eapply Z.lt_le_trans; [apply Hx|]. change 256 with (2 ^ 8).
    apply Z.pow_le_mono_r; lia.
Qed.

Lemma xor_block_cancel (a K : bytes) :
  octets a -> length K = length a -> xor_block (xor_block a K) K = a.
Proof.
  intros Ha. revert K. induction Ha as [|x a Hx Ha IH]; intros [|y K] Hl;
    simplify_eq/=; [done|].
  rewrite u8_lxor_cancel by done. f_equal. by apply IH.
Qed.

Lemma rightXORMut_length (d K : bytes) :
  (16 <= length d)%nat -> length K = 16%nat ->
  length (rightXORMut d K) = length d.
Proof.
  intros Hd HK. rewrite rightXORMut_spec by done.
  rewrite length_app, length_take, length_xor_block, length_drop. lia.
Qed.

(** X1: For data of at least 16 octets and a padding of 16 bytes, rightXORMut
    keeps the length, changes nothing in front of the last 16 bytes, and applied
    a second time with the same padding gives the data back. *)
Theorem rightXORMut_last_block (d K : bytes) :
  (16 <= length d)%nat -> length K = 16%nat -> octets d ->
  length (rightXORMut d K) = length d
  ∧ take (length d - 16) (rightXORMut d K) = take (length d - 16) d
  ∧ rightXORMut (rightXORMut d K) K = d.
Proof.
  intros Hd HK Hoct.
  split; [by apply rightXORMut_length|].
  pose proof (rightXORMut_spec d K Hd HK) as Hs.
  split.
  - rewrite Hs. rewrite take_app_le by (rewrite length_take; lia).
    rewrite take_take. f_equal. lia.
  - rewrite rightXORMut_spec by (by rewrite ?rightXORMut_length).
    rewrite rightXORMut_length by done. rewrite Hs.
    assert (Hlt : length (take (length d - 16) d) = (length d - 16)%nat)
      by (rewrite length_take; lia).
    rewrite take_app_length' by done. rewrite drop_app_length' by done.
    rewrite xor_block_cancel.
    + apply take_drop.
    + by apply Forall_drop.
    + rewrite length_drop. lia.
Qed.

(** The shape of [pad]'s result. *)
Lemma pad_shape (data K1 K2 : bytes) :
  length K1 = 16%nat -> length K2 = 16%nat ->
  let p := pad data K1 K2 in
  let complete := negb (length data =? 0)%nat && (length data mod 16 =? 0)%nat in
  length p = (if complete then length data else 16 * (length data / 16 + 1))%nat
  ∧ take (length p - 16) p = take (length p - 16) data.
Proof.
  intros H1 H2 p complete. subst p complete.
  destruct (Nat.eqb_spec (length data) 0) as [H0|H0]; cbn [negb andb].
  - rewrite pad_incomplete; [|by left|done].
    rewrite H0. change (0 / 16)%nat with 0%nat. rewrite Nat.mul_0_r, !take_0, !drop_0.
    destruct data; [|done]. cbn [app length take drop].
    rewrite length_xor_block, H2. unfold zeros. cbn [length replicate Nat.sub app].
    done.
  - destruct (Nat.eqb_spec (length data mod 16) 0) as [Hm|Hm].
    + rewrite pad_complete by done.
      pose proof (Nat.div_mod (length data) 16 ltac:(lia)) as Hdm.
      assert (Hq : (1 <= length data / 16)%nat) by lia.
      rewrite length_app, length_take, length_xor_block, length_drop.
      split; [lia|].
      match goal with |- take ?n _ = take ?n _ =>
        replace n with (16 * (length data / 16 - 1))%nat by lia end.
      rewrite take_app_le by (rewrite length_take; lia).
      by rewrite take_take, Nat.min_id.
    + rewrite pad_incomplete; [|by right|done].
      pose proof (Nat.div_mod (length data) 16 ltac:(lia)) as Hdm.
      pose proof (Nat.mod_upper_bound (length data) 16 ltac:(lia)) as Hub.
      rewrite length_app, length_take, length_xor_block, !length_app, length_drop.
      unfold zeros. rewrite length_replicate. simpl length.
      split; [lia|].
      match goal with |- take ?n _ = take ?n _ =>
        replace n with (16 * (length data / 16))%nat by lia end.
      rewrite take_app_le by (rewrite length_take; lia).
      by rewrite take_take, Nat.min_id.
Qed.

(** X2: With two subkeys of 16 bytes each, pad returns at least one and only
    whole blocks of 16 bytes; the result is as long as the data exactly when the
    data is a non-empty multiple of 16 bytes and otherwise longer by at most 16,
    and in front of its last block it is the data. *)
Theorem pad_whole_blocks (data K1 K2 : bytes) :
  length K1 = 16%nat -> length K2 = 16%nat ->
  let p := pad data K1 K2 in
  (16 <= length p)%nat ∧ (length p mod 16 = 0)%nat
  ∧ (length data <= length p <= length data + 16)%nat
  ∧ (length p = length data <-> (length data ≠ 0 ∧ length data mod 16 = 0)%nat)
  ∧ take (length p - 16) p = take (length p - 16) data.
Proof.
  intros H1 H2 p.
  destruct (pad_shape data K1 K2 H1 H2) as [Hl Hp]. fold p in Hl, Hp.
  pose proof (Nat.div_mod (length data) 16 ltac:(lia)) as Hdm.
  pose proof (Nat.mod_upper_bound (length data) 16 ltac:(lia)) as Hub.
  destruct (Nat.eqb_spec (length data) 0) as [H0|H0]; cbn [negb andb] in Hl.
  - rewrite H0 in *. change (0 / 16)%nat with 0%nat in Hl.
    rewrite Hl in Hp. rewrite Hl. repeat split; try done; try lia.
  - destruct (Nat.eqb_spec (length data mod 16) 0) as [Hm|Hm].
    + rewrite Hl in Hp. rewrite Hl. repeat split; try done; try lia.
    + rewrite Hl in Hp. rewrite Hl. split; [lia|]. split.
      { rewrite Nat.mul_comm. apply Nat.Div0.mod_mul. }
      repeat split; try done; try lia.
Qed.


Lemma whole_blocks_nat (data : bytes) :
  whole_blocks data
  = negb (length data =? 0)%nat && (length data mod 16 =? 0)%nat.
Proof.
  unfold whole_blocks, len, blockLength. f_equal.
  - f_equal. destruct (Nat.eqb_spec (length data) 0), (Z.eqb_spec (Z.of_nat (length data)) 0);
      (done || lia).
  - change 16 with (Z.of_nat 16). rewrite <- Nat2Z.inj_mod.
    destruct (Nat.eqb_spec (length data mod 16) 0),
             (Z.eqb_spec (Z.of_nat (length data mod 16)) 0); (done || lia).
Qed.

Lemma zeros_marker_inj (a b : nat) (X Y : bytes) :
  zeros a ++ 128 :: X = zeros b ++ 128 :: Y -> a = b ∧ X = Y.
Proof.
  revert b. induction a as [|a IH]; intros [|b]; simpl; intros Heq;
    simplify_eq; [done|].
  destruct (IH b) as [-> ->]; done.
Qed.

Lemma marker_padding_inj (x y : bytes) (a b : nat) :
  x ++ [128] ++ zeros a = y ++ [128] ++ zeros b -> x = y.
Proof.
  intros Heq. apply (f_equal reverse) in Heq.
  rewrite !reverse_app in Heq. unfold zeros in Heq.
  rewrite !reverse_replicate in Heq. rewrite <- !(assoc_L (++)) in Heq.
  change (reverse [128]) with [128] in Heq. simpl in Heq.
  apply zeros_marker_inj in Heq as [_ Heq].
  by apply (inj reverse).
Qed.

(** X3: With two subkeys of 16 bytes each, two messages of octets that are both
    of whole blocks or both not, and that pad maps to the same bytes, are the
    same message. *)
Theorem pad_unambiguous (d d' K1 K2 : bytes) :
  length K1 = 16%nat -> length K2 = 16%nat -> octets d -> octets d' ->
  whole_blocks d = whole_blocks d' ->
  pad d K1 K2 = pad d' K1 K2 -> d = d'.
Proof.
  intros H1 H2 Hd Hd' Hcls Heq.
  pose proof (pad_shape d K1 K2 H1 H2) as [Hl _].
  pose proof (pad_shape d' K1 K2 H1 H2) as [Hl' _].
  cbv zeta in Hl, Hl'. rewrite <- whole_blocks_nat in Hl, Hl'.
  rewrite <- Hcls in Hl'. rewrite Heq in Hl.
  pose proof (Nat.div_mod (length d) 16 ltac:(lia)) as Hdm.
  pose proof (Nat.div_mod (length d') 16 ltac:(lia)) as Hdm'.
  pose proof (whole_blocks_nat d) as Hw. pose proof (whole_blocks_nat d') as Hw'.
  rewrite <- Hcls in Hw'.
  destruct (whole_blocks d).
  - symmetry in Hw, Hw'. apply andb_true_iff in Hw as [Hn Hm], Hw' as [Hn' Hm'].
    apply negb_true_iff, Nat.eqb_neq in Hn, Hn'. apply Nat.eqb_eq in Hm, Hm'.
    rewrite !pad_complete in Heq by done.
    assert (Hlen : length d' = length d) by lia.
    rewrite Hlen in Heq.
    apply app_inj_1 in Heq as [Ht Hx];
      [|rewrite !length_take; lia].
    apply (f_equal (λ x, xor_block x K1)) in Hx.
    rewrite !xor_block_cancel in Hx;
      [|by apply Forall_drop|rewrite length_drop; lia
       |by apply Forall_drop|rewrite length_drop; lia].
    rewrite <- (take_drop (16 * (length d / 16 - 1)) d).
    rewrite <- (take_drop (16 * (length d / 16 - 1)) d').
    by rewrite Ht, Hx.
  - assert (Hq : (length d' / 16 = length d / 16)%nat) by lia.
    assert (Hi : length d = 0%nat ∨ (length d mod 16)%nat ≠ 0%nat).
    { symmetry in Hw. apply andb_false_iff in Hw as [Hw|Hw].
      - left. by apply negb_false_iff, Nat.eqb_eq in Hw.
      - right. by apply Nat.eqb_neq in Hw. }
    assert (Hi' : length d' = 0%nat ∨ (length d' mod 16)%nat ≠ 0%nat).
    { symmetry in Hw'. apply andb_false_iff in Hw' as [Hw'|Hw'].
      - left. by apply negb_false_iff, Nat.eqb_eq in Hw'.
      - right. by apply Nat.eqb_neq in Hw'. }
    rewrite !pad_incomplete in Heq by done.
    rewrite Hq in Heq.
    pose proof (Nat.mod_upper_bound (length d) 16 ltac:(lia)) as Hub.
    pose proof (Nat.mod_upper_bound (length d') 16 ltac:(lia)) as Hub'.
    apply app_inj_1 in Heq as [Ht Hx];
      [|rewrite !length_take; lia].
    apply (f_equal (λ x, xor_block x K2)) in Hx.
    rewrite !xor_block_cancel in Hx.
    + apply marker_padding_inj in Hx.
      rewrite <- (take_drop (16 * (length d / 16)) d).
      rewrite <- (take_drop (16 * (length d / 16)) d').
      by rewrite Ht, Hx.
    + apply Forall_app. split; [by apply Forall_drop|].
      apply Forall_app. split; [apply Forall_singleton; lia|].
      apply Forall_replicate. lia.
    + rewrite !length_app, length_drop. unfold zeros.
      rewrite length_replicate, H2. cbn [length]. lia.
    + apply Forall_app. split; [by apply Forall_drop|].
      apply Forall_app. split; [apply Forall_singleton; lia|].
      apply Forall_replicate. lia.
    + rewrite !length_app, length_drop. unfold zeros.
      rewrite length_replicate, H2. cbn [length]. lia.
Qed.

Section CMAC_more.
Context (E : bytes → bytes → bytes).
Hypothesis E_block : ∀ k b, length (E k b) = 16%nat.

Lemma length_CBC key pt : length (CBC E key pt) = (16 * (length pt / 16))%nat.
Proof. unfold CBC. by apply length_cbc_from. Qed.

Lemma subarray_from_tail (a : bytes) :
  (16 <= length a)%nat -> subarray_from a (-16) = drop (length a - 16) a.
Proof.
  intros Ha. rewrite <- (take_drop (length a - 16) a) at 1.
  apply subarray_from_last. rewrite length_drop. lia.
Qed.

(** X4: When the block cipher returns blocks of 16 bytes, CMAC returns a tag of
    exactly 16 bytes for every key and every message, the empty message
    included. *)
Theorem CMAC_tag_length key data : length (CMAC E key data) = 16%nat.
Proof.
  unfold CMAC.
  set (K1 := double (CBC E key zeroBlock)).
  assert (HK1 : length K1 = 16%nat).
  { unfold K1. rewrite length_double, length_CBC. done. }
  assert (HK2 : length (double K1) = 16%nat) by (by rewrite length_double).
  destruct (pad_shape data K1 (double K1) HK1 HK2) as [Hl _]. cbv zeta in Hl.
  set (p := pad data K1 (double K1)) in *.
  pose proof (Nat.div_mod (length data) 16 ltac:(lia)) as Hdm.
  assert (Hp : ∃ q, length p = (16 * S q)%nat).
  { destruct (Nat.eqb_spec (length data) 0) as [H0|H0]; cbn [negb andb] in Hl.
    - exists (length data / 16)%nat. lia.
    - destruct (Nat.eqb_spec (length data mod 16) 0) as [Hm|Hm].
      + exists (length data / 16 - 1)%nat. lia.
      + exists (length data / 16)%nat. lia. }
  destruct Hp as [q Hq].
  assert (Hc : length (CBC E key p) = (16 * S q)%nat).
  { rewrite length_CBC, Hq. f_equal. rewrite (Nat.mul_comm 16 (S q)).
    apply Nat.div_mul. lia. }
  change (- blockLength) with (-16).
  rewrite subarray_from_tail by lia. rewrite length_drop. lia.
Qed.

Lemma cbc_from_app key n m prev (a b : bytes) :
  length a = (16 * n)%nat ->
  cbc_from E key (n + m) prev (a ++ b)
  = cbc_from E key n prev a
      ++ cbc_from E key m
           (if (n =? 0)%nat then prev
            else drop (16 * (n - 1)) (cbc_from E key n prev a)) b.
Proof.
  revert prev a. induction n as [|n IH]; intros prev a Ha.
  - destruct a; [|done]. done.
  - cbn [Nat.add cbc_from Nat.eqb].
    rewrite take_app_le by lia. rewrite drop_app_le by lia.
    rewrite <- (assoc_L (++)). f_equal.
    rewrite IH by (rewrite length_drop; lia). f_equal. f_equal.
    destruct n as [|n]; cbn [Nat.eqb].
    + cbn [cbc_from]. rewrite app_nil_r.
      replace (16 * (1 - 1))%nat with 0%nat by lia. done.
    + replace (16 * (S (S n) - 1))%nat with (16 + 16 * (S n - 1))%nat by lia.
      rewrite <- drop_drop. rewrite drop_app_length' by (by rewrite E_block). done.
Qed.

Lemma CBC_app_blocks key (a b : bytes) :
  (length a mod 16 = 0)%nat ->
  take (length a) (CBC E key (a ++ b)) = CBC E key a
  ∧ length (CBC E key (a ++ b)) = (length a + 16 * (length b / 16))%nat.
Proof.
  intros Hm.
  pose proof (Nat.div_mod (length a) 16 ltac:(lia)) as Hdm.
  assert (Ha : length a = (16 * (length a / 16))%nat) by lia.
  assert (Hn : (length (a ++ b) / 16 = length a / 16 + length b / 16)%nat).
  { rewrite length_app. rewrite Ha at 1. rewrite (Nat.mul_comm 16).
    rewrite Nat.div_add_l by lia. done. }
  split.
  - unfold CBC. rewrite Hn, cbc_from_app by done.
    rewrite take_app_length'; [done|]. rewrite length_cbc_from by done. lia.
  - rewrite length_CBC, Hn. lia.
Qed.

(** X5: CBC under the zero IV works block by block from the left: for a and b of
    whole blocks, the output for a followed by b starts with the output for a
    and is as long as the input. *)
Theorem CBC_prefix key (a b : bytes) :
  (length a mod 16 = 0)%nat -> (length b mod 16 = 0)%nat ->
  take (length a) (CBC E key (a ++ b)) = CBC E key a
  ∧ length (CBC E key (a ++ b)) = length (a ++ b).
Proof.
  intros Ha Hb. destruct (CBC_app_blocks key a b Ha) as [Ht Hl].
  split; [exact Ht|]. rewrite Hl, length_app.
  pose proof (Nat.div_mod (length b) 16 ltac:(lia)). lia.
Qed.

Lemma CBC_zeroBlock key : CBC E key zeroBlock = E key zeroBlock.
Proof.
  unfold CBC. change (length zeroBlock / 16)%nat with 1%nat.
  cbn [cbc_from]. rewrite app_nil_r. done.
Qed.

Lemma whole_blocks_length (d : bytes) :
  whole_blocks d = true -> (16 <= length d)%nat ∧ (length d mod 16 = 0)%nat.
Proof.
  rewrite whole_blocks_nat. intros [Hn Hm]%andb_true_iff.
  apply negb_true_iff, Nat.eqb_neq in Hn. apply Nat.eqb_eq in Hm.
  pose proof (Nat.div_mod (length d) 16 ltac:(lia)). split; [lia|done].
Qed.

(** X6: Computing the CMAC of a message of octets leaves the caller's array
    untouched when it is empty or not of whole blocks, and otherwise leaves its
    last block xored with the first subkey; a second call on that array restores
    the message and returns the last block of the plain CBC encryption of the
    message instead of its CMAC. *)
Theorem CMAC_overwrites_whole_blocks key (data : bytes) :
  octets data ->
  let K1 := double (E key zeroBlock) in
  (whole_blocks data = false -> CMAC_leaves E key data = data)
  ∧ (whole_blocks data = true ->
       CMAC_leaves E key data
       = take (length data - 16) data
           ++ xor_block (drop (length data - 16) data) K1
       ∧ whole_blocks (CMAC_leaves E key data) = true
       ∧ CMAC_leaves E key (CMAC_leaves E key data) = data
       ∧ CMAC E key (CMAC_leaves E key data)
         = subarray_from (CBC E key data) (-16)).
Proof.
  intros Hoct K1. unfold CMAC_leaves. rewrite CBC_zeroBlock. fold K1.
  assert (HK1 : length K1 = 16%nat).
  { unfold K1. by rewrite length_double, E_block. }
  split; [by intros ->|]. intros Hw. rewrite Hw.
  destruct (whole_blocks_length data Hw) as [Hlen Hmod].
  assert (Hlen' : length (rightXORMut data K1) = length data)
    by (by apply rightXORMut_length).
  assert (Hw' : whole_blocks (rightXORMut data K1) = true).
  { rewrite whole_blocks_nat, Hlen', <- whole_blocks_nat. done. }
  assert (Hinv : rightXORMut (rightXORMut data K1) K1 = data).
  { rewrite (rightXORMut_spec (rightXORMut data K1)) by (by rewrite ?Hlen').
    rewrite Hlen', (rightXORMut_spec data K1) by done.
    assert (Hlt : length (take (length data - 16) data) = (length data - 16)%nat)
      by (rewrite length_take; lia).
    rewrite take_app_length' by done. rewrite drop_app_length' by done.
    rewrite xor_block_cancel.
    - apply take_drop.
    - by apply Forall_drop.
    - rewrite length_drop. lia. }
  split; [by apply rightXORMut_spec|]. split; [done|].
  rewrite Hw'. split; [done|].
  unfold CMAC. rewrite CBC_zeroBlock. fold K1.
  unfold pad. unfold whole_blocks in Hw'. rewrite Hw'. by rewrite Hinv.
Qed.

End CMAC_more.

(** ** read and write *)

Lemma is_octet_to_u8 v : is_octet v = true -> JNum (to_u8 v) = v.
Proof.
  destruct v as [| |n|]; try done. cbn [is_octet to_u8].
  intros [? ?]%andb_true_iff. unfold u8. rewrite Z.mod_small by lia. done.
Qed.

Lemma js_is_eq v n : js_is v n = true -> v = JNum n.
Proof. destruct v; try done. cbn. by intros ->%Z.eqb_eq. Qed.

Lemma transformed_like_map f d b e :
  transformed_like (data_map f d) b e = transformed_like d b e.
Proof. by destruct d. Qed.

Lemma data_bytes_map f d : data_bytes (data_map f d) = f (data_bytes d).
Proof. by destruct d. Qed.

Lemma data_err_map f d : data_err (data_map f d) = data_err d.
Proof. by destruct d. Qed.

Lemma data_map_like f d :
  data_err d = None →
  data_map f (transformed_like d (data_bytes d) None)
  = transformed_like d (f (data_bytes d)) None.
Proof. by destruct d. Qed.

Section Wire.
Context {PL : Type}.
#[local] Abbreviation SEIPD := (SymEncryptedIntegrityProtectedDataPacket PL).

(** [read] on a version 1 input. *)
Lemma read_v1 (this : SEIPD) (input : data) rest :
  data_err input = None -> data_bytes input = 1 :: rest ->
  read this input
  = {| trace := [];
       this_after := set_encrypted (set_version this (JNum 1))
                       (transformed_like input rest None);
       returned := inr tt |}.
Proof.
  intros Herr Hb. unfold read, getReader, remainder. rewrite Herr, Hb.
  by destruct input.
Qed.

(** [read] on a version 2 input with at least one byte of salt. *)
Lemma read_v2 (this : SEIPD) (input : data) c a k x rest :
  data_err input = None -> data_bytes input = 2 :: c :: a :: k :: x :: rest ->
  read this input
  = {| trace := [];
       this_after :=
         {| version := JNum 2; cipherAlgorithm := JNum c;
            aeadAlgorithm := JNum a; chunkSizeByte := JNum k;
            salt := JBytes (take 32 (x :: rest));
            encrypted := Some (transformed_like input (drop 32 (x :: rest)) None);
            packets := packets this |};
       returned := inr tt |}.
Proof.
  intros Herr Hb. unfold read, getReader, remainder. rewrite Herr, Hb.
  cbn [readByte rd_rest rd_err js_is].
  change (2 =? 1) with false. change (2 =? 2) with true. cbn [negb andb].
  rewrite readBytes_spec by done. cbn [rd_rest rd_err].
  change (Z.to_nat 32) with 32%nat. reflexivity.
Qed.

(** What [read] makes of the bytes [write] produced. *)
Lemma read_of_write (p q : SEIPD) (enc : data) :
  wire_form p = true -> encrypted p = Some enc -> data_err enc = None ->
  ∃ w,
    write p = inr w
    ∧ read q w
      = {| trace := [];
           this_after :=
             if js_is (version p) 2 then
               {| version := version p; cipherAlgorithm := cipherAlgorithm p;
                  aeadAlgorithm := aeadAlgorithm p;
                  chunkSizeByte := chunkSizeByte p; salt := salt p;
                  encrypted := Some (transformed_like enc (data_bytes enc) None);
                  packets := packets q |}
             else
               set_encrypted (set_version q (version p))
                 (transformed_like enc (data_bytes enc) None);
           returned := inr tt |}.
Proof.
  intros Hw Henc Herr. unfold wire_form in Hw.
  apply orb_true_iff in Hw as [Hv1|Hv2].
  - pose proof (js_is_1_not_2 _ Hv1) as Hn2.
    apply js_is_eq in Hv1 as Hv.
    eexists. split.
    { unfold write. rewrite Henc, Hn2. reflexivity. }
    rewrite Hn2, Hv. cbn [to_u8]. change (u8 1) with 1.
    rewrite (read_v1 q _ (data_bytes enc));
      [|by rewrite data_err_map|by rewrite data_bytes_map].
    by rewrite transformed_like_map.
  - apply andb_true_iff in Hv2 as [Hv2 Hs].
    apply andb_true_iff in Hv2 as [Hv2 Hk].
    apply andb_true_iff in Hv2 as [Hv2 Ha].
    apply andb_true_iff in Hv2 as [Hv2 Hc].
    destruct (salt p) as [| | |s] eqn:Hsalt; try done.
    apply Nat.eqb_eq in Hs.
    apply js_is_eq in Hv2 as Hv.
    eexists. split.
    { unfold write. rewrite Henc, Hv2, Hsalt. reflexivity. }
    rewrite Hv2, Hv. cbn [to_u8]. change (u8 2) with 2.
    destruct s as [|x s]; [done|].
    rewrite (read_v2 q _ (to_u8 (cipherAlgorithm p)) (to_u8 (aeadAlgorithm p))
               (to_u8 (chunkSizeByte p)) x (s ++ data_bytes enc));
      [|by rewrite data_err_map|by rewrite data_bytes_map].
    rewrite !is_octet_to_u8 by done. rewrite transformed_like_map.
    change (x :: s ++ data_bytes enc) with ((x :: s) ++ data_bytes enc).
    rewrite take_app_length', drop_app_length' by done.
    done.
Qed.

(** X7: For a packet in wire form (version 1, or version 2 with three fields
    that fit an octet and a salt of 32 bytes) whose ciphertext holds no stream
    error, write succeeds and read of its result succeeds on any packet object:
    it restores the version and the ciphertext bytes and, for version 2,
    cipherAlgorithm, aeadAlgorithm, chunkSizeByte and salt; for version 1 these
    four fields, and in both cases packets, stay as the reading object had them. *)
Theorem write_then_read (p q : SEIPD) (enc : data) :
  wire_form p = true -> encrypted p = Some enc -> data_err enc = None ->
  ∃ w,
    write p = inr w
    ∧ let out := read q w in
      returned out = inr tt
      ∧ version (this_after out) = version p
      ∧ (js_is (version p) 2 = true ->
           cipherAlgorithm (this_after out) = cipherAlgorithm p
           ∧ aeadAlgorithm (this_after out) = aeadAlgorithm p
           ∧ chunkSizeByte (this_after out) = chunkSizeByte p
           ∧ salt (this_after out) = salt p)
      ∧ (js_is (version p) 2 = false ->
           cipherAlgorithm (this_after out) = cipherAlgorithm q
           ∧ aeadAlgorithm (this_after out) = aeadAlgorithm q
           ∧ chunkSizeByte (this_after out) = chunkSizeByte q
           ∧ salt (this_after out) = salt q)
      ∧ encrypted (this_after out)
        = Some (transformed_like enc (data_bytes enc) None)
      ∧ packets (this_after out) = packets q.
Proof.
  intros Hw Henc Herr.
  destruct (read_of_write p q enc Hw Henc Herr) as (w & Hwr & Hrd).
  exists w. split; [done|]. cbv zeta. rewrite Hrd.
  cbn [returned this_after].
  destruct (js_is (version p) 2); split_and!; try done.
Qed.

(** X8: For an input of octets without a stream error that starts with the octet
    1, or with the octet 2 and at least four more bytes, read succeeds and write
    of the packet read gives back exactly the bytes of the input. *)
Theorem read_then_write (q : SEIPD) (input : data) :
  data_err input = None -> octets (data_bytes input) ->
  (∃ rest, data_bytes input = 1 :: rest)
  ∨ (∃ c a k x rest, data_bytes input = 2 :: c :: a :: k :: x :: rest) ->
  returned (read q input) = inr tt
  ∧ write (this_after (read q input))
    = inr (transformed_like input (data_bytes input) None).
Proof.
  intros Herr Hoct [(rest & Hb)|(c & a & k & x & rest & Hb)].
  - rewrite (read_v1 q input rest) by done.
    cbn [returned this_after]. split; [done|]. unfold write.
    cbn [set_encrypted set_version version encrypted js_is to_u8].
    change (1 =? 2) with false. cbv iota. change (u8 1) with 1. rewrite Hb.
    by destruct input.
  - rewrite (read_v2 q input c a k x rest) by done.
    cbn [returned this_after]. split; [done|]. unfold write.
    cbn [version encrypted salt cipherAlgorithm aeadAlgorithm chunkSizeByte
         js_is to_u8].
    change (2 =? 2) with true. cbv iota.
    rewrite Hb in Hoct.
    apply Forall_cons in Hoct as [_ Hoct].
    apply Forall_cons in Hoct as [Hc Hoct].
    apply Forall_cons in Hoct as [Ha Hoct].
    apply Forall_cons in Hoct as [Hk _].
    unfold u8. rewrite !Z.mod_small by lia. rewrite Hb.
    assert (Hsplit : [2; c; a; k] ++ take 32 (x :: rest) ++ drop 32 (x :: rest)
                     = 2 :: c :: a :: k :: x :: rest).
    { by rewrite take_drop. }
    destruct input; cbn [transformed_like data_map]; by rewrite Hsplit.
Qed.

Lemma read_v2_returns (this : SEIPD) (input : data) rest :
  data_err input = None -> data_bytes input = 2 :: rest ->
  returned (read this input) = inr tt.
Proof.
  intros Herr Hb. unfold read, getReader. rewrite Herr, Hb.
  cbn [readByte rd_rest rd_err js_is].
  change (2 =? 1) with false. change (2 =? 2) with true. cbn [negb andb].
  destruct rest as [|c [|a [|k rest]]]; cbn [readByte rd_rest rd_err];
    try reflexivity.
  destruct rest as [|x rest]; [reflexivity|].
  rewrite readBytes_spec by done. reflexivity.
Qed.

(** X9: read never changes packets, and leaves encrypted as it was when it
    throws; on an input whose stream does not fail it throws only the
    unsupported-version error, for a first octet that is missing or neither 1
    nor 2, and then version, set to that octet, is the only field changed. *)
Theorem read_failure_state (this : SEIPD) (input : data) :
  let out := read this input in
  packets (this_after out) = packets this
  ∧ (∀ e, returned out = inl e ->
       encrypted (this_after out) = encrypted this)
  ∧ (data_err input = None -> ∀ e, returned out = inl e ->
       let v := match data_bytes input with
                | [] => JUndefined
                | x :: _ => JNum x
                end in
       e = UnsupportedError v ∧ js_is v 1 = false ∧ js_is v 2 = false
       ∧ this_after out = set_version this v).
Proof.
  cbv zeta. split; [|split].
  - unfold read.
    repeat (case_match; cbn [this_after returned trace]); done.
  - intros e. unfold read.
    repeat (case_match; cbn [this_after returned trace]); done.
  - intros Herr e.
    destruct (data_bytes input) as [|x rest] eqn:Hb.
    + unfold read, getReader. rewrite Herr, Hb. cbn. by intros [= <-].
    + destruct (Z.eq_dec x 1) as [->|H1].
      { by rewrite (read_v1 this input rest). }
      destruct (Z.eq_dec x 2) as [->|H2].
      { by rewrite (read_v2_returns this input rest). }
      unfold read, getReader. rewrite Herr, Hb.
      cbn [readByte rd_rest rd_err js_is].
      destruct (Z.eqb_spec x 1); [done|]. destruct (Z.eqb_spec x 2); [done|].
      cbn. by intros [= <-].
Qed.

End Wire.

(** ** More on encrypt and decrypt *)

Section Methods.
Context `{Crypto} {PL : Type} `{PacketList PL}.
#[local] Abbreviation SEIPD := (SymEncryptedIntegrityProtectedDataPacket PL).

(** What [decrypt] computes on the legacy path, in one piece. *)
Lemma decrypt_payload_legacy (this : SEIPD) alg key config bs ks enc :
  getCipherParams (JNum alg) = inr (bs, ks) -> len key = ks ->
  js_is (version this) 2 = false ->
  encrypted this = Some enc -> data_err enc = None ->
  let iv := zeros (Z.to_nat bs) in
  let decrypted := cfb_decrypt alg key (data_bytes enc) iv in
  let claimed := subarray_from decrypted (-20) in
  let tohash := subarray decrypted 0 (-20) in
  let payload := subarray (subarray_from tohash (bs + 2)) 0 (-2) in
  let deferred :=
    match enc with
    | Stream _ _ => allowUnauthenticatedStream config
    | _ => false
    end in
  decrypt_payload this alg key config
  = ([EvCFB Decrypt key (data_bytes enc) iv; EvDigest tohash],
     if equalsUint8Array (sha1 tohash) claimed then
       inr (if deferred then Stream payload None else Uint8Array payload, deferred)
     else if deferred then inr (Stream payload (Some ModificationDetected), true)
     else inl ModificationDetected).
Proof.
  intros Hps Hkey Hv2 Henc Herr iv decrypted claimed tohash payload deferred.
  assert (Hkeyb : negb (len key =? ks) = false).
  { apply negb_false_iff, Z.eqb_eq. done. }
  unfold decrypt_payload. rewrite Hps. cbn [lift bind snd fst]. rewrite Hkeyb, Henc.
  subst deferred payload tohash claimed decrypted iv.
  destruct enc as [b|b e|b e]; simpl in Herr; subst;
    cbv beta iota zeta delta
      [lift bind emit ret throw isArrayStream streamReadToEnd data_err
       data_bytes result_map data_map isStream andb concat_with_async
       transformed_like fst snd];
    rewrite Hv2;
    cbv beta iota zeta delta
      [lift bind emit ret throw isArrayStream streamReadToEnd data_err
       data_bytes result_map data_map isStream andb concat_with_async
       transformed_like fst snd];
    destruct (equalsUint8Array _ _); cbn [negb];
    try destruct (allowUnauthenticatedStream config);
    cbn [app]; rewrite ?app_nil_r; reflexivity.
Qed.

(** X11: On a version 2 packet with a ciphertext that holds no stream error,
    decrypt with a key of the right size for a session key algorithm other than
    the cipherAlgorithm of the packet throws the
    unexpected-session-key-algorithm error before any collaborator is called and
    leaves the packet unchanged. *)
Theorem decrypt_rejects_other_algorithm (this : SEIPD) alg key config bs ks enc :
  getCipherParams (JNum alg) = inr (bs, ks) -> len key = ks ->
  js_is (version this) 2 = true ->
  js_is (cipherAlgorithm this) alg = false ->
  encrypted this = Some enc -> data_err enc = None ->
  decrypt this alg key config
  = {| trace := []; this_after := this;
       returned := inl UnexpectedSessionKeyAlgorithm |}.
Proof.
  intros Hps Hkey Hv Halg Henc Herr.
  assert (Hkeyb : negb (len key =? ks) = false).
  { apply negb_false_iff, Z.eqb_eq. done. }
  unfold decrypt, decrypt_payload. rewrite Hps. cbn [lift bind snd fst].
  rewrite Hkeyb, Henc. cbn [lift bind].
  destruct (normalize_bytes enc Herr) as (d' & -> & _). cbn [lift bind].
  rewrite Hv, Halg. reflexivity.
Qed.

(** X12: decrypt changes no field of the packet but packets: when it throws the
    packet is unchanged, and when it returns it returns true and packets holds
    what PacketList.fromBinary, its last collaborator call, returned. *)
Theorem decrypt_sets_packets_only (this : SEIPD) alg key config :
  let out := decrypt this alg key config in
  version (this_after out) = version this
  ∧ cipherAlgorithm (this_after out) = cipherAlgorithm this
  ∧ aeadAlgorithm (this_after out) = aeadAlgorithm this
  ∧ chunkSizeByte (this_after out) = chunkSizeByte this
  ∧ salt (this_after out) = salt this
  ∧ encrypted (this_after out) = encrypted this
  ∧ (∀ e, returned out = inl e -> this_after out = this)
  ∧ (∀ b, returned out = inr b ->
       b = true
       ∧ ∃ d delayErrors pl,
           last (trace out) = Some (EvFromBinary d delayErrors)
           ∧ fromBinary d delayErrors = inr pl
           ∧ packets (this_after out) = Some pl).
Proof.
  cbv zeta. unfold decrypt.
  destruct (decrypt_payload this alg key config) as [t [e|[d de]]];
    cbn [this_after returned trace]; [repeat split; done|].
  destruct (fromBinary d de) as [e|pl] eqn:Hfb; cbn [this_after returned trace].
  - split_and!; done.
  - split_and!; try done. intros ? [= <-]. split; [done|].
    exists d, de, pl. rewrite last_snoc. done.
Qed.

(** X13: encrypt never changes version, aeadAlgorithm or packets, and on a
    packet that is not of version 2 it changes nothing but encrypted; when it
    throws encrypted is as before, and when it returns it returns true and
    encrypted is set. *)
Theorem encrypt_frame (this : SEIPD) alg key config rnd :
  let out := encrypt this alg key config rnd in
  version (this_after out) = version this
  ∧ aeadAlgorithm (this_after out) = aeadAlgorithm this
  ∧ packets (this_after out) = packets this
  ∧ (js_is (version this) 2 = false ->
       cipherAlgorithm (this_after out) = cipherAlgorithm this
       ∧ chunkSizeByte (this_after out) = chunkSizeByte this
       ∧ salt (this_after out) = salt this)
  ∧ (∀ e, returned out = inl e ->
       encrypted (this_after out) = encrypted this)
  ∧ (∀ b, returned out = inr b ->
       b = true ∧ ∃ enc, encrypted (this_after out) = Some enc).
Proof.
  cbv zeta. unfold encrypt.
  destruct (getCipherParams (JNum alg)) as [e|[bs ks]];
    cbn [this_after returned trace]; [repeat split; done|].
  destruct (negb (len key =? ks));
    cbn [this_after returned trace]; [repeat split; done|].
  destruct (packets this) as [pl|] eqn:Hpl;
    cbn [this_after returned trace]; [|repeat split; done].
  destruct (if isArrayStream (packets_write pl) then _ else _) as [e|b];
    cbn [this_after returned trace]; [repeat split; done|].
  destruct (js_is (version this) 2) eqn:Hv.
  - destruct (runAEAD _ _ _ _) as [t' [e|enc]];
      cbn [this_after returned trace set_encrypted set_chunkSizeByte set_salt
           set_cipherAlgorithm version aeadAlgorithm packets encrypted];
      split_and!; try done.
    intros ? [= <-]. split; [done|]. by eexists.
  - cbn [this_after returned trace set_encrypted version aeadAlgorithm packets
         encrypted cipherAlgorithm chunkSizeByte salt].
    split_and!; try done.
    intros ? [= <-]. split; [done|]. by eexists.
Qed.

(** X14: When encrypt on a version 2 packet has passed the key size check and
    serialised its packets but then throws, the packet already holds the session
    key algorithm as cipherAlgorithm, a fresh salt of 32 random bytes and the
    chunk size byte of the configuration, while encrypted is as before. *)
Theorem encrypt_failure_keeps_new_parameters (this : SEIPD) alg key config rnd
    bs ks pl e :
  getCipherParams (JNum alg) = inr (bs, ks) -> len key = ks ->
  packets this = Some pl -> data_err (packets_write pl) = None ->
  js_is (version this) 2 = true ->
  returned (encrypt this alg key config rnd) = inl e ->
  this_after (encrypt this alg key config rnd) = v2_filled this alg config rnd
  ∧ cipherAlgorithm (this_after (encrypt this alg key config rnd)) = JNum alg
  ∧ salt (this_after (encrypt this alg key config rnd)) = JBytes (rnd 32)
  ∧ chunkSizeByte (this_after (encrypt this alg key config rnd))
    = aeadChunkSizeByte config
  ∧ encrypted (this_after (encrypt this alg key config rnd)) = encrypted this.
Proof.
  intros Hps Hkey Hpl Herr Hv.
  assert (Hkeyb : negb (len key =? ks) = false).
  { apply negb_false_iff, Z.eqb_eq. done. }
  unfold encrypt. rewrite Hps, Hkeyb, Hpl.
  destruct (normalize_bytes _ Herr) as (d' & -> & _). rewrite Hv.
  destruct (runAEAD _ _ _ _) as [t' [e'|enc]];
    cbn [this_after returned trace]; [|done].
  intros _. repeat split; done.
Qed.

(** X15: decrypt hands its plaintext to the parser with delayed errors only on
    the legacy path (version other than 2), with allowUnauthenticatedStream set
    and a ciphertext that is a stream; what it hands over is then a stream as
    well. *)
Theorem deferred_only_for_legacy_streams (this : SEIPD) alg key config t d :
  decrypt_payload this alg key config = (t, inr (d, true)) ->
  js_is (version this) 2 = false
  ∧ allowUnauthenticatedStream config = true
  ∧ (∃ b e, encrypted this = Some (Stream b e))
  ∧ isStream d = true ∧ isArrayStream d = false.
Proof.
  intros Hp. unfold decrypt_payload in Hp.
  cbv [bind lift ret throw emit] in Hp.
  repeat (case_match; simplify_eq/=).
  all: try match goal with
    | Hr : result_map _ (streamReadToEnd ?x) = inr _ |- _ =>
        unfold result_map, streamReadToEnd in Hr; destruct (data_err x);
        simplify_eq
    end.
  all: try match goal with
    | Hs : isStream ?e && _ = true |- _ =>
        apply andb_true_iff in Hs as [Hs ?]; destruct e; try done
    end.
  all: split_and!; eauto.
Qed.

Section Legacy.
Context (this : SEIPD) (alg : Z) (key : bytes) (config : Config) (bs ks : Z)
        (enc : data).
Hypothesis Hps : getCipherParams (JNum alg) = inr (bs, ks).
Hypothesis Hkey : len key = ks.
Hypothesis Hv : js_is (version this) 2 = false.
Hypothesis Henc : encrypted this = Some enc.
Hypothesis Herr : data_err enc = None.
Hypothesis Hsha : ∀ b, len (sha1 b) = 20.

(** X16: On the legacy path, a ciphertext that decrypts to fewer than 20 bytes,
    too few to hold a SHA-1 digest, is rejected with the modification-detected
    error: the packet is unchanged and the parser is not called, unless the
    ciphertext is a stream and allowUnauthenticatedStream is set. *)
Theorem legacy_short_ciphertext :
  len (cfb_decrypt alg key (data_bytes enc) (zeros (Z.to_nat bs))) < 20 ->
  match enc with
  | Stream _ _ => allowUnauthenticatedStream config
  | _ => false
  end = false ->
  returned (decrypt this alg key config) = inl ModificationDetected
  ∧ this_after (decrypt this alg key config) = this
  ∧ ∀ ev, ev ∈ trace (decrypt this alg key config) ->
          ∀ d delayErrors, ev ≠ EvFromBinary d delayErrors.
Proof.
  intros Hshort Hdef.
  pose proof (decrypt_payload_legacy this alg key config bs ks enc
                Hps Hkey Hv Henc Herr) as Hpay.
  cbv zeta in Hpay. rewrite Hdef in Hpay.
  set (decrypted := cfb_decrypt alg key (data_bytes enc) (zeros (Z.to_nat bs))) in *.
  assert (Hne : equalsUint8Array (sha1 (subarray decrypted 0 (-20)))
                  (subarray_from decrypted (-20)) = false).
  { unfold equalsUint8Array. apply bool_decide_eq_false. intros Heq.
    apply (f_equal len) in Heq. rewrite Hsha in Heq.
    assert (len (subarray_from decrypted (-20)) <= len decrypted); [|lia].
    unfold subarray_from, subarray, len. rewrite length_take, length_drop. lia. }
  rewrite Hne in Hpay. unfold decrypt. rewrite Hpay.
  cbn [returned this_after trace]. repeat split; try done.
  intros ev Hev d de ->.
  repeat (apply elem_of_cons in Hev as [Hev|Hev]; [done|]).
  by apply elem_of_nil in Hev.
Qed.

(** X17: On the legacy path, when the decrypted bytes end in the SHA-1 digest of
    all that precedes it, decrypt hands the parser the bytes between the first
    blockSize + 2 and the last 22, whatever the prefix (its repeated two octets
    included) and the two octets in front of the digest are: neither is checked. *)
Theorem legacy_prefix_and_marker_unchecked (prefix payload m : bytes) :
  0 <= bs -> len prefix = bs + 2 -> len m = 2 ->
  cfb_decrypt alg key (data_bytes enc) (zeros (Z.to_nat bs))
  = prefix ++ payload ++ m ++ sha1 (prefix ++ payload ++ m) ->
  let deferred :=
    match enc with
    | Stream _ _ => allowUnauthenticatedStream config
    | _ => false
    end in
  let d := if deferred then Stream payload None else Uint8Array payload in
  decrypt_payload this alg key config
  = ([EvCFB Decrypt key (data_bytes enc) (zeros (Z.to_nat bs));
      EvDigest (prefix ++ payload ++ m)],
     inr (d, deferred))
  ∧ last (trace (decrypt this alg key config)) = Some (EvFromBinary d deferred).
Proof.
  intros Hbs Hpre Hm Hdec deferred d.
  pose proof (decrypt_payload_legacy this alg key config bs ks enc
                Hps Hkey Hv Henc Herr) as Hpay.
  cbv zeta in Hpay.
  assert (Hdec' : cfb_decrypt alg key (data_bytes enc) (zeros (Z.to_nat bs))
                  = (prefix ++ payload ++ m) ++ sha1 (prefix ++ payload ++ m)).
  { rewrite Hdec. by rewrite <- !(assoc_L (++)). }
  rewrite Hdec' in Hpay.
  rewrite subarray_from_neg in Hpay by (rewrite ?Hsha; lia).
  rewrite subarray_to_neg in Hpay by (rewrite ?Hsha; lia).
  assert (H3 : subarray (subarray_from (prefix ++ payload ++ m) (bs + 2)) 0 (-2)
               = payload).
  { rewrite subarray_from_app by lia. apply subarray_to_neg; lia. }
  rewrite H3 in Hpay.
  assert (Heq : equalsUint8Array (sha1 (prefix ++ payload ++ m))
                  (sha1 (prefix ++ payload ++ m)) = true).
  { unfold equalsUint8Array. by apply bool_decide_eq_true. }
  rewrite Heq in Hpay. fold deferred in Hpay. fold d in Hpay.
  split; [done|]. unfold decrypt. rewrite Hpay.
  destruct (fromBinary d deferred); cbn [trace]; by rewrite last_snoc.
Qed.

End Legacy.

(** X10: For a packet in wire form whose ciphertext holds no stream error,
    reading what write produced into any packet object gives a packet on which
    decrypt makes the same collaborator calls and has the same result as on the
    packet written. *)
Theorem decrypt_after_reparse (p q : SEIPD) (enc : data) alg key config :
  wire_form p = true -> encrypted p = Some enc -> data_err enc = None ->
  ∃ w,
    write p = inr w
    ∧ returned (read q w) = inr tt
    ∧ decrypt_payload (this_after (read q w)) alg key config
      = decrypt_payload p alg key config
    ∧ trace (decrypt (this_after (read q w)) alg key config)
      = trace (decrypt p alg key config)
    ∧ returned (decrypt (this_after (read q w)) alg key config)
      = returned (decrypt p alg key config).
Proof.
  intros Hw Henc Herr.
  destruct (read_of_write p q enc Hw Henc Herr) as (w & Hwr & Hrd).
  exists w. split; [done|]. rewrite Hrd. cbn [returned this_after].
  split; [done|].
  set (p' := if js_is (version p) 2 then _ else _).
  assert (Hver : version p' = version p).
  { unfold p'. by destruct (js_is (version p) 2). }
  assert (Hen : encrypted p'
                = Some (transformed_like enc (data_bytes enc) None)).
  { unfold p'. by destruct (js_is (version p) 2). }
  assert (Hv2 : js_is (version p) 2 = true ->
                cipherAlgorithm p' = cipherAlgorithm p
                ∧ aeadAlgorithm p' = aeadAlgorithm p
                ∧ chunkSizeByte p' = chunkSizeByte p ∧ salt p' = salt p).
  { unfold p'. by intros ->. }
  assert (Hpay : decrypt_payload p' alg key config
                 = decrypt_payload p alg key config).
  { unfold decrypt_payload.
    destruct (getCipherParams (JNum alg)) as [e|[bs ks]]; cbn [lift bind fst snd]; [done|].
    destruct (negb (len key =? ks)); [done|].
    rewrite Hen, Henc. cbn [lift bind].
    assert (Hnorm : (if isArrayStream (transformed_like enc (data_bytes enc) None)
                     then result_map Uint8Array
                            (streamReadToEnd (transformed_like enc (data_bytes enc) None))
                     else inr (transformed_like enc (data_bytes enc) None))
                    = (if isArrayStream enc
                       then result_map Uint8Array (streamReadToEnd enc)
                       else inr enc)).
    { destruct enc as [b|b e|b e]; simpl in Herr; subst; done. }
    rewrite Hnorm.
    destruct (if isArrayStream enc then _ else _) as [e|enc'];
      cbn [lift bind]; [done|].
    rewrite Hver. destruct (js_is (version p) 2) eqn:Hv; [|done].
    destruct (Hv2 eq_refl) as (Hc & Ha & Hk & Hs). rewrite Hc.
    replace (as_packet p') with (as_packet p); [done|].
    unfold as_packet. by rewrite Hver, Hc, Ha, Hk, Hs. }
  split; [done|]. unfold decrypt. rewrite Hpay.
  destruct (decrypt_payload p alg key config) as [t [e|[d de]]];
    cbn [trace returned]; [done|].
  destruct (fromBinary d de); done.
Qed.

End Methods.

(** ** Failures inside a run *)

Lemma released_snoc array inst evs fn fin c n a :
  released array inst (evs ++ [EvCrypt fn fin c n a])
  = (write_link array (mi_run inst fn c n a)
       (released array inst evs).1 (released array inst evs).2).1.
Proof.
  induction evs as [|ev evs IH].
  - cbn. by destruct (mi_run inst fn c n a), array.
  - destruct ev; cbn [app released]; try done.
    rewrite IH.
    destruct (mi_run inst fn0 chunk nonce adata) as [e0|c0];
      destruct (released array inst evs) as [w [e|]]; cbn [fst snd];
      destruct (mi_run inst fn c n a), array; done.
Qed.

Lemma released_pre array inst pre evs :
  crypt_calls pre = [] ->
  released array inst (pre ++ evs) = released array inst evs.
Proof.
  induction pre as [|ev pre IH]; [done|]. destruct ev; cbn; try done.
Qed.

Section Sink.
Context (isSEIPDv2 isAEADP : bool) (fn : direction) (mode : AEADMode)
        (inst : ModeInstance) (chunkSize : option Z).
#[local] Abbreviation body := (loop_body isSEIPDv2 isAEADP fn mode inst chunkSize).
#[local] Abbreviation lp := (loop isSEIPDv2 isAEADP fn mode inst chunkSize).

#[local] Abbreviation sink_ok := (sink_ok inst).
#[local] Abbreviation rel st := (released (arrayWriter st) inst (calls st)).

Lemma write_link_released st fin c n a w ab k :
  sink_ok st -> aborted st = (rel st).2 ->
  write_link (arrayWriter st) (mi_run inst fn c n a) (written st) (aborted st)
  = (w, ab, k) ->
  w = (released (arrayWriter st) inst (calls st ++ [EvCrypt fn fin c n a])).1
  ∧ ab = (released (arrayWriter st) inst (calls st ++ [EvCrypt fn fin c n a])).2.
Proof.
  intros [Hw Hf] Hab. rewrite released_snoc. rewrite <- Hab, <- Hw.
  intros ->. done.
Qed.

Lemma body_sink st st' b :
  sink_ok st -> aborted st = (rel st).2 ->
  body st = (st', b) ->
  sink_ok st' ∧ (b = true -> aborted st' = (rel st').2)
  ∧ (aborted st' = None -> (rel st').2 = None)
  ∧ arrayWriter st' = arrayWriter st.
Proof.
  intros Hok Hab. unfold loop_body.
  assert (Habort : ∀ e, sink_ok (abort e st)
            ∧ (aborted (abort e st) = None -> (rel (abort e st)).2 = None)).
  { intros e. destruct Hok as [Hw Hf]. split; [split|]; proj_simpl; try done.
    - intros e' He'. by rewrite (Hf e' He').
    - by destruct (aborted st). }
  destruct (readBytes _ _) as [e|[read rd]].
  { intros [= <- <-]. destruct (Habort e) as [? ?]. done. }
  set (chunk0 := default [] read).
  set (finalChunk := subarray_from chunk0 _).
  set (chunk := subarray chunk0 0 _).
  destruct ((chunkIndex st =? 0) || negb (len chunk =? 0)).
  - destruct (write_link _ _ _ _) as [[w a] n] eqn:Hwl.
    apply (write_link_released st false) in Hwl as [Hw Ha]; [|done..].
    assert (Hdata : ∀ idx ivx bufx,
      let st1 := {| reader := unshift rd finalChunk; chunkIndex := idx;
          cryptedBytes := cryptedBytes st + (len chunk - tagLengthIfDecrypting fn mode);
          queuedBytes := queuedBytes st
            + (len chunk - tagLengthIfDecrypting fn mode + tagLengthIfEncrypting fn mode) - n;
          iv := ivx; adataBuffer := bufx; arrayWriter := arrayWriter st;
          written := w; aborted := a;
          calls := calls st ++ [EvCrypt fn false chunk (chunk_nonce isSEIPDv2 st)
                      (adataArray isAEADP (adataBuffer st))] |} in
      sink_ok st1 ∧ aborted st1 = (rel st1).2).
    { intros idx ivx bufx st1. subst st1. split; [split|]; proj_simpl; try done.
      intros e He. by rewrite Ha. }
    assert (Hthrows : ∀ e,
      let st1 := abort e
        {| reader := unshift rd finalChunk; chunkIndex := chunkIndex st;
           cryptedBytes := cryptedBytes st + (len chunk - tagLengthIfDecrypting fn mode);
           queuedBytes := queuedBytes st
             + (len chunk - tagLengthIfDecrypting fn mode + tagLengthIfEncrypting fn mode) - n;
           iv := iv st; adataBuffer := adataBuffer st;
           arrayWriter := arrayWriter st; written := w; aborted := a;
           calls := calls st ++ [EvCrypt fn false chunk (chunk_nonce isSEIPDv2 st)
                       (adataArray isAEADP (adataBuffer st))] |} in
      sink_ok st1 ∧ (false = true -> aborted st1 = (rel st1).2)
      ∧ (aborted st1 = None -> (rel st1).2 = None)
      ∧ arrayWriter st1 = arrayWriter st).
    { intros e st1. subst st1.
      destruct (Hdata (chunkIndex st) (iv st) (adataBuffer st)) as [[Hw1 Hf1] Ha1].
      proj_simpl. split; [split|]; proj_simpl; try done.
      - intros e' He'. by rewrite (Hf1 e' He').
      - split; [done|]. split; [by destruct a|done]. }
    destruct isSEIPDv2.
    + destruct (setInt32 _ _ _) as [e|iv'].
      * intros [= <- <-]. apply Hthrows.
      * intros [= <- <-].
        destruct (Hdata (chunkIndex st + 1) iv' (adataBuffer st)) as [Hok1 Ha1].
        split; [exact Hok1|]. split; [intros _; exact Ha1|].
        split; [|done].
        intros Hn. etrans; [symmetry; exact Ha1|exact Hn].
    + destruct (setInt32 _ _ _) as [e|buf'].
      * intros [= <- <-]. apply Hthrows.
      * intros [= <- <-].
        destruct (Hdata (chunkIndex st + 1) (iv st) buf') as [Hok1 Ha1].
        split; [exact Hok1|]. split; [intros _; exact Ha1|].
        split; [|done].
        intros Hn. etrans; [symmetry; exact Ha1|exact Hn].
  - destruct (setInt32 _ _ _) as [e|buf'].
    { intros [= <- <-]. destruct (Habort e) as [? ?]. done. }
    destruct (write_link _ _ _ _) as [[w a] n] eqn:Hwl.
    apply (write_link_released st true) in Hwl as [Hw Ha]; [|done..].
    intros [= <- <-]. split; [split|]; proj_simpl; try done.
    + intros e He. by rewrite Ha.
    + split; [done|]. split; [by rewrite Ha|done].
Qed.

Lemma loop_sink fuel st st' :
  sink_ok st -> aborted st = (rel st).2 ->
  lp fuel st = Some st' ->
  sink_ok st' ∧ (aborted st' = None -> (rel st').2 = None)
  ∧ arrayWriter st' = arrayWriter st.
Proof.
  revert st. induction fuel as [|fuel IH]; intros st Hok Hab; [done|].
  cbn [loop]. destruct (body st) as [st1 b] eqn:Hb.
  destruct (body_sink st st1 b Hok Hab Hb) as (Hok1 & Hab1 & Hn1 & Hk1).
  destruct b.
  - intros Hl. destruct (IH st1 Hok1 (Hab1 eq_refl) Hl) as (? & ? & ?).
    split_and!; [done..|congruence].
  - intros [= <-]. done.
Qed.

End Sink.

Section Runs.
Context `{Crypto}.


End Runs.

Section Input_error.
Context (isSEIPDv2 isAEADP : bool) (fn : direction) (mode : AEADMode)
        (inst : ModeInstance) (chunkSize : option Z) (e : error).
Hypothesis Htag : 0 <= tagLengthIfDecrypting fn mode.
Hypothesis Hcs : ∀ k, chunkSize = Some k -> 0 < k.

#[local] Abbreviation body := (loop_body isSEIPDv2 isAEADP fn mode inst chunkSize).
#[local] Abbreviation lp := (loop isSEIPDv2 isAEADP fn mode inst chunkSize).

Lemma body_input_error st st' b :
  rd_err (reader st) = Some e -> body st = (st', b) ->
  rd_err (reader st') = Some e ∧ (b = false -> aborted st' ≠ None).
Proof.
  intros Hre. unfold loop_body.
  destruct (readBytes _ _) as [e'|[read rd]] eqn:Hrd.
  { intros [= <- <-]. proj_simpl. split; [done|]. intros _. by destruct (aborted st). }
  assert (Hread : ∃ k, chunkSize = Some k
            ∧ read = Some (take (Z.to_nat (k + tagLengthIfDecrypting fn mode))
                             (rd_rest (reader st)))
            ∧ k + tagLengthIfDecrypting fn mode <= len (rd_rest (reader st))
            ∧ rd_err rd = Some e).
  { revert Hrd. unfold readBytes. rewrite Hre.
    destruct (rd_rest (reader st)) as [|x rest]; [done|].
    destruct chunkSize as [k|]; cbn [fmap option_fmap option_map default]; [|done].
    destruct (Z.leb_spec (k + tagLengthIfDecrypting fn mode) (len (x :: rest)));
      [|done].
    intros [= <- <-]. exists k. done. }
  destruct Hread as (k & Hk & -> & Hle & Hrde).
  pose proof (Hcs k Hk) as Hkpos.
  cbn [from_option id].
  set (chunk0 := take _ _).
  assert (Hl0 : len chunk0 = k + tagLengthIfDecrypting fn mode).
  { unfold chunk0, len in *. rewrite length_take. lia. }
  set (finalChunk := subarray_from chunk0 _).
  set (chunk := subarray chunk0 0 _).
  assert (Hlc : len chunk = k).
  { unfold chunk. rewrite Hl0.
    replace (k + tagLengthIfDecrypting fn mode - tagLengthIfDecrypting fn mode)
      with (Z.of_nat (Z.to_nat k)) by lia.
    rewrite subarray_prefix by (unfold len in Hl0; lia).
    unfold len in *. rewrite length_take. lia. }
  assert (Hne : negb (len chunk =? 0) = true).
  { apply negb_true_iff, Z.eqb_neq. lia. }
  rewrite Hne, orb_true_r.
  destruct (write_link _ _ _ _) as [[w a] n].
  destruct isSEIPDv2.
  - destruct (setInt32 _ _ _) as [e'|iv'].
    + intros [= <- <-]. proj_simpl. split; [done|]. intros _. by destruct a.
    + intros [= <- <-]. proj_simpl. done.
  - destruct (setInt32 _ _ _) as [e'|buf'].
    + intros [= <- <-]. proj_simpl. split; [done|]. intros _. by destruct a.
    + intros [= <- <-]. proj_simpl. done.
Qed.

Lemma loop_input_error fuel st st' :
  rd_err (reader st) = Some e -> lp fuel st = Some st' -> aborted st' ≠ None.
Proof.
  revert st. induction fuel as [|fuel IH]; intros st Hre; [done|].
  cbn [loop]. destruct (body st) as [st1 b] eqn:Hb.
  destruct (body_input_error st st1 b Hre Hb) as [Hre1 Hab].
  destruct b.
  - by apply IH.
  - intros [= <-]. by apply Hab.
Qed.

End Input_error.

Section Input_error_run.
Context `{Crypto}.

(** X19: When the input stream of runAEAD ends in an error, the output stream of
    the run ends in an error as well (for a chunk size byte and a tag length
    that are not negative): the error of the input is never swallowed. *)
Theorem input_error_reaches_output packet fn key d te out e :
  runAEAD packet fn key d = (te, inr out) ->
  data_err d = Some e ->
  (∀ c, pk_chunkSizeByte packet = JNum c -> 0 <= c) ->
  (∀ b mode, getAEADMode (pk_aeadAlgorithm packet) b = inr mode ->
             0 <= tagLength mode) ->
  ∃ e', data_err out = Some e'.
Proof.
  intros Hrun Herr Hc Ht.
  destruct (runAEAD_run _ _ _ _ _ _ Hrun)
    as (isS & mode & inst & k & iv0 & buf & st & pre & Hmode & Hnew & Hloop
        & -> & Hpre & ->).
  pose proof (Ht _ _ Hmode) as Htag.
  rewrite data_err_like.
  assert (Hab : aborted st ≠ None).
  { apply (loop_input_error isS (negb isS) fn mode inst
             (v2_chunkSize fn mode packet) e) with
      (fuel := S (S (length (data_bytes d)))) (st := new_engine d iv0 buf);
      [| |exact Herr|exact Hloop].
    - destruct fn; cbn; lia.
    - intros k'. unfold v2_chunkSize.
      destruct (pk_chunkSizeByte packet) as [| |c|] eqn:Hcb; cbn; try done.
      + intros [= <-]. destruct fn; cbn; lia.
      + intros [= <-]. pose proof (Hc c eq_refl).
        assert (0 < 2 ^ (c + 6)) by (apply Z.pow_pos_nonneg; lia).
        destruct fn; cbn; lia. }
  destruct (aborted st) as [e'|]; [by exists e'|done].
Qed.

End Input_error_run.

(** ** The size of a version 2 ciphertext *)

Section Size.
Context `{Crypto}.

(** X20: Encrypting n bytes on a version 2 packet with chunks of cs =
    2^(chunkSizeByte + 6) bytes makes k + 1 mode calls, where k is the larger of
    1 and n / cs rounded up: k calls on data chunks of at most cs bytes that
    concatenate to the input, and after them the closing call; the output has no
    error and n + (k + 1) * tagLength bytes. *)
Theorem ciphertext_length packet key d mode inst c :
  pk_instanceof_SEIPD packet = true -> js_is (pk_version packet) 2 = true ->
  pk_chunkSizeByte packet = JNum c -> 0 <= c -> data_err d = None ->
  v2_setup packet key mode inst -> 4 <= ivLength mode ->
  aead_expands (tagLength mode) inst ->
  let n := len (data_bytes d) in
  let cs := 2 ^ (c + 6) in
  let k := Z.max 1 ((n + cs - 1) / cs) in
  ∃ te out,
    runAEAD packet Encrypt key d = (te, inr out)
    ∧ data_err out = None
    ∧ Z.of_nat (length (call_chunks te)) = k + 1
    ∧ len (data_bytes out) = n + (k + 1) * tagLength mode
    ∧ concat (call_chunks te).*2 = data_bytes d
    ∧ Forall (λ fc, len fc.2 <= cs) (call_chunks te)
    ∧ (call_chunks te).*1 = replicate (Z.to_nat k) false ++ [true].
Proof.
  intros Hinst Hv Hc Hc0 Herr Hsetup Hivl Hlaw n cs k.
  destruct (v2_setup_run packet key mode inst Hinst Hv Hsetup Hivl)
    as (iv0 & pre & Hiv0 & Hpre & Hprec & _ & Hall).
  destruct (Hall Encrypt d) as (ste & Hle & Hre).
  assert (Hcs : 0 < cs) by (apply Z.pow_pos_nonneg; lia).
  unfold v2_chunkSize in Hle. rewrite Hc in Hle.
  cbn [chunk_bytes fmap option_fmap option_map tagLengthIfDecrypting] in Hle.
  rewrite Z.add_0_r in Hle.
  set (buf := adata_header packet ++ zeros 8) in *.
  assert (Hg0 : good (new_engine d iv0 buf)) by (apply good_new_engine; [done|lia|done]).
  destruct (enc_loop_count mode inst cs Hcs Hlaw _ _ _ Hg0 Hle)
    as (W & C & HW & HC & Hab & Hn & Hl & Hcat & Hall' & Hfl).
  exists (pre ++ calls ste), (transformed_like d (concat (written ste)) (aborted ste)).
  split; [done|]. rewrite data_err_like, data_bytes_like.
  rewrite call_chunks_pre by done. rewrite HC, HW. cbn [new_engine calls written app].
  split; [done|]. split; [exact Hn|]. split; [exact Hl|]. split; [exact Hcat|].
  split; [done|exact Hfl].
Qed.

End Size.

(** ** The calls of a run on an AEAD-encrypted-data packet *)

Lemma foldl_pointwise {A B} (f g : A → B → A) a l :
  (∀ a b, f a b = g a b) -> foldl f a l = foldl g a l.
Proof.
  intros Hfg. revert a. induction l as [|x l IH]; intros a; [done|].
  cbn. by rewrite Hfg, IH.
Qed.

Lemma chunk_nonce_aeadp st :
  8 <= len (iv st) -> length (adataBuffer st) = 21%nat ->
  chunk_nonce false st
  = take (length (iv st) - 8) (iv st)
      ++ xor_block (drop (length (iv st) - 8) (iv st))
           (take 8 (drop 5 (adataBuffer st))).
Proof.
  intros Hiv Hbuf. unfold chunk_nonce.
  set (K := chunkIndexArray (adataBuffer st)).
  assert (HK : length K = 8%nat).
  { unfold K, chunkIndexArray. rewrite length_take, length_drop. lia. }
  rewrite (foldl_pointwise _
    (λ d i, ta_set d (i + Z.of_nat (length (iv st) - 8))
              (Z.lxor (ta_get d (i + Z.of_nat (length (iv st) - 8))) (ta_get K i)))).
  2:{ intros a b. unfold len in *.
      replace (Z.of_nat (length (iv st)) - 8 + b)
        with (b + Z.of_nat (length (iv st) - 8)) by lia. done. }
  change 8 with (Z.of_nat 8) at 1.
  rewrite xor_into_prefix by (unfold len in *; lia).
  rewrite (take_ge K) by lia.
  rewrite (take_ge (drop _ _)) by (rewrite length_drop; lia).
  rewrite (drop_ge (iv st) (length (iv st) - 8 + 8)) by lia.
  by rewrite app_nil_r.
Qed.

Section AEADP_calls2.
Context (fn : direction) (mode : AEADMode) (inst : ModeInstance)
        (chunkSize : option Z) (hdr iv0 : bytes) (rderr0 : option error).
Hypothesis Hhdr : length hdr = 5%nat.
Hypothesis Hiv0 : 8 <= len iv0.

#[local] Abbreviation tagDec := (tagLengthIfDecrypting fn mode).
#[local] Abbreviation bodyA := (loop_body false true fn mode inst chunkSize).
#[local] Abbreviation data_calls_A := (data_calls_A fn hdr iv0).
#[local] Abbreviation RunningA2 := (RunningA2 fn tagDec hdr iv0).
#[local] Abbreviation PostA := (PostA fn tagDec hdr iv0 rderr0).

Lemma data_calls_A_snoc pre c :
  data_calls_A pre ->
  data_calls_A (pre ++ [EvCrypt fn false c (aeadp_nonce iv0 (Z.of_nat (length pre)))
                          (hdr ++ counter32 (Z.of_nat (length pre)))]).
Proof.
  intros Hpre j ev Hj.
  destruct (decide (j < length pre)%nat) as [Hlt|Hge].
  - rewrite lookup_app_l in Hj by done. by apply Hpre.
  - rewrite lookup_app_r in Hj by lia.
    destruct (j - length pre)%nat eqn:Hd; [|by destruct n].
    simpl in Hj. injection Hj as <-. exists c.
    replace j with (length pre) by lia. done.
Qed.

Lemma runningA2_views st :
  RunningA2 st ->
  length (adataBuffer st) = 21%nat
  ∧ chunk_nonce false st = aeadp_nonce iv0 (chunkIndex st)
  ∧ adataArray true (adataBuffer st) = hdr ++ counter32 (chunkIndex st)
  ∧ take 17 (adataBuffer st) = hdr ++ counter32 (chunkIndex st) ++ zeros 4
  ∧ take 9 (adataBuffer st) = hdr ++ zeros 4
  ∧ drop 13 (adataBuffer st) = zeros 8
  ∧ drop 21 (adataBuffer st) = [].
Proof.
  intros [Hi Hb Hiv Hc Hcalls].
  assert (Hlb : length (adataBuffer st) = 21%nat).
  { rewrite Hb, !length_app, length_counter32, Hhdr. done. }
  split; [done|]. split.
  { rewrite chunk_nonce_aeadp by (rewrite ?Hiv; done). rewrite Hiv.
    unfold aeadp_nonce. do 2 f_equal. rewrite Hb.
    rewrite drop_app_length' by done.
    apply take_app_length'. by rewrite length_counter32. }
  split.
  { unfold adataArray, chunkIndexSizeIfAEADEP. change (Z.to_nat (5 + 8)) with 13%nat.
    rewrite Hb, app_assoc. apply take_app_length'.
    rewrite length_app, length_counter32, Hhdr. done. }
  split.
  { rewrite Hb, !app_assoc.
    rewrite take_app_ge by (rewrite length_app, length_counter32, Hhdr; lia).
    rewrite length_app, length_counter32, Hhdr. done. }
  split.
  { rewrite Hb. rewrite take_app_ge by lia. rewrite Hhdr. done. }
  split.
  { rewrite Hb, app_assoc. apply drop_app_length'.
    rewrite length_app, length_counter32, Hhdr. done. }
  apply drop_ge. lia.
Qed.

Lemma bodyA2_running st st' :
  RunningA2 st -> bodyA st = (st', true) -> RunningA2 st'.
Proof.
  intros Hrun.
  destruct (runningA2_views st Hrun) as (Hlb & Hnonce & Had & H17 & H9 & H13 & H21).
  destruct Hrun as [Hi Hb Hiv Hc Hcalls]. unfold loop_body.
  destruct (readBytes _ _) as [e|[read rd]] eqn:Hread; [by intros [= <- ?]|].
  set (chunk0 := default [] read).
  set (chunk := subarray chunk0 0 _). set (finalChunk := subarray_from chunk0 _).
  rewrite Hnonce, Had.
  destruct ((chunkIndex st =? 0) || negb (len chunk =? 0)).
  - destruct (write_link _ _ _ _) as [[w a] n].
    rewrite setInt32_ok by (unfold len; lia).
    intros [<- _]%pair_equal_spec. constructor; proj_simpl.
    + rewrite length_app. simpl. lia.
    + change (Z.to_nat (5 + 4)) with 9%nat. change (9 + 4)%nat with 13%nat.
      rewrite H9, H13. unfold counter32. by rewrite <- !app_assoc.
    + done.
    + rewrite plain_count_snoc. lia.
    + rewrite Hi. by apply data_calls_A_snoc.
  - unfold chunkIndexSizeIfAEADEP.
    rewrite setInt32_ok by (unfold len; lia).
    destruct (write_link _ _ _ _) as [[w a] n]. by intros [= _ ?].
Qed.

Lemma bodyA2_post st st' :
  RunningA2 st -> rd_err (reader st) = rderr0 ->
  bodyA st = (st', false) -> PostA st'.
Proof.
  intros Hrun Hre.
  destruct (runningA2_views st Hrun) as (Hlb & Hnonce & Had & H17 & H9 & H13 & H21).
  destruct Hrun as [Hi Hb Hiv Hc Hcalls]. unfold loop_body.
  destruct (readBytes _ _) as [e|[read rd]] eqn:Hread.
  { intros [= <-]. exists (calls st). split; [done|]. left. split; [done|].
    rewrite <- Hre. unfold readBytes in Hread.
    destruct (rd_rest (reader st)); destruct (rd_err (reader st)); try done.
    by destruct (match _ with Some _ => _ | None => _ end). }
  set (chunk0 := default [] read).
  set (chunk := subarray chunk0 0 _). set (finalChunk := subarray_from chunk0 _).
  rewrite Hnonce, Had.
  destruct ((chunkIndex st =? 0) || negb (len chunk =? 0)).
  - destruct (write_link _ _ _ _) as [[w a] n].
    rewrite setInt32_ok by (unfold len; lia). by intros [= _ ?].
  - unfold chunkIndexSizeIfAEADEP.
    rewrite setInt32_ok by (unfold len; lia).
    destruct (write_link _ _ _ _) as [[w a] n].
    intros [<- _]%pair_equal_spec. proj_simpl.
    exists (calls st). split; [done|]. right. exists finalChunk.
    unfold adataTagArray. change (Z.to_nat (5 + 8 + 4)) with 17%nat.
    change (17 + 4)%nat with 21%nat.
    rewrite H17, H21, app_nil_r, Hi, Hc. by rewrite <- !app_assoc.
Qed.

Lemma bodyA2_rderr st st' b :
  bodyA st = (st', b) -> b = true -> rd_err (reader st') = rd_err (reader st).
Proof.
  unfold loop_body.
  destruct (readBytes _ _) as [e|[read rd]] eqn:Hread; [by intros [= _ <-]|].
  destruct (readBytes_partition _ _ _ _ Hread) as (_ & Herr & _).
  destruct ((chunkIndex st =? 0) || negb (len _ =? 0)).
  - destruct (write_link _ _ _ _) as [[w a] n].
    destruct (setInt32 _ _ _); [by intros [= _ <-]|].
    intros [= <- _] _. by proj_simpl.
  - destruct (setInt32 _ _ _); [by intros [= _ <-]|].
    destruct (write_link _ _ _ _) as [[w a] n]. by intros [= _ <-].
Qed.

Lemma loopA2_post fuel st st' :
  RunningA2 st -> rd_err (reader st) = rderr0 ->
  loop false true fn mode inst chunkSize fuel st = Some st' -> PostA st'.
Proof.
  revert st; induction fuel as [|fuel IH]; intros st Hrun Hre; simpl; [done|].
  destruct (bodyA st) as [st1 [|]] eqn:Hb.
  - apply IH; [by eapply bodyA2_running|].
    by rewrite (bodyA2_rderr _ _ _ Hb eq_refl).
  - intros [= <-]. by eapply bodyA2_post.
Qed.

End AEADP_calls2.

Section AEADP_roundtrip.
Context (mode : AEADMode) (inst : ModeInstance) (cs : Z).
#[local] Abbreviation t := (tagLength mode).
Hypothesis Ht : 0 <= t.
Hypothesis Hcs : 0 < cs.
Hypothesis law : aead_correct t inst.

#[local] Abbreviation body_enc := (loop_body false true Encrypt mode inst (Some cs)).
#[local] Abbreviation loop_enc := (loop false true Encrypt mode inst (Some cs)).
#[local] Abbreviation body_dec := (loop_body false true Decrypt mode inst (Some (cs + t))).
#[local] Abbreviation loop_dec := (loop false true Decrypt mode inst (Some (cs + t))).

Lemma data_stepA ste :
  goodA ste ->
  chunkIndex ste = 0 ∨ rd_rest (reader ste) ≠ [] ->
  let chunk := take (Z.to_nat cs) (rd_rest (reader ste)) in
  ∃ ct ste1,
    body_enc ste = (ste1, true) ∧ goodA ste1
    ∧ rd_rest (reader ste1) = drop (Z.to_nat cs) (rd_rest (reader ste))
    ∧ written ste1 = written ste ++ [ct]
    ∧ chunkIndex ste1 ≠ 0
    ∧ len ct = len chunk + t
    ∧ ∀ std R,
        matching ste std -> rd_rest (reader std) = ct ++ R ->
        t <= len R -> (len chunk < cs -> len R = t) ->
        ∃ std1,
          body_dec std = (std1, true) ∧ matching ste1 std1
          ∧ rd_rest (reader std1) = R
          ∧ written std1 = written std ++ [chunk].
Proof.
  intros [Hre Hsink Hidx Hbuf] Hcond chunk.
  destruct (law chunk (chunk_nonce false ste) (take 13 (adataBuffer ste)))
    as (ct & Henc & Hlen & Hdec).
  assert (Hbranch : (chunkIndex ste =? 0) || negb (len chunk =? 0) = true).
  { destruct Hcond as [->|Hne]; [done|]. apply orb_true_iff. right.
    apply negb_true_iff, not_true_iff_false. rewrite len_nil_iff.
    subst chunk. destruct (rd_rest (reader ste)); [done|].
    destruct (Z.to_nat cs) eqn:?; [lia|done]. }
  assert (Hbe : ∃ ste1, body_enc ste = (ste1, true)
    ∧ reader ste1 = {| rd_rest := drop (Z.to_nat cs) (rd_rest (reader ste));
                       rd_err := None |}
    ∧ written ste1 = written ste ++ [ct] ∧ aborted ste1 = None
    ∧ chunkIndex ste1 = chunkIndex ste + 1
    ∧ cryptedBytes ste1 = cryptedBytes ste + len chunk
    ∧ iv ste1 = iv ste
    ∧ setInt32 (adataBuffer ste) 9 (chunkIndex ste + 1) = inr (adataBuffer ste1)).
  { eexists. split.
    { unfold loop_body. cbn [fmap option_fmap option_map tagLengthIfDecrypting].
      rewrite readBytes_spec by (done || lia).
      rewrite default_read. replace (Z.to_nat (cs + 0)) with (Z.to_nat cs) by lia.
      fold chunk. rewrite Z.sub_0_r.
      assert (Hc1 : subarray chunk 0 (len chunk) = chunk).
      { unfold len. rewrite subarray_prefix by lia. by rewrite take_ge by lia. }
      assert (Hc2 : subarray_from chunk (len chunk) = []).
      { unfold len. rewrite subarray_from_suffix by lia. by rewrite drop_all. }
      rewrite Hc1, Hc2, Hbranch.
      unfold adataArray, chunkIndexSizeIfAEADEP.
      change (Z.to_nat (5 + 8)) with 13%nat. cbn [mi_run].
      rewrite Henc, Hsink. cbn [write_link].
      rewrite setInt32_ok by (unfold len; lia). reflexivity. }
    proj_simpl. split_and!; try done; try lia.
    change (5 + 4) with 9. apply setInt32_ok; unfold len; lia. }
  destruct Hbe as (ste1 & Hb & Hrd1 & Hw1 & Hab1 & Hidx1 & Hcb1 & Hiv1 & Hbuf1).
  exists ct, ste1. split; [done|]. split.
  { constructor; rewrite ?Hrd1, ?Hab1, ?Hidx1; try done; try lia.
    apply setInt32_length in Hbuf1. lia. }
  split; [by rewrite Hrd1|]. split; [done|]. split; [lia|]. split; [done|].
  intros std R [Miv Mbuf Midx Mcnt Mre Msink] Hrest HR Hlast.
  assert (Hchunk_le : len chunk <= cs).
  { subst chunk. unfold len. rewrite length_take. lia. }
  assert (Hread : take (Z.to_nat (cs + t + t)) (ct ++ R) = ct ++ take (Z.to_nat t) R
                  ∧ drop (Z.to_nat (cs + t + t)) (ct ++ R) = drop (Z.to_nat t) R).
  { destruct (decide (len chunk < cs)) as [Hlt|Hge].
    - specialize (Hlast Hlt).
      rewrite take_ge by (unfold len in *; rewrite length_app; lia).
      rewrite drop_ge by (unfold len in *; rewrite length_app; lia).
      rewrite (take_ge R) by (unfold len in *; lia).
      rewrite (drop_ge R) by (unfold len in *; lia). done.
    - rewrite take_app_ge by (unfold len in *; lia).
      rewrite drop_app_ge by (unfold len in *; lia).
      split; do 2 f_equal; unfold len in *; lia. }
  destruct Hread as [Hread Hdrop].
  set (F := take (Z.to_nat t) R) in *.
  assert (HF : len F = t).
  { unfold F, len in *. rewrite length_take. lia. }
  assert (Hb2 : (chunkIndex std =? 0) || negb (len ct =? 0) = true).
  { rewrite Midx. destruct Hcond as [->|Hne]; [done|].
    apply orb_true_iff. right. apply negb_true_iff, Z.eqb_neq.
    assert (chunk ≠ []).
    { subst chunk. destruct (rd_rest (reader ste)); [done|].
      destruct (Z.to_nat cs) eqn:?; [lia|done]. }
    destruct chunk; [done|]. unfold len in *. simpl in Hlen. lia. }
  assert (Hn : chunk_nonce false std = chunk_nonce false ste).
  { unfold chunk_nonce. by rewrite Miv, Mbuf. }
  eexists. split.
  { unfold loop_body. cbn [fmap option_fmap option_map tagLengthIfDecrypting].
    rewrite readBytes_spec by (done || lia).
    rewrite default_read, Hrest, Hread, Hdrop.
    rewrite len_app, HF.
    replace (len ct + t - t) with (Z.of_nat (length ct)) by (unfold len; lia).
    rewrite subarray_prefix by (rewrite length_app; lia).
    rewrite subarray_from_suffix by (rewrite length_app; lia).
    rewrite take_app_length, drop_app_length.
    rewrite Hb2, Hn.
    unfold adataArray, chunkIndexSizeIfAEADEP.
    change (Z.to_nat (5 + 8)) with 13%nat. cbn [mi_run].
    rewrite Mbuf, Hdec, Msink. cbn [write_link].
    change (5 + 4) with 9. rewrite Midx, Hbuf1. reflexivity. }
  proj_simpl. split; [|split; [|done]].
  - constructor; proj_simpl; rewrite ?Hiv1, ?Hidx1, ?Hcb1, ?Midx, ?Mcnt;
      try done.
    subst chunk. unfold len in *. lia.
  - unfold F. apply take_drop.
Qed.

Lemma final_stepA ste :
  goodA ste -> chunkIndex ste ≠ 0 -> rd_rest (reader ste) = [] ->
  ∃ ct ste',
    body_enc ste = (ste', false)
    ∧ written ste' = written ste ++ [ct] ∧ aborted ste' = None
    ∧ len ct = t
    ∧ ∀ std,
        matching ste std -> rd_rest (reader std) = ct ->
        ∃ std',
          body_dec std = (std', false) ∧ aborted std' = None
          ∧ written std' = written std ++ [[]].
Proof.
  intros [Hre Hsink Hidx Hbuf] Hnz Hrest.
  destruct (setInt32 (adataBuffer ste) 17 (cryptedBytes ste)) as [e|buf'] eqn:Hset.
  { apply setInt32_range in Hset. unfold len in *. lia. }
  destruct (law [] (chunk_nonce false ste) buf') as (ct & Henc & Hlen & Hdec).
  assert (Hbranch : (chunkIndex ste =? 0) || negb (len ([] : bytes) =? 0) = false).
  { apply orb_false_iff. split; [by apply Z.eqb_neq|done]. }
  eexists ct, _. split.
  { unfold loop_body. cbn [fmap option_fmap option_map tagLengthIfDecrypting].
    rewrite readBytes_spec by (done || lia).
    rewrite default_read, Hrest, take_nil.
    change (subarray [] 0 (len [] - 0)) with ([] : bytes).
    change (subarray_from [] (len [] - 0)) with ([] : bytes).
    rewrite Hbranch. unfold chunkIndexSizeIfAEADEP.
    change (5 + 8 + 4) with 17. rewrite Hset.
    unfold adataTagArray. cbn [mi_run].
    rewrite Henc, Hsink. cbn [write_link]. reflexivity. }
  proj_simpl. split; [done|]. split; [done|]. split; [done|].
  intros std [Miv Mbuf Midx Mcnt Mre Msink] Hrd.
  assert (Hn : chunk_nonce false std = chunk_nonce false ste).
  { unfold chunk_nonce. by rewrite Miv, Mbuf. }
  eexists. split.
  { unfold loop_body. cbn [fmap option_fmap option_map tagLengthIfDecrypting].
    rewrite readBytes_spec by (done || lia).
    rewrite default_read, Hrd.
    rewrite (take_ge ct) by (unfold len in *; lia).
    change (len ([] : bytes)) with 0 in Hlen.
    replace (len ct - t) with (Z.of_nat 0) by (simpl; lia).
    rewrite subarray_prefix by (simpl; lia).
    rewrite subarray_from_suffix by (simpl; lia).
    rewrite take_0, drop_0, Midx, Hbranch. unfold chunkIndexSizeIfAEADEP.
    change (5 + 8 + 4) with 17. rewrite Mcnt, Mbuf, Hset.
    unfold adataTagArray. cbn [mi_run].
    rewrite Hn, Hdec, Msink. cbn [write_link]. reflexivity. }
  proj_simpl. done.
Qed.

Lemma loops_roundtripA fuel ste ste' :
  goodA ste -> loop_enc fuel ste = Some ste' ->
  ∃ W,
    written ste' = written ste ++ W ∧ aborted ste' = None
    ∧ t <= len (concat W)
    ∧ (rd_rest (reader ste) = [] -> chunkIndex ste ≠ 0 -> len (concat W) = t)
    ∧ ∀ std,
        matching ste std -> rd_rest (reader std) = concat W ->
        ∃ std',
          loop_dec fuel std = Some std' ∧ aborted std' = None
          ∧ concat (written std')
            = concat (written std) ++ rd_rest (reader ste).
Proof.
  revert ste; induction fuel as [|fuel IH]; intros ste Hgood; [done|].
  cbn [loop].
  destruct (decide (chunkIndex ste = 0 ∨ rd_rest (reader ste) ≠ [])) as [Hc|Hc].
  - destruct (data_stepA ste Hgood Hc)
      as (ct & ste1 & Hb & Hgood1 & Hrest1 & Hw1 & Hnz1 & Hlen & Hdec).
    rewrite Hb. intros Hl.
    destruct (IH ste1 Hgood1 Hl) as (W1 & HW & Hab & Hge & Hfin & Hd).
    exists (ct :: W1). split; [by rewrite HW, Hw1, <- app_assoc|].
    split; [done|]. cbn [concat]. rewrite len_app.
    split; [unfold len in *; lia|]. split.
    { intros Hnil Hnz. destruct Hc; done. }
    intros std Hm Hrd.
    destruct (Hdec std (concat W1) Hm Hrd Hge) as (std1 & Hbd & Hm1 & Hrd1 & Hwd1).
    { intros Hlt. apply Hfin; [|done]. rewrite Hrest1.
      apply drop_ge. unfold len in *. rewrite length_take in Hlt. lia. }
    rewrite Hbd.
    destruct (Hd std1 Hm1 Hrd1) as (std' & Hld & Habd & Hcd).
    exists std'. split; [done|]. split; [done|].
    rewrite Hcd, Hwd1, Hrest1, concat_app. cbn [concat].
    rewrite app_nil_r, <- app_assoc. by rewrite take_drop.
  - assert (Hnz : chunkIndex ste ≠ 0) by tauto.
    assert (Hnil : rd_rest (reader ste) = []).
    { destruct (rd_rest (reader ste)); [done|]. exfalso. apply Hc. by right. }
    destruct (final_stepA ste Hgood Hnz Hnil) as (ct & ste1 & Hb & Hw & Hab & Hlen & Hdec).
    rewrite Hb. intros [= <-].
    exists [ct]. split; [done|]. split; [done|]. cbn [concat]. rewrite app_nil_r.
    split; [lia|]. split; [done|].
    intros std Hm Hrd.
    destruct (Hdec std Hm Hrd) as (std' & Hbd & Habd & Hwd).
    exists std'. rewrite Hbd. split; [done|]. split; [done|].
    rewrite Hwd, Hnil, concat_app. cbn [concat]. by rewrite !app_nil_r.
Qed.

End AEADP_roundtrip.

Section AEADP_theorems.
Context `{Crypto}.

Lemma length_adata_header packet : length (adata_header packet) = 5%nat.
Proof. done. Qed.

(** [runAEAD] on an AEAD-encrypted-data packet whose mode is there. *)
Lemma runAEAD_aeadp_eq packet fn key d mode inst :
  pk_instanceof_SEIPD packet && js_is (pk_version packet) 2 = false ->
  pk_tag packet = aeadEncryptedData ->
  getAEADMode (pk_aeadAlgorithm packet) true = inr mode ->
  mode_new mode (pk_cipherAlgorithm packet) key = inr inst ->
  ∃ st,
    loop false true fn mode inst (v2_chunkSize fn mode packet)
      (S (S (length (data_bytes d))))
      (new_engine d (pk_iv packet) (adata_header packet ++ zeros 16)) = Some st
    ∧ runAEAD packet fn key d
      = ([EvModeNew (pk_cipherAlgorithm packet) key] ++ calls st,
         inr (transformed_like d (concat (written st)) (aborted st))).
Proof.
  intros Hv Htag Hmode Hnew.
  destruct (new_engine_terminates false true fn mode inst
              (v2_chunkSize fn mode packet) d (pk_iv packet)
              (adata_header packet ++ zeros 16)) as [st Hst].
  exists st. split; [done|].
  unfold runAEAD. rewrite Hv, Htag, Z.eqb_refl. cbn [andb negb].
  rewrite Hmode. cbn [lift bind chunkIndexSizeIfAEADEP ret emit fst snd app].
  rewrite Hnew. cbn [lift bind chunkIndexSizeIfAEADEP ret emit fst snd app].
  change (zeros (Z.to_nat (8 + 8))) with (zeros 16).
  fold (v2_chunkSize fn mode packet). by rewrite Hst.
Qed.

Lemma runAEAD_aeadp_inv2 packet fn key d te out :
  pk_instanceof_SEIPD packet && js_is (pk_version packet) 2 = false ->
  pk_tag packet = aeadEncryptedData ->
  runAEAD packet fn key d = (te, inr out) ->
  ∃ mode inst,
    getAEADMode (pk_aeadAlgorithm packet) true = inr mode
    ∧ mode_new mode (pk_cipherAlgorithm packet) key = inr inst.
Proof.
  intros Hv Htag. unfold runAEAD. rewrite Hv, Htag, Z.eqb_refl. cbn [andb negb].
  destruct (getAEADMode _ _) as [e|mode] eqn:Hmode; [done|].
  cbn [lift bind chunkIndexSizeIfAEADEP ret emit fst snd app].
  destruct (mode_new _ _ _) as [e|inst] eqn:Hnew; [done|].
  intros _. by exists mode, inst.
Qed.

(** X21: In a run on an AEAD-encrypted-data packet whose IV has at least 8
    bytes, the call on data chunk j takes as nonce the IV with the 8-byte chunk
    index j xored into its last 8 bytes, and as associated data the 5 header
    bytes followed by that index; the closing call, made unless the input stream
    failed, takes the next nonce and the same data followed by the plaintext
    byte count in 8 bytes. *)
Theorem aeadp_nonces_and_closing_data packet fn key d te out :
  pk_instanceof_SEIPD packet && js_is (pk_version packet) 2 = false ->
  pk_tag packet = aeadEncryptedData ->
  8 <= len (pk_iv packet) ->
  runAEAD packet fn key d = (te, inr out) ->
  ∃ mode pre,
    getAEADMode (pk_aeadAlgorithm packet) true = inr mode
    ∧ data_calls_A fn (adata_header packet) (pk_iv packet) pre
    ∧ ((crypt_calls te = pre ∧ data_err d ≠ None)
       ∨ ∃ c, crypt_calls te
              = pre ++ [EvCrypt fn true c
                          (aeadp_nonce (pk_iv packet) (Z.of_nat (length pre)))
                          (adata_header packet
                             ++ counter32 (Z.of_nat (length pre)) ++ zeros 4
                             ++ Z_to_be 4
                                  (plain_count (tagLengthIfDecrypting fn mode) pre))]).
Proof.
  intros Hv Htag Hiv Hrun.
  destruct (runAEAD_aeadp_inv2 _ _ _ _ _ _ Hv Htag Hrun) as (mode & inst & Hmode & Hnew).
  destruct (runAEAD_aeadp_eq packet fn key d mode inst Hv Htag Hmode Hnew)
    as (st & Hloop & Heq).
  rewrite Heq in Hrun. injection Hrun as <- <-.
  exists mode.
  assert (Hrun0 : RunningA2 fn (tagLengthIfDecrypting fn mode) (adata_header packet)
                    (pk_iv packet)
                    (new_engine d (pk_iv packet) (adata_header packet ++ zeros 16))).
  { by constructor. }
  destruct (loopA2_post fn mode inst _ (adata_header packet) (pk_iv packet)
              (data_err d) (length_adata_header packet) Hiv _ _ _ Hrun0 eq_refl Hloop)
    as (pre & Hpre & Hcases).
  exists pre. split; [done|]. split; [done|].
  assert (Hcr : Forall is_crypt (calls st)).
  { assert (Forall is_crypt pre).
    { apply Forall_lookup. intros j ev Hj. destruct (Hpre j ev Hj) as [c ->]. done. }
    destruct Hcases as [[-> _]|(c & ->)]; [done|].
    apply Forall_app. split; [done|]. by apply Forall_singleton. }
  cbn [app crypt_calls]. rewrite (crypt_calls_all _ Hcr).
  destruct Hcases as [[-> Hne]|(c & -> )]; [by left|right; by exists c].
Qed.

(** X22: For an AEAD-encrypted-data packet with a chunk size byte that is not
    negative, a mode whose decryption inverts its encryption and an input
    without stream error, runAEAD encrypts to a ciphertext from which runAEAD,
    decrypting, returns exactly the bytes of the input. *)
Theorem aeadp_roundtrip packet key d mode inst c :
  pk_instanceof_SEIPD packet && js_is (pk_version packet) 2 = false ->
  pk_tag packet = aeadEncryptedData ->
  pk_chunkSizeByte packet = JNum c -> 0 <= c -> data_err d = None ->
  getAEADMode (pk_aeadAlgorithm packet) true = inr mode ->
  mode_new mode (pk_cipherAlgorithm packet) key = inr inst ->
  0 <= tagLength mode -> aead_correct (tagLength mode) inst ->
  ∃ te ct,
    runAEAD packet Encrypt key d = (te, inr (transformed_like d ct None))
    ∧ ∀ d', data_bytes d' = ct -> data_err d' = None ->
        ∃ td, runAEAD packet Decrypt key d'
              = (td, inr (transformed_like d' (data_bytes d) None)).
Proof.
  intros Hv Htag Hc Hc0 Herr Hmode Hnew Ht Hlaw.
  destruct (runAEAD_aeadp_eq packet Encrypt key d mode inst Hv Htag Hmode Hnew)
    as (ste & Hle & Hre).
  assert (Hcs : 0 < 2 ^ (c + 6)) by (apply Z.pow_pos_nonneg; lia).
  unfold v2_chunkSize in Hle. rewrite Hc in Hle.
  cbn [chunk_bytes fmap option_fmap option_map tagLengthIfDecrypting] in Hle.
  rewrite Z.add_0_r in Hle.
  set (buf := adata_header packet ++ zeros 16) in *.
  assert (Hg0 : goodA (new_engine d (pk_iv packet) buf)) by (by constructor).
  destruct (loops_roundtripA mode inst (2 ^ (c + 6)) Ht Hcs Hlaw _ _ _ Hg0 Hle)
    as (W & HW & Hab & _ & _ & Hdec).
  exists ([EvModeNew (pk_cipherAlgorithm packet) key] ++ calls ste), (concat W).
  split.
  { rewrite Hre, Hab. by rewrite HW. }
  intros d' Hd' Herr'.
  destruct (runAEAD_aeadp_eq packet Decrypt key d' mode inst Hv Htag Hmode Hnew)
    as (std & Hld & Hrd).
  unfold v2_chunkSize in Hld. rewrite Hc in Hld.
  cbn [chunk_bytes fmap option_fmap option_map tagLengthIfDecrypting] in Hld.
  fold buf in Hld.
  destruct (Hdec (new_engine d' (pk_iv packet) buf)) as (std' & Hld' & Habd & Hcd).
  { by constructor. }
  { done. }
  assert (std = std').
  { set (f1 := S (S (length (data_bytes d)))) in *.
    set (f2 := S (S (length (data_bytes d')))) in *.
    apply (loop_fuel_mono _ _ _ _ _ _ _ (f1 `max` f2)%nat) in Hld'; [|lia].
    apply (loop_fuel_mono _ _ _ _ _ _ _ (f1 `max` f2)%nat) in Hld; [|lia].
    rewrite Hld in Hld'. by injection Hld'. }
  subst std'. eexists. rewrite Hrd, Habd, Hcd. done.
Qed.

End AEADP_theorems.

(** ** The test message *)

Lemma floor_times_range (r : Z * Z) (n b : Z) :
  unit_double r -> 0 <= b -> 2 ^ (b - 1) < n < 2 ^ b ->
  0 <= floor_times r n < n.
Proof.
  destruct r as [m k]. intros (Hm & Hk & Hlt) Hb Hn. cbn [fst snd] in *.
  unfold floor_times.
  assert (Hb1 : 0 < 2 ^ (b - 1)).
  { destruct (Z.eq_dec b 0) as [->|]; [cbn in Hn; lia|].
    apply Z.pow_pos_nonneg; lia. }
  assert (H2k : 0 < 2 ^ k) by (apply Z.pow_pos_nonneg; lia).
  set (p := m * n).
  assert (Hp0 : 0 <= p) by (unfold p; nia).
  assert (Hpn : p + n <= n * 2 ^ k).
  { unfold p. replace (m * n + n) with (n * (m + 1)) by lia.
    apply Z.mul_le_mono_nonneg_l; lia. }
  assert (Hgoal : ∀ v, 0 <= v -> v < n * 2 ^ k -> 0 <= v / 2 ^ k < n).
  { intros v Hv0 Hv. split; [by apply Z.div_pos|].
    apply Z.div_lt_upper_bound; [done|]. lia. }
  set (s := Z.log2 p + 1 - 53).
  destruct (Z.ltb_spec 0 s) as [Hs|Hs]; [|apply Hgoal; lia].
  assert (H2s : 0 < 2 ^ s) by (apply Z.pow_pos_nonneg; lia).
  assert (Hsb : s <= b).
  { assert (Hpos : 0 < p).
    { destruct (Z.eq_dec p 0) as [Hz|]; [|lia].
      unfold s in Hs. rewrite Hz in Hs. cbn in Hs. lia. }
    assert (Hpb : p < 2 ^ (53 + b)).
    { rewrite Z.pow_add_r by lia. unfold p.
      apply Z.mul_lt_mono_nonneg; lia. }
    apply Z.log2_lt_pow2 in Hpb; [|done]. unfold s. lia. }
  assert (Hhalf : 2 ^ s = 2 * 2 ^ (s - 1)).
  { replace s with (1 + (s - 1)) at 1 by lia.
    rewrite Z.pow_add_r by lia. done. }
  assert (Hsn : 2 ^ (s - 1) < n).
  { eapply Z.le_lt_trans; [|apply Hn]. apply Z.pow_le_mono_r; lia. }
  pose proof (Z.div_mod p (2 ^ s) ltac:(lia)) as Hdm.
  pose proof (Z.mod_pos_bound p (2 ^ s) H2s) as Hrem.
  assert (Hq0 : 0 <= p / 2 ^ s) by (apply Z.div_pos; lia).
  destruct ((2 ^ (s - 1) <? p mod 2 ^ s)
            || ((p mod 2 ^ s =? 2 ^ (s - 1)) && Z.odd (p / 2 ^ s))) eqn:Hup.
  - assert (Hr : 2 ^ (s - 1) <= p mod 2 ^ s).
    { apply orb_true_iff in Hup as [Hlt'|Heq].
      - apply Z.ltb_lt in Hlt'. lia.
      - apply andb_true_iff in Heq as [Heq _]. apply Z.eqb_eq in Heq. lia. }
    apply Hgoal; nia.
  - apply Hgoal; nia.
Qed.

Lemma length_fromCodePoint_bmp l :
  Forall (λ cp, cp < 65536) l -> length (concat (map fromCodePoint l)) = length l.
Proof.
  induction 1 as [|cp l Hcp _ IH]; [done|].
  cbn [map concat]. rewrite length_app, IH. unfold fromCodePoint.
  destruct (Z.ltb_spec cp 65536); [done|lia].
Qed.

Lemma length_fromCodePoint_astral l :
  Forall (λ cp, 65536 <= cp) l ->
  length (concat (map fromCodePoint l)) = (2 * length l)%nat.
Proof.
  induction 1 as [|cp l Hcp _ IH]; [done|].
  cbn [map concat]. rewrite length_app, IH. unfold fromCodePoint.
  destruct (Z.ltb_spec cp 65536); [lia|]. cbn [length]. lia.
Qed.

Lemma units_fromCodePoint l :
  Forall (λ cp, 0 <= cp < 1114112) l ->
  Forall (λ c, 0 <= c < 65536) (concat (map fromCodePoint l)).
Proof.
  induction 1 as [|cp l Hcp _ IH]; [done|].
  cbn [map concat]. apply Forall_app. split; [|done]. unfold fromCodePoint.
  destruct (Z.ltb_spec cp 65536).
  - apply Forall_singleton. lia.
  - assert (0 <= (cp - 65536) / 1024 < 1024).
    { split; [apply Z.div_pos; lia|]. apply Z.div_lt_upper_bound; lia. }
    pose proof (Z.mod_pos_bound (cp - 65536) 1024 ltac:(lia)).
    repeat constructor; lia.
Qed.

(** X23: Whatever doubles in [0, 1) Math.random returns, createSomeMessage
    returns a string of exactly 64 UTF-16 code units that starts with U+2007,
    a space and a tab, ends with the fixed 11 units of its suffix, and holds
    no carriage return, U+2028 or U+2029. *)
Theorem createSomeMessage_shape (random : nat → Z * Z) :
  (∀ i, unit_double (random i)) ->
  let message := createSomeMessage random in
  length message = 64%nat
  ∧ Forall (λ c, 0 <= c < 65536) message
  ∧ Forall (λ c, c ∉ [13; 8232; 8233]) message
  ∧ take 3 message = [8199; 32; 9]
  ∧ drop 53 message
    = [8199; 32; 9; 10; 54620; 44397; 50612; 47; 51312; 49440; 47568].
Proof.
  intros Hr. cbv zeta. unfold createSomeMessage.
  set (a1 := map (λ i, floor_times (random i) 10174 + 1) (seq 0 30)).
  set (a2 := map (λ i, 128512 + floor_times (random i) (128591 - 128512) + 1)
               (seq 30 10)).
  assert (H1 : Forall (λ cp, 1 <= cp <= 10174) a1).
  { unfold a1. apply Forall_map, Forall_forall. intros i _. cbv beta.
    pose proof (floor_times_range (random i) 10174 14 (Hr i)
                  ltac:(lia) ltac:(lia)).
    lia. }
  assert (H2 : Forall (λ cp, 128513 <= cp <= 128591) a2).
  { unfold a2. apply Forall_map, Forall_forall. intros i _. cbv beta.
    pose proof (floor_times_range (random i) (128591 - 128512) 7 (Hr i)
                  ltac:(lia) ltac:(lia)).
    lia. }
  set (repl := λ c : Z, if bool_decide (c ∈ [13; 8232; 8233]) then 10 else c).
  assert (Hlen : length (map repl (concat (map fromCodePoint (a1 ++ a2)))) = 50%nat).
  { rewrite length_map, map_app, concat_app, length_app.
    rewrite length_fromCodePoint_bmp
      by (eapply Forall_impl; [exact H1|]; cbn; intros; lia).
    rewrite length_fromCodePoint_astral
      by (eapply Forall_impl; [exact H2|]; cbn; intros; lia).
    unfold a1, a2. by rewrite !length_map, !length_seq. }
  split; [rewrite !length_app, Hlen; done|]. split.
  { apply Forall_app. split; [repeat constructor; lia|].
    apply Forall_app. split; [|repeat constructor; lia].
    apply Forall_map.
    eapply Forall_impl.
    - apply units_fromCodePoint. apply Forall_app. split.
      + eapply Forall_impl; [exact H1|]. cbn. intros; lia.
      + eapply Forall_impl; [exact H2|]. cbn. intros; lia.
    - cbn. intros c Hc. unfold repl. case_bool_decide; lia. }
  split.
  { assert (Hlit : ∀ c, bool_decide (c ∈ [13; 8232; 8233]) = false ->
                        c ∉ [13; 8232; 8233]).
    { intros c Hc. by apply bool_decide_eq_false in Hc. }
    apply Forall_app. split.
    { repeat (apply Forall_cons; split; [apply Hlit; vm_compute; reflexivity|]).
      constructor. }
    apply Forall_app. split.
    - apply Forall_map, Forall_forall. intros c _. cbv beta. unfold repl.
      case_bool_decide as Hc; [apply Hlit; vm_compute; reflexivity|done].
    - repeat (apply Forall_cons; split; [apply Hlit; vm_compute; reflexivity|]).
      constructor. }
  split; [done|].
  rewrite drop_app_ge by (cbn; lia). cbn [length].
  rewrite drop_app_length'; [done|]. rewrite Hlen. done.
Qed.

(** ** The further theorems at work *)

Lemma octets_seqZ a n : 0 <= a -> a + n <= 256 -> octets (seqZ a n).
Proof.
  intros Ha Hn. apply Forall_forall. intros x [? ?]%elem_of_seqZ. lia.
Qed.

Lemma rightXORMut_last_block_witness :
  length (rightXORMut (seqZ 0 20) (seqZ 100 16)) = 20%nat
  ∧ take 4 (rightXORMut (seqZ 0 20) (seqZ 100 16)) = [0; 1; 2; 3]
  ∧ rightXORMut (rightXORMut (seqZ 0 20) (seqZ 100 16)) (seqZ 100 16) = seqZ 0 20.
Proof.
  apply (rightXORMut_last_block (seqZ 0 20) (seqZ 100 16)).
  - vm_compute. lia.
  - reflexivity.
  - apply octets_seqZ; lia.
Defined.

Lemma pad_whole_blocks_witness :
  let p := pad (seqZ 0 5) (seqZ 100 16) (seqZ 200 16) in
  (16 <= length p)%nat ∧ (length p mod 16 = 0)%nat
  ∧ (5 <= length p <= 5 + 16)%nat
  ∧ (length p = 5%nat <-> (5 ≠ 0 ∧ 5 mod 16 = 0)%nat)
  ∧ take (length p - 16) p = take (length p - 16) (seqZ 0 5).
Proof.
  apply (pad_whole_blocks (seqZ 0 5) (seqZ 100 16) (seqZ 200 16)); reflexivity.
Defined.

Lemma pad_unambiguous_witness : seqZ 0 5 = [0; 1; 2; 3; 4].
Proof.
  apply (pad_unambiguous (seqZ 0 5) [0; 1; 2; 3; 4] (seqZ 100 16) (seqZ 200 16));
    try reflexivity.
  - apply octets_seqZ; lia.
  - apply (octets_seqZ 0 5); lia.
Defined.

Lemma CMAC_tag_length_witness : length (CMAC toy_E [1; 2; 3] (seqZ 0 37)) = 16%nat.
Proof. exact (CMAC_tag_length toy_E toy_E_block [1; 2; 3] (seqZ 0 37)). Defined.

Lemma CBC_prefix_witness :
  take 32 (CBC toy_E [1; 2; 3] (seqZ 0 32 ++ seqZ 50 16)) = CBC toy_E [1; 2; 3] (seqZ 0 32)
  ∧ length (CBC toy_E [1; 2; 3] (seqZ 0 32 ++ seqZ 50 16)) = 48%nat.
Proof.
  apply (CBC_prefix toy_E toy_E_block [1; 2; 3] (seqZ 0 32) (seqZ 50 16));
    reflexivity.
Defined.

Lemma CMAC_overwrites_whole_blocks_witness :
  CMAC_leaves toy_E [1; 2; 3] (seqZ 0 5) = seqZ 0 5
  ∧ CMAC_leaves toy_E [1; 2; 3] (CMAC_leaves toy_E [1; 2; 3] (seqZ 0 32)) = seqZ 0 32
  ∧ CMAC toy_E [1; 2; 3] (CMAC_leaves toy_E [1; 2; 3] (seqZ 0 32))
    = subarray_from (CBC toy_E [1; 2; 3] (seqZ 0 32)) (-16).
Proof.
  split.
  - apply (proj1 (CMAC_overwrites_whole_blocks toy_E toy_E_block [1; 2; 3] (seqZ 0 5)
                    (octets_seqZ 0 5 ltac:(lia) ltac:(lia)))).
    reflexivity.
  - destruct (proj2 (CMAC_overwrites_whole_blocks toy_E toy_E_block [1; 2; 3]
                       (seqZ 0 32) (octets_seqZ 0 32 ltac:(lia) ltac:(lia))) eq_refl)
      as (_ & _ & H1 & H2).
    split; [exact H1|exact H2].
Defined.

Lemma write_then_read_witness :
  ∃ w,
    write toy_wire = inr w
    ∧ returned (read (constructor : SymEncryptedIntegrityProtectedDataPacket bytes) w)
      = inr tt
    ∧ salt (this_after
              (read (constructor : SymEncryptedIntegrityProtectedDataPacket bytes) w))
      = JBytes (toy_rnd 32)
    ∧ encrypted (this_after
              (read (constructor : SymEncryptedIntegrityProtectedDataPacket bytes) w))
      = Some (ArrayStream toy_ciphertext None).
Proof.
  destruct (write_then_read toy_wire constructor (Uint8Array toy_ciphertext)
              eq_refl eq_refl eq_refl)
    as (w & Hw & Hret & _ & Hv2 & _ & Henc & _).
  exists w. split; [exact Hw|]. split; [exact Hret|].
  split; [exact (proj2 (proj2 (proj2 (Hv2 eq_refl))))|exact Henc].
Defined.

Lemma read_then_write_witness :
  write (this_after
           (read (constructor : SymEncryptedIntegrityProtectedDataPacket bytes)
              (Uint8Array (2 :: 9 :: 2 :: 0 :: seqZ 0 40))))
  = inr (ArrayStream (2 :: 9 :: 2 :: 0 :: seqZ 0 40) None).
Proof.
  apply (read_then_write (constructor : SymEncryptedIntegrityProtectedDataPacket bytes)
           (Uint8Array (2 :: 9 :: 2 :: 0 :: seqZ 0 40)) eq_refl).
  - apply Forall_cons. split; [lia|]. apply Forall_cons. split; [lia|].
    apply Forall_cons. split; [lia|]. apply Forall_cons. split; [lia|].
    apply octets_seqZ; lia.
  - right. exists 9, 2, 0, 0, (seqZ 1 39). reflexivity.
Defined.

Lemma decrypt_after_reparse_witness :
  ∃ w,
    write toy_wire = inr w
    ∧ @decrypt_payload toy_crypto _
        (this_after (read (constructor : SymEncryptedIntegrityProtectedDataPacket bytes) w))
        7 toy_key toy_config
      = @decrypt_payload toy_crypto _ toy_wire 7 toy_key toy_config.
Proof.
  destruct (@decrypt_after_reparse toy_crypto _ toy_packetlist toy_wire constructor
              (Uint8Array toy_ciphertext) 7 toy_key toy_config
              eq_refl eq_refl eq_refl)
    as (w & Hw & _ & Hpay & _).
  exists w. split; [exact Hw|exact Hpay].
Defined.

Lemma decrypt_rejects_other_algorithm_witness :
  @decrypt toy_crypto _ toy_packetlist toy_wire 9 (seqZ 1 32) toy_config
  = {| trace := []; this_after := toy_wire;
       returned := inl UnexpectedSessionKeyAlgorithm |}.
Proof.
  apply (@decrypt_rejects_other_algorithm toy_crypto _ toy_packetlist toy_wire 9
           (seqZ 1 32) toy_config 16 32 (Uint8Array toy_ciphertext));
    reflexivity.
Defined.

Lemma encrypt_failure_keeps_new_parameters_witness :
  salt (this_after (@encrypt toy_crypto _ toy_packetlist toy_unknown_mode 7
                      toy_key toy_config toy_rnd))
  = JBytes (toy_rnd 32)
  ∧ encrypted (this_after (@encrypt toy_crypto _ toy_packetlist toy_unknown_mode 7
                             toy_key toy_config toy_rnd))
    = None.
Proof.
  destruct (@encrypt_failure_keeps_new_parameters toy_crypto _ toy_packetlist
              toy_unknown_mode 7 toy_key toy_config toy_rnd 16 16 [1; 2; 3]
              (External 3) eq_refl eq_refl eq_refl eq_refl eq_refl eq_refl)
    as (_ & _ & Hs & _ & He).
  split; [exact Hs|exact He].
Defined.

Lemma deferred_only_for_legacy_streams_witness :
  ∃ t d,
    @decrypt_payload toy_crypto _ toy_streamed 7 toy_key toy_config_deferred
    = (t, inr (d, true))
    ∧ isStream d = true ∧ isArrayStream d = false.
Proof.
  eexists _, _. split; [vm_compute; reflexivity|].
  eapply (@deferred_only_for_legacy_streams toy_crypto bytes toy_streamed 7 toy_key
            toy_config_deferred).
  vm_compute. reflexivity.
Defined.

Lemma toy_sha1_length b : len (@sha1 toy_crypto b) = 20.
Proof. cbn [sha1 toy_crypto]. unfold len. by rewrite length_map, length_seqZ. Qed.

Lemma legacy_short_ciphertext_witness :
  returned (@decrypt toy_crypto _ toy_packetlist
              (set_encrypted toy_received (Uint8Array [1; 2; 3])) 7 toy_key toy_config)
  = inl ModificationDetected.
Proof.
  apply (@legacy_short_ciphertext toy_crypto _ toy_packetlist
           (set_encrypted toy_received (Uint8Array [1; 2; 3])) 7 toy_key toy_config
           16 16 (Uint8Array [1; 2; 3]) eq_refl eq_refl eq_refl eq_refl eq_refl
           toy_sha1_length).
  - vm_compute. reflexivity.
  - reflexivity.
Defined.

Lemma legacy_prefix_and_marker_unchecked_witness :
  ∃ t,
    @decrypt_payload toy_crypto _ toy_unmarked 7 toy_key toy_config
    = (t, inr (Uint8Array [7; 8; 9], false)).
Proof.
  eexists.
  apply (@legacy_prefix_and_marker_unchecked toy_crypto _ toy_packetlist toy_unmarked
           7 toy_key toy_config 16 16 _ eq_refl eq_refl eq_refl eq_refl eq_refl
           toy_sha1_length (seqZ 0 18) [7; 8; 9] [0; 0]).
  - lia.
  - reflexivity.
  - reflexivity.
  - vm_compute. reflexivity.
Defined.


Lemma input_error_reaches_output_witness :
  ∃ te out,
    @runAEAD toy_crypto toy_packet Encrypt toy_key toy_broken_stream = (te, inr out)
    ∧ ∃ e', data_err out = Some e'.
Proof.
  eexists _, _. split; [vm_compute; reflexivity|].
  eapply (@input_error_reaches_output toy_crypto toy_packet Encrypt toy_key
            toy_broken_stream).
  - vm_compute. reflexivity.
  - reflexivity.
  - intros c [= <-]. lia.
  - intros b mode. cbn. intros [= <-]. cbn. lia.
Defined.

Lemma ciphertext_length_witness :
  ∃ te out,
    @runAEAD toy_crypto toy_packet Encrypt toy_key toy_plaintext = (te, inr out)
    ∧ Z.of_nat (length (call_chunks te)) = 4 + 1
    ∧ len (data_bytes out) = 200 + (4 + 1) * 16.
Proof.
  destruct (@ciphertext_length toy_crypto toy_packet toy_key toy_plaintext
              (toy_mode 16 12) (toy_instance 16) 0
              eq_refl eq_refl eq_refl ltac:(lia) eq_refl toy_v2_setup)
    as (te & out & Hrun & _ & Hn & Hl & _).
  { simpl. lia. }
  { apply toy_expands. lia. }
  exists te, out. split; [exact Hrun|]. split; [exact Hn|exact Hl].
Defined.

Lemma aeadp_nonces_and_closing_data_witness :
  ∃ te out mode pre c,
    @runAEAD toy_crypto toy_aeadp Encrypt toy_key toy_plaintext = (te, inr out)
    ∧ data_calls_A Encrypt (adata_header toy_aeadp) (pk_iv toy_aeadp) pre
    ∧ crypt_calls te
      = pre ++ [EvCrypt Encrypt true c
                  (aeadp_nonce (pk_iv toy_aeadp) (Z.of_nat (length pre)))
                  (adata_header toy_aeadp
                     ++ counter32 (Z.of_nat (length pre)) ++ zeros 4
                     ++ Z_to_be 4 (plain_count (tagLengthIfDecrypting Encrypt mode) pre))].
Proof.
  assert (Hrun : ∃ te out,
    @runAEAD toy_crypto toy_aeadp Encrypt toy_key toy_plaintext = (te, inr out)).
  { eexists _, _. vm_compute. reflexivity. }
  destruct Hrun as (te & out & Hrun).
  destruct (@aeadp_nonces_and_closing_data toy_crypto toy_aeadp Encrypt toy_key
              toy_plaintext te out eq_refl eq_refl ltac:(vm_compute; discriminate) Hrun)
    as (mode & pre & _ & Hpre & [[_ Hne]|(c & Hc)]).
  { by destruct Hne. }
  exists te, out, mode, pre, c. split; [exact Hrun|]. split; [exact Hpre|exact Hc].
Defined.

Lemma aeadp_roundtrip_witness :
  ∃ te ct,
    @runAEAD toy_crypto toy_aeadp Encrypt toy_key toy_plaintext
    = (te, inr (ArrayStream ct None))
    ∧ ∃ td, @runAEAD toy_crypto toy_aeadp Decrypt toy_key (Uint8Array ct)
            = (td, inr (ArrayStream (seqZ 0 200) None)).
Proof.
  destruct (@aeadp_roundtrip toy_crypto toy_aeadp toy_key toy_plaintext
              (toy_mode 16 12) (toy_instance 16) 0
              eq_refl eq_refl eq_refl ltac:(lia) eq_refl eq_refl eq_refl)
    as (te & ct & Henc & Hdec).
  { simpl. lia. }
  { apply toy_correct. lia. }
  exists te, ct. split; [exact Henc|].
  exact (Hdec (Uint8Array ct) eq_refl eq_refl).
Defined.

Lemma createSomeMessage_shape_witness :
  let message := createSomeMessage (λ _, (1959203061798881, 52)) in
  length message = 64%nat
  ∧ Forall (λ c, 0 <= c < 65536) message
  ∧ Forall (λ c, c ∉ [13; 8232; 8233]) message
  ∧ take 3 message = [8199; 32; 9]
  ∧ drop 53 message
    = [8199; 32; 9; 10; 54620; 44397; 50612; 47; 51312; 49440; 47568].
Proof.
  apply (createSomeMessage_shape (λ _, (1959203061798881, 52))).
  intros i. unfold unit_double. cbn [fst snd]. lia.
Defined.

(** ** User ID packets *)

Import UserIDPacket.

Lemma email_run_spec s a r :
  email_run s = (a, r) ->
  s = a ++ r ∧ Forall (λ c, email_unit c = true) a
  ∧ match r with [] => True | x :: _ => email_unit x = false end.
Proof.
  revert a r. induction s as [|x s IH]; intros a r; cbn [email_run].
  - by intros [= <- <-].
  - destruct (email_unit x) eqn:Hx.
    + destruct (email_run s) as [a' r'] eqn:Hs. intros [= <- <-].
      destruct (IH a' r' eq_refl) as (-> & Ha & Hr).
      split; [done|]. split; [by constructor|done].
    + intros [= <- <-]. by rewrite Hx.
Qed.

Lemma email_run_app a r :
  Forall (λ c, email_unit c = true) a ->
  match r with [] => True | x :: _ => email_unit x = false end ->
  email_run (a ++ r) = (a, r).
Proof.
  intros Ha Hr. induction Ha as [|x a Hx Ha IH]; cbn [app email_run].
  - destruct r as [|y r]; [done|]. cbn [email_run]. by rewrite Hr.
  - by rewrite Hx, IH.
Qed.

Lemma email_unit_at : email_unit 64 = false.
Proof. done. Qed.

Lemma isValidEmail_shape s : isValidEmail s = true <-> email_shape s.
Proof.
  unfold isValidEmail, email_shape. split.
  - destruct (email_run s) as [a r] eqn:Hs.
    destruct (email_run_spec s a r Hs) as (-> & Ha & Hr).
    destruct a as [|x a]; [done|]. destruct r as [|y r]; [done|].
    destruct (Z.eq_dec y 64) as [->|Hy].
    2:{ intros Hf. exfalso. revert Hf.
        destruct y as [|p|p]; try done.
        do 7 (destruct p as [p|p|]; try done). }
    destruct (email_run r) as [b r'] eqn:Hr2.
    destruct (email_run_spec r b r' Hr2) as (-> & Hb & _).
    destruct b as [|z b]; [done|]. destruct r'; [|done]. intros _.
    exists (x :: a), (z :: b). rewrite app_nil_r. done.
  - intros (a & b & -> & Ha0 & Hb0 & Ha & Hb).
    rewrite (email_run_app a ([64] ++ b)) by done.
    destruct a as [|x a]; [done|]. cbn [app].
    rewrite <- (app_nil_r b) at 1. rewrite (email_run_app b []) by done.
    by destruct b.
Qed.

Lemma email_unit_split c :
  email_unit c = true <-> is_space c = false ∧ c ≠ 64.
Proof.
  unfold email_unit. rewrite andb_true_iff, !negb_true_iff, Z.eqb_neq. done.
Qed.

(** X24: The email test of UserIDPacket.read accepts exactly the strings of the
    form local@domain with a non-empty local part and domain, a single @ and no
    white space. *)
Theorem isValidEmail_accepts (s : jsstring) :
  isValidEmail s = true
  <-> ∃ local domain,
        s = local ++ [64] ++ domain ∧ local ≠ [] ∧ domain ≠ []
        ∧ (64 ∉ local ++ domain)
        ∧ Forall (λ c, is_space c = false) s.
Proof.
  rewrite isValidEmail_shape. unfold email_shape. split.
  - intros (a & b & -> & Ha0 & Hb0 & Ha & Hb). exists a, b.
    split; [done|]. split; [done|]. split; [done|]. split.
    + intros [Hin|Hin]%elem_of_app.
      * rewrite Forall_forall in Ha. by apply Ha, email_unit_split in Hin as [_ ?].
      * rewrite Forall_forall in Hb. by apply Hb, email_unit_split in Hin as [_ ?].
    + apply Forall_app. split.
      { eapply Forall_impl; [exact Ha|]. by intros c [? _]%email_unit_split. }
      apply Forall_app. split; [by apply Forall_singleton|].
      eapply Forall_impl; [exact Hb|]. by intros c [? _]%email_unit_split.
  - intros (a & b & -> & Ha0 & Hb0 & Hat & Hsp). exists a, b.
    split; [done|]. split; [done|]. split; [done|].
    apply Forall_app in Hsp as [Ha Hsp]. apply Forall_app in Hsp as [_ Hb].
    apply not_elem_of_app in Hat as [Hata Hatb].
    split; apply Forall_forall; intros c Hc; apply email_unit_split.
    + rewrite Forall_forall in Ha. split; [by apply Ha|]. by intros ->.
    + rewrite Forall_forall in Hb. split; [by apply Hb|]. by intros ->.
Qed.

(** *** Searching, cutting and trimming *)

Lemma indexOf_from_notin s c i : c ∉ s -> indexOf_from s c i = -1.
Proof.
  revert i. induction s as [|x s IH]; intros i Hn; [done|].
  apply not_elem_of_cons in Hn as [Hx Hs]. cbn [indexOf_from].
  destruct (Z.eqb_spec x c); [done|]. by apply IH.
Qed.

Lemma indexOf_notin s c : c ∉ s -> indexOf s c = -1.
Proof. apply indexOf_from_notin. Qed.

Lemma indexOf_from_found a c b i :
  c ∉ a -> indexOf_from (a ++ c :: b) c i = i + len a.
Proof.
  revert i. induction a as [|x a IH]; intros i Hn.
  - cbn [app indexOf_from]. rewrite Z.eqb_refl. unfold len. cbn. lia.
  - apply not_elem_of_cons in Hn as [Hx Ha]. cbn [app indexOf_from].
    destruct (Z.eqb_spec x c); [done|]. rewrite IH by done.
    unfold len. cbn [length]. lia.
Qed.

Lemma indexOf_app_found a c b : c ∉ a -> indexOf (a ++ c :: b) c = len a.
Proof. intros Hn. unfold indexOf. by rewrite indexOf_from_found. Qed.

Lemma lastIndexOf_from_snoc a c i :
  0 <= i -> lastIndexOf_from (a ++ [c]) c i = i + len a.
Proof.
  revert i. induction a as [|x a IH]; intros i Hi.
  - cbn [app lastIndexOf_from]. change (-1 =? -1) with true. cbn [negb].
    rewrite Z.eqb_refl. unfold len. cbn [length]. lia.
  - cbn [app lastIndexOf_from]. rewrite IH by lia.
    unfold len. cbn [length].
    destruct (Z.eqb_spec (i + 1 + Z.of_nat (length a)) (-1)); [lia|].
    cbn [negb]. lia.
Qed.

Lemma lastIndexOf_snoc a c : lastIndexOf (a ++ [c]) c = len a.
Proof. unfold lastIndexOf. by rewrite lastIndexOf_from_snoc. Qed.

Lemma lastIndexOf_from_notin s c i : c ∉ s -> lastIndexOf_from s c i = -1.
Proof.
  revert i. induction s as [|x s IH]; intros i Hn; [done|].
  apply not_elem_of_cons in Hn as [Hx Hs]. cbn [lastIndexOf_from].
  rewrite IH by done. cbn. by destruct (Z.eqb_spec x c).
Qed.

Lemma lastIndexOf_notin s c : c ∉ s -> lastIndexOf s c = -1.
Proof. apply lastIndexOf_from_notin. Qed.

Lemma substring_mid (a m b : jsstring) :
  substring (a ++ m ++ b) (len a) (len a + len m) = m.
Proof.
  unfold substring.
  assert (Ha : Z.min (Z.max (len a) 0) (len (a ++ m ++ b)) = len a)
    by (unfold len; rewrite !length_app; lia).
  assert (Hb : Z.min (Z.max (len a + len m) 0) (len (a ++ m ++ b))
               = len a + len m)
    by (unfold len; rewrite !length_app; lia).
  rewrite Ha, Hb.
  rewrite Z.max_r, Z.min_l by (unfold len; lia).
  unfold len. rewrite Nat2Z.id, drop_app_length.
  replace (Z.to_nat (Z.of_nat (length a) + Z.of_nat (length m) - Z.of_nat (length a)))
    with (length m) by lia.
  by rewrite take_app_length.
Qed.

Lemma substring_prefix (m b : jsstring) : substring (m ++ b) 0 (len m) = m.
Proof. apply (substring_mid [] m b). Qed.

Lemma length_trimStart s : (length (trimStart s) <= length s)%nat.
Proof.
  induction s as [|x s IH]; cbn [trimStart]; [done|].
  destruct (is_space x); cbn [length]; lia.
Qed.

Lemma trimStart_suffix s : ∃ p, s = p ++ trimStart s.
Proof.
  induction s as [|x s [p IH]]; cbn [trimStart]; [by exists []|].
  destruct (is_space x); [|by exists []]. exists (x :: p). cbn. by f_equal.
Qed.

Lemma trimStart_fixed s : length (trimStart s) = length s -> trimStart s = s.
Proof.
  intros Hl. destruct (trimStart_suffix s) as [p Hp].
  assert (p = []).
  { apply (f_equal length) in Hp. rewrite length_app in Hp.
    destruct p; [done|]. cbn in Hp. lia. }
  subst p. done.
Qed.

Lemma length_trimEnd s : (length (trimEnd s) <= length s)%nat.
Proof.
  unfold trimEnd. rewrite length_reverse.
  etrans; [apply length_trimStart|]. by rewrite length_reverse.
Qed.

Lemma trim_fixed s : trim s = s -> trimStart s = s ∧ trimEnd s = s.
Proof.
  intros Ht. assert (Hs : trimStart s = s).
  { apply trimStart_fixed. apply (f_equal length) in Ht. unfold trim in Ht.
    pose proof (length_trimEnd (trimStart s)). pose proof (length_trimStart s). lia. }
  split; [done|]. unfold trim in Ht. by rewrite Hs in Ht.
Qed.

Lemma trimStart_idemp s : trimStart (trimStart s) = trimStart s.
Proof.
  induction s as [|x s IH]; cbn [trimStart]; [done|].
  destruct (is_space x) eqn:Hx; [done|]. cbn [trimStart]. by rewrite Hx.
Qed.

Lemma trimStart_head s x s' : trimStart s = x :: s' -> is_space x = false.
Proof.
  induction s as [|y s IH]; cbn [trimStart]; [done|].
  destruct (is_space y) eqn:Hy; [done|]. by intros [= <- _].
Qed.

Lemma trimStart_nonspace x s : is_space x = false -> trimStart (x :: s) = x :: s.
Proof. intros Hx. cbn. by rewrite Hx. Qed.

Lemma trimStart_snoc_nonspace s x :
  is_space x = false -> trimStart (s ++ [x]) = trimStart s ++ [x].
Proof.
  intros Hx. induction s as [|y s IH]; cbn [app trimStart].
  - by rewrite Hx.
  - by destruct (is_space y).
Qed.

Lemma trim_idemp s : trim (trim s) = trim s.
Proof.
  unfold trim.
  assert (Hs : trimStart (trimEnd (trimStart s)) = trimEnd (trimStart s)).
  { set (u := trimStart s). assert (Hu : trimStart u = u) by apply trimStart_idemp.
    unfold trimEnd. destruct (trimStart (reverse u)) as [|x r] eqn:Hr; [done|].
    pose proof (trimStart_head _ _ _ Hr) as Hx.
    destruct (trimStart_suffix (reverse u)) as [p Hp]. rewrite Hr in Hp.
    apply (f_equal reverse) in Hp. rewrite reverse_involutive in Hp.
    rewrite reverse_app in Hp.
    (* u = reverse (x :: r) ++ reverse p, and u starts with a non-space *)
    destruct (reverse (x :: r)) as [|y w] eqn:Hw.
    { apply (f_equal length) in Hw. rewrite length_reverse in Hw. done. }
    rewrite Hp in Hu. cbn [app trimStart] in Hu.
    destruct (is_space y) eqn:Hy.
    - exfalso. apply (f_equal length) in Hu.
      pose proof (length_trimStart (w ++ reverse p)). cbn in Hu. lia.
    - cbn. by rewrite Hy. }
  rewrite Hs. unfold trimEnd at 1. unfold trimEnd at 1.
  rewrite reverse_involutive, trimStart_idemp. done.
Qed.

Lemma trim_nil : trim [] = [].
Proof. done. Qed.

Lemma trim_snoc_space s :
  trim s = s -> trim (s ++ [32]) = s.
Proof.
  intros Ht. destruct (trim_fixed s Ht) as [Hs He].
  destruct s as [|x s]; [done|].
  assert (Hx : is_space x = false) by (by eapply trimStart_head).
  unfold trim. cbn [app]. rewrite trimStart_nonspace by done.
  unfold trimEnd. change (x :: s ++ [32]) with ((x :: s) ++ [32]).
  rewrite reverse_app. cbn [reverse app]. change (reverse [32]) with [32].
  cbn [app trimStart]. change (is_space 32) with true. cbv iota.
  exact He.
Qed.

Lemma trim_wrapped x s y :
  is_space x = false -> is_space y = false ->
  trim (x :: s ++ [y]) = x :: s ++ [y].
Proof.
  intros Hx Hy. unfold trim. rewrite trimStart_nonspace by done.
  unfold trimEnd. change (x :: s ++ [y]) with ((x :: s) ++ [y]).
  rewrite reverse_app. change (reverse [y]) with [y]. cbn [app].
  rewrite trimStart_nonspace by done.
  rewrite reverse_cons, reverse_involutive. done.
Qed.

Lemma trim_wrapped_space x s y :
  is_space x = false -> is_space y = false ->
  trim (x :: s ++ [y; 32]) = x :: s ++ [y].
Proof.
  intros Hx Hy.
  change (x :: s ++ [y; 32]) with ((x :: s) ++ [y; 32]).
  replace ((x :: s) ++ [y; 32]) with ((x :: s ++ [y]) ++ [32])
    by (cbn; by rewrite <- (assoc_L (++))).
  apply trim_snoc_space. by apply trim_wrapped.
Qed.

Section UserID_theorems.
Context (isEmailAddress : value → bool)
        (decodeUTF8 : bytes → jsstring) (encodeUTF8 : jsstring → bytes)
        (toString : value → jsstring).

#[local] Abbreviation read := (read decodeUTF8).
#[local] Abbreviation write := (write encodeUTF8).
#[local] Abbreviation fromObject := (fromObject isEmailAddress toString).

(** [read] on [P <e>] where [P] holds no [<] and [e] passes the test. *)
Lemma read_bracketed (this : t) b max (P e : jsstring) :
  decodeUTF8 b = P ++ [60] ++ e ++ [62] -> 60 ∉ P ->
  isValidEmail e = true -> len (decodeUTF8 b) <= max ->
  read this b max
  = (set_userID
       (let beforeEmail := trim P in
        let firstParen := indexOf beforeEmail 40 in
        let lastParen := lastIndexOf beforeEmail 41 in
        if negb (firstParen =? -1) && negb (lastParen =? -1)
           && (firstParen <? lastParen)
        then set_parts this (trim (substring beforeEmail 0 firstParen)) e
               (trim (substring beforeEmail (firstParen + 1) lastParen))
        else set_parts this beforeEmail e [])
       (decodeUTF8 b), None).
Proof.
  intros Hu HP He Hmax. unfold UserIDPacket.read.
  destruct (Z.ltb_spec max (len (decodeUTF8 b))); [lia|].
  rewrite Hu.
  assert (Hf : indexOf (P ++ [60] ++ e ++ [62]) 60 = len P)
    by (by apply indexOf_app_found).
  assert (Hl : lastIndexOf (P ++ [60] ++ e ++ [62]) 62 = len P + 1 + len e).
  { replace (P ++ [60] ++ e ++ [62]) with ((P ++ [60] ++ e) ++ [62])
      by (by rewrite <- !(assoc_L (++))).
    rewrite lastIndexOf_snoc. unfold len. rewrite !length_app. cbn [length]. lia. }
  rewrite Hf, Hl.
  assert (Hc : negb (len P =? -1) && negb (len P + 1 + len e =? -1)
               && (len P <? len P + 1 + len e) = true).
  { destruct (Z.eqb_spec (len P) (-1)); [unfold len in *; lia|].
    destruct (Z.eqb_spec (len P + 1 + len e) (-1)); [unfold len in *; lia|].
    destruct (Z.ltb_spec (len P) (len P + 1 + len e)); [done|unfold len in *; lia]. }
  rewrite Hc.
  assert (Hse : substring (P ++ [60] ++ e ++ [62]) (len P + 1) (len P + 1 + len e) = e).
  { replace (P ++ [60] ++ e ++ [62]) with ((P ++ [60]) ++ e ++ [62])
      by (by rewrite <- !(assoc_L (++))).
    replace (len P + 1) with (len (P ++ [60]))
      by (unfold len; rewrite length_app; cbn [length]; lia).
    apply substring_mid. }
  rewrite Hse, He.
  by rewrite (substring_prefix P).
Qed.

Ltac notin_units :=
  repeat first
    [ assumption
    | apply not_elem_of_nil
    | apply not_elem_of_app; split
    | apply not_elem_of_cons; split; [done|] ].

Lemma trim_first s x s' : trim s = s -> s = x :: s' -> is_space x = false.
Proof.
  intros Ht ->. destruct (trim_fixed _ Ht) as [Hs _]. by eapply trimStart_head.
Qed.

Lemma len_nonempty (s : jsstring) : s ≠ [] -> (len s =? 0) = false.
Proof. intros Hs. apply Z.eqb_neq. destruct s; [done|]. unfold len. cbn. lia. Qed.

(** X25: When fromObject accepts a name and a comment that are trimmed strings,
    the name without <, ( and ) and the comment without <, and an email that the
    email test of read accepts, then read of what write gives for the composed
    packet (UTF-8 decoding giving back the composed user ID from its encoding,
    the user ID within maxUserIDLength) returns without error with the same
    userID, name, email and comment. *)
Theorem fromObject_then_read (n c e : jsstring) (p this : t) max :
  decodeUTF8 (encodeUTF8 (userID p)) = userID p ->
  fromObject (ArgObject {| o_name := Some (VStr n); o_email := Some (VStr e);
                           o_comment := Some (VStr c) |}) = inr p ->
  isValidEmail e = true ->
  trim n = n -> trim c = c ->
  60 ∉ n -> 40 ∉ n -> 41 ∉ n -> 60 ∉ c ->
  len (userID p) <= max ->
  read this (write p) max = (p, None)
  ∧ name p = VStr n ∧ email p = VStr e ∧ comment p = VStr c.
Proof.
  intros Hcodec Hfrom He Hn Hc Hn60 Hn40 Hn41 Hc60 Hmax.
  assert (He0 : e ≠ []) by (by intros ->).
  revert Hfrom. unfold UserIDPacket.fromObject.
  cbn [o_name o_email o_comment default from_option id truthy isString negb andb orb
       name email comment UserIDPacket.constructor to_string].
  rewrite !andb_false_r. cbn [orb]. rewrite (len_nonempty e He0). cbn [negb andb].
  destruct (isEmailAddress (VStr e)); cbn [negb orb]; [|done].
  intros [= <-]. cbn [name email comment userID] in *.
  split; [|done]. unfold UserIDPacket.write. cbn [userID]. 
  set (u := join _) in *.
  assert (Hshape : ∃ P, u = P ++ [60] ++ e ++ [62] ∧ (60 ∉ P)
    ∧ ((let beforeEmail := trim P in
        let firstParen := indexOf beforeEmail 40 in
        let lastParen := lastIndexOf beforeEmail 41 in
        if negb (firstParen =? -1) && negb (lastParen =? -1)
           && (firstParen <? lastParen)
        then set_parts this (trim (substring beforeEmail 0 firstParen)) e
               (trim (substring beforeEmail (firstParen + 1) lastParen))
        else set_parts this beforeEmail e [])
       = set_parts this n e c)).
  { subst u.
    destruct n as [|x n']; destruct c as [|y c'];
      rewrite ?(len_nonempty (x :: n')), ?(len_nonempty (y :: c')) by done;
      change (len ([] : jsstring) =? 0) with true;
      cbn [negb app join].
    - exists []. split; [done|]. split; [apply not_elem_of_nil|]. done.
    - exists ([40] ++ (y :: c') ++ [41; 32]).
      split; [by rewrite <- !(assoc_L (++))|]. split.
      { notin_units. }
      cbv zeta.
      assert (Ht : trim ([40] ++ (y :: c') ++ [41; 32]) = [40] ++ (y :: c') ++ [41])
        by (by apply (trim_wrapped_space 40 (y :: c') 41)).
      rewrite Ht.
      change ([40] ++ (y :: c') ++ [41]) with ([] ++ 40 :: ((y :: c') ++ [41])) at 1.
      rewrite indexOf_app_found by apply not_elem_of_nil.
      replace ([40] ++ (y :: c') ++ [41]) with (([40] ++ (y :: c')) ++ [41])
        by (by rewrite <- !(assoc_L (++))).
      rewrite lastIndexOf_snoc.
      change (len []) with 0.
      assert (Hl : len ([40] ++ y :: c') = 0 + 1 + len (y :: c')).
      { unfold len. cbn [app length]. lia. }
      rewrite Hl.
      destruct (Z.eqb_spec (0 + 1 + len (y :: c')) (-1)); [unfold len in *; lia|].
      destruct (Z.ltb_spec 0 (0 + 1 + len (y :: c'))); [|unfold len in *; lia].
      cbn [negb andb Z.eqb].
      change (substring (([40] ++ y :: c') ++ [41]) 0 0) with ([] : jsstring).
      rewrite <- (assoc_L (++)).
      change (0 + 1) with (len [40]).
      rewrite substring_mid. by rewrite Hc.
    - exists ((x :: n') ++ [32]).
      split; [by rewrite <- !(assoc_L (++))|]. split.
      { notin_units. }
      cbv zeta. rewrite trim_snoc_space by done.
      rewrite indexOf_notin by done. done.
    - exists ((x :: n') ++ [32; 40] ++ (y :: c') ++ [41; 32]).
      split; [by rewrite <- !(assoc_L (++))|]. split.
      { notin_units. }
      cbv zeta.
      assert (Hx : is_space x = false) by exact (trim_first (x :: n') x n' Hn eq_refl).
      assert (Ht : trim ((x :: n') ++ [32; 40] ++ (y :: c') ++ [41; 32])
                   = (x :: n') ++ [32; 40] ++ (y :: c') ++ [41]).
      { replace ((x :: n') ++ [32; 40] ++ (y :: c') ++ [41; 32])
          with (x :: (n' ++ [32; 40] ++ (y :: c')) ++ [41; 32])
          by (cbn; by rewrite <- !(assoc_L (++))).
        rewrite trim_wrapped_space by done.
        cbn. by rewrite <- !(assoc_L (++)). }
      rewrite Ht.
      replace ((x :: n') ++ [32; 40] ++ (y :: c') ++ [41])
        with (((x :: n') ++ [32]) ++ 40 :: ((y :: c') ++ [41]))
        by (by rewrite <- !(assoc_L (++))).
      rewrite indexOf_app_found
        by notin_units.
      replace (((x :: n') ++ [32]) ++ 40 :: ((y :: c') ++ [41]))
        with ((((x :: n') ++ [32]) ++ [40] ++ (y :: c')) ++ [41])
        by (by rewrite <- !(assoc_L (++))).
      rewrite lastIndexOf_snoc.
      assert (Hl : len (((x :: n') ++ [32]) ++ [40] ++ y :: c')
                   = len ((x :: n') ++ [32]) + 1 + len (y :: c')).
      { unfold len. rewrite !length_app. cbn [length]. lia. }
      rewrite Hl.
      destruct (Z.eqb_spec (len ((x :: n') ++ [32])) (-1)); [unfold len in *; lia|].
      destruct (Z.eqb_spec (len ((x :: n') ++ [32]) + 1 + len (y :: c')) (-1));
        [unfold len in *; lia|].
      destruct (Z.ltb_spec (len ((x :: n') ++ [32]))
                  (len ((x :: n') ++ [32]) + 1 + len (y :: c')));
        [|unfold len in *; lia].
      cbn [negb andb].
      set (A := (x :: n') ++ [32]) in *. set (C := y :: c') in *.
      assert (H1 : substring ((A ++ [40] ++ C) ++ [41]) 0 (len A) = A).
      { replace ((A ++ [40] ++ C) ++ [41]) with (A ++ ([40] ++ C ++ [41]))
          by (by rewrite <- !(assoc_L (++))).
        apply substring_prefix. }
      assert (H2 : substring ((A ++ [40] ++ C) ++ [41]) (len A + 1)
                     (len A + 1 + len C) = C).
      { replace ((A ++ [40] ++ C) ++ [41]) with ((A ++ [40]) ++ C ++ [41])
          by (by rewrite <- !(assoc_L (++))).
        replace (len A + 1) with (len (A ++ [40]))
          by (unfold len; rewrite !length_app; cbn [length]; lia).
        apply substring_mid. }
      rewrite H1, H2. subst A C. rewrite trim_snoc_space by done.
      by rewrite Hc. }
  destruct Hshape as (P & HuP & HP & Hparts).
  rewrite (read_bracketed this _ max P e); rewrite ?Hcodec; try done.
  rewrite Hparts. done.
Qed.

Lemma isValidEmail_at s : isValidEmail s = true -> 64 ∈ s.
Proof.
  intros (a & b & -> & _)%isValidEmail_shape.
  apply elem_of_app. right. by left.
Qed.

Lemma elem_of_substring x s a b : x ∈ substring s a b -> x ∈ s.
Proof.
  unfold substring. intros (i & Hi & _)%elem_of_take.
  rewrite lookup_drop in Hi. by eapply list_elem_of_lookup_2.
Qed.

Lemma elem_of_trimStart x s : x ∈ trimStart s -> x ∈ s.
Proof.
  destruct (trimStart_suffix s) as [p Hp]. intros Hx. rewrite Hp.
  apply elem_of_app. by right.
Qed.

Lemma elem_of_trim x s : x ∈ trim s -> x ∈ s.
Proof.
  unfold trim, trimEnd. intros Hx.
  apply (proj1 (elem_of_reverse _ _)) in Hx. apply elem_of_trimStart in Hx.
  apply (proj1 (elem_of_reverse _ _)) in Hx. by apply elem_of_trimStart.
Qed.

(** X26: UserIDPacket.read throws the too-long error and changes nothing when
    the decoded user ID has more than maxUserIDLength code units; when it fits
    and holds no @, read stores it in userID and leaves name, email and comment
    as they were. *)
Theorem read_without_address (this : t) b max :
  let u := decodeUTF8 b in
  (max < len u -> read this b max = (this, Some UserIDTooLong))
  ∧ (len u <= max -> 64 ∉ u -> read this b max = (set_userID this u, None)).
Proof.
  cbv zeta. unfold UserIDPacket.read. split.
  - intros Hlt. by destruct (Z.ltb_spec max (len (decodeUTF8 b))); [|lia].
  - intros Hle Hat. destruct (Z.ltb_spec max (len (decodeUTF8 b))); [lia|].
    assert (H1 : ∀ a c, isValidEmail (substring (decodeUTF8 b) a c) = false).
    { intros a c. apply not_true_is_false. intros Hv%isValidEmail_at.
      by apply Hat, (elem_of_substring _ _ a c). }
    assert (H2 : isValidEmail (trim (decodeUTF8 b)) = false).
    { apply not_true_is_false. intros Hv%isValidEmail_at.
      by apply Hat, elem_of_trim. }
    rewrite H1, H2. by destruct (_ && _).
Qed.

(** X27: When UserIDPacket.read returns, userID is the decoded input, and name,
    email and comment are either all as before or all set: email to a string
    local@domain without white space, name and comment to trimmed strings, all
    three made of code units of the input. *)
Theorem read_result (this this' : t) b max :
  read this b max = (this', None) ->
  userID this' = decodeUTF8 b
  ∧ ((name this' = name this ∧ email this' = email this
      ∧ comment this' = comment this)
     ∨ ∃ n e c,
         name this' = VStr n ∧ email this' = VStr e ∧ comment this' = VStr c
         ∧ email_shape e ∧ trim n = n ∧ trim c = c
         ∧ (∀ x, x ∈ n ++ e ++ c -> x ∈ decodeUTF8 b)).
Proof.
  unfold UserIDPacket.read.
  destruct (max <? len (decodeUTF8 b)); [done|].
  set (u := decodeUTF8 b).
  destruct (_ && _).
  - destruct (isValidEmail (substring u _ _)) eqn:Hv; [|intros [= <-]; split; [done|by left]].
    apply isValidEmail_shape in Hv.
    destruct (_ && _); intros [= <-]; (split; [done|]); right.
    + eexists _, _, _. split_and!; try done; try apply trim_idemp.
      intros x [Hx|[Hx|Hx]%elem_of_app]%elem_of_app.
      * by apply elem_of_trim, elem_of_substring, elem_of_trim, elem_of_substring in Hx.
      * by apply elem_of_substring in Hx.
      * by apply elem_of_trim, elem_of_substring, elem_of_trim, elem_of_substring in Hx.
    + eexists _, _, _. split_and!; try done; try apply trim_idemp.
      intros x [Hx|[Hx|Hx]%elem_of_app]%elem_of_app.
      * by apply elem_of_trim, elem_of_substring in Hx.
      * by apply elem_of_substring in Hx.
      * by apply elem_of_nil in Hx.
  - destruct (isValidEmail (trim u)) eqn:Hv; intros [= <-]; (split; [done|]);
      [|by left].
    apply isValidEmail_shape in Hv. right.
    eexists _, _, _. split_and!; try done.
    intros x [Hx|[Hx|Hx]%elem_of_app]%elem_of_app.
    + by apply elem_of_nil in Hx.
    + by apply elem_of_trim in Hx.
    + by apply elem_of_nil in Hx.
Qed.

End UserID_theorems.

(** ** User ID packets at work *)

Lemma fromObject_then_read_witness :
  ∃ p,
    fromObject toy_isEmailAddress (λ _, [])
      (ArgObject {| o_name := Some (VStr [65; 108]);
                    o_email := Some (VStr [97; 64; 98; 46; 99; 111]);
                    o_comment := Some (VStr [120]) |}) = inr p
    ∧ userID p = [65; 108; 32; 40; 120; 41; 32; 60; 97; 64; 98; 46; 99; 111; 62]
    ∧ read (λ b, b) constructor (write (λ s, s) p) 100 = (p, None)
    ∧ name p = VStr [65; 108] ∧ email p = VStr [97; 64; 98; 46; 99; 111]
    ∧ comment p = VStr [120].
Proof.
  eexists. split; [reflexivity|]. split; [reflexivity|].
  apply (fromObject_then_read toy_isEmailAddress (λ b, b) (λ s, s) (λ _, [])
           [65; 108] [120] [97; 64; 98; 46; 99; 111] _ constructor 100);
    try reflexivity; try (vm_compute; discriminate);
    try (apply (proj1 (bool_decide_eq_false _)); vm_compute; reflexivity).
Defined.

Lemma read_result_witness :
  userID (read (λ b, b) constructor [32; 97; 64; 98; 32] 100).1 = [32; 97; 64; 98; 32]
  ∧ email (read (λ b, b) constructor [32; 97; 64; 98; 32] 100).1 = VStr [97; 64; 98].
Proof.
  destruct (read_result (λ b, b) constructor
              (read (λ b, b) constructor [32; 97; 64; 98; 32] 100).1
              [32; 97; 64; 98; 32] 100 eq_refl) as [Hu _].
  split; [exact Hu|reflexivity].
Defined.
